(** * PriceService (ccipdb/price_service.go): a shallow embedding

    The Go service caches gas and token prices in a database.  Its
    collaborators (price getter, gas estimator, registry and off-ramp
    readers, ORM) are interfaces; they are embedded as records of
    functions.  Every method of a collaborator is called at most once per
    cycle, so a function per method is enough to describe one cycle.

    - [*big.Int] is [option Z] ([None] is the nil pointer); [big.Int]
      values are unbounded, hence plain [Z];
    - [map[K]V] is [gmap K V]; a nil map reads like the empty map, and the
      only map write outside a fresh [make] happens after a successful
      read of a key of that same map;
    - a Go function returning [(T, error)] returns an [outcome T] together
      with the list of effects it performed (calls, log lines, lock
      operations), in program order;
    - run-time panics (index out of range, nil dereference) are a third
      outcome, [Panic];
    - a [range] over a map visits the entries in the order of
      [map_to_list]; Go leaves the order open, and the slices built this
      way are sorted before use;
    - the goroutines that share the two dynamic-configuration fields are
      interleaved access by access, under the rules of [sync.RWMutex]
      (a Go program without data races behaves as such an
      interleaving). *)

From Stdlib Require Import ZArith NArith String List Lia.
From Stdlib Require Import Sorting.Sorted Sorting.Permutation.
From Stdlib Require Import Structures.OrdersEx.
From stdpp Require Import base option list sorting gmap sets strings.

Local Open Scope string_scope.
Local Open Scope list_scope.
Local Open Scope Z_scope.

(** ** Basic types *)

Abbreviation Address := string (only parsing).
Abbreviation uint64 := N (only parsing).
Abbreviation uint8 := N (only parsing).

(** ccipcommon.TokenID *)
Record TokenID := mkTokenID {
  TokenAddress : Address;
  ChainSelector : uint64
}.

#[global] Instance TokenID_eq_dec : EqDecision TokenID.
Proof. solve_decision. Defined.

#[global] Instance TokenID_countable : Countable TokenID.
Proof.
  refine (inj_countable' (fun t => (TokenAddress t, ChainSelector t))
                         (fun p => mkTokenID p.1 p.2) _).
  by intros [].
Defined.

(** cciporm.GasPrice and cciporm.TokenPrice: the price is a [*assets.Wei],
    a pointer that can be nil.  The price fields carry the name of their
    struct in Go, hence the underscore. *)
Record GasPrice := mkGasPrice {
  SourceChainSelector : uint64;
  GasPrice_ : option Z
}.

Record TokenPrice := mkTokenPrice {
  TokenAddr : string;
  TokenPrice_ : option Z
}.

(** ** math/big *)

(** [z.Mul(x, y)] *)
Definition big_Mul (x y : Z) : Z := x * y.

(** [z.Exp(x, y, nil)]: [x^y], and 1 when [y <= 0]. *)
Definition big_Exp (x y : Z) : Z := if y <=? 0 then 1 else x ^ y.

(** [z.Div(x, y)] for [y <> 0]: Euclidean division, the remainder is never
    negative. *)
Definition big_Div (x y : Z) : Z := Z.sgn y * (x / Z.abs y).

(** [assets.NewWei] and [Wei.ToInt] are pointer casts. *)
Definition NewWei (i : option Z) : option Z := i.
Definition ToInt (w : Z) : option Z := Some w.

(** ** The unit converter *)

(** calculateUsdPer1e18TokenAmount, on non-nil [price]. *)
Definition calculateUsdPer1e18TokenAmount (price : Z) (decimals : uint8) : Z :=
  let tmp := big_Mul price 1000000000000000000 in
  big_Div tmp (big_Exp 10 (Z.of_N decimals)).

(** ** Errors, outcomes and effects *)

Inductive error :=
| ErrNew (msg : string)                  (* errors.New, fmt.Errorf without %w *)
| ErrWrap (msg : string) (cause : error) (* fmt.Errorf("msg: %w", cause) *)
| ErrExternal (msg : string).            (* reported by a collaborator *)

Inductive outcome (A : Type) :=
| Ok (a : A)
| Err (e : error)
| Panic.
Arguments Ok {A} a.
Arguments Err {A} e.
Arguments Panic {A}.

Inductive LogLevel := Debug | Info | Error.

Inductive Event :=
| EvLog (lvl : LogLevel) (msg : string)
| EvLock | EvUnlock | EvRLock | EvRUnlock
| EvGetTokenPricesUSD (ids : list TokenID)
| EvGetJobSpecTokenPricesUSD
| EvGetDestinationTokens
| EvGetGasPrice
| EvDenoteInUSD (p : Z) (wrappedNativePrice : option Z)
| EvGetTokensDecimals (tokens : list Address)
| EvGetGasPricesByDestChain (dest : uint64)
| EvGetTokenPricesByDestChain (dest : uint64)
| EvUpsertGasPrices (dest : uint64) (rows : list GasPrice)
| EvUpsertTokenPrices (dest : uint64) (rows : list TokenPrice) (ttl : Z).

(** A computation: its outcome and the effects it performed, oldest first. *)
Definition M (A : Type) : Type := outcome A * list Event.

Definition ret {A} (a : A) : M A := (Ok a, []).
Definition fail {A} (e : error) : M A := (Err e, []).
Definition panic {A} : M A := (Panic, []).
Definition tell (ev : Event) : M unit := (Ok tt, [ev]).

Definition bind {A B} (m : M A) (k : A -> M B) : M B :=
  match m with
  | (Ok a, t) => let '(r, t') := k a in (r, t ++ t')
  | (Err e, t) => (Err e, t)
  | (Panic, t) => (Panic, t)
  end.

Notation "x <~ m ;; k" := (bind m (fun x => k))
  (at level 100, m at next level, right associativity).
Notation "m ;;; k" := (bind m (fun _ => k))
  (at level 100, right associativity).

(** A call of a collaborator method: the call is recorded, an error it
    returns goes through [wrap] ([fun e => e] where the Go code returns
    [err] as it is). *)
Definition call {A} (ev : Event) (wrap : error -> error) (r : error + A) : M A :=
  match r with
  | inl e => (Err (wrap e), [ev])
  | inr a => (Ok a, [ev])
  end.

Definition log (lvl : LogLevel) (msg : string) : M unit := tell (EvLog lvl msg).

(** [mu.RLock(); defer mu.RUnlock()]: the deferred unlock runs on every
    way out of the body. *)
Definition withRLock {A} (body : M A) : M A :=
  let '(r, t) := body in (r, [EvRLock] ++ t ++ [EvRUnlock]).

(** ** Collaborators *)

Record AllTokensPriceGetter := {
  GetTokenPricesUSD : list TokenID -> error + gmap TokenID (option Z);
  GetJobSpecTokenPricesUSD : error + gmap TokenID (option Z)
}.

Record GasPriceEstimatorCommit := {
  GetGasPrice : error + option Z;
  DenoteInUSD : Z -> option Z -> error + option Z
}.

Record PriceRegistryReader := {
  GetTokensDecimals : list Address -> error + list uint8;
  GetFeeTokens : error + list Address
}.

Record OffRampReader := {
  GetTokens : error + list Address
}.

Record ORM := {
  GetGasPricesByDestChain : uint64 -> error + list GasPrice;
  GetTokenPricesByDestChain : uint64 -> error + list TokenPrice;
  UpsertGasPricesForDestChain : uint64 -> list GasPrice -> error + Z;
  UpsertTokenPricesForDestChain :
    uint64 -> list TokenPrice -> Z -> error + Z
}.

(** ** sort.Slice *)

(** [sort.Slice(s, less)] is modelled by insertion sort.  Every slice the
    service sorts holds the distinct keys of a map, ordered by [<] on
    strings, so any sorting algorithm yields the same slice
    ([sorted_perm_unique] below). *)
Fixpoint insert_by {A} (less : A -> A -> bool) (x : A) (l : list A) : list A :=
  match l with
  | [] => [x]
  | y :: l' => if less x y then x :: l else y :: insert_by less x l'
  end.

Definition sort_Slice {A} (less : A -> A -> bool) (l : list A) : list A :=
  foldr (insert_by less) [] l.

(** [a < b] on Go strings compares bytes, as [String.ltb] does. *)
Definition string_lt (a b : string) : Prop := String.ltb a b = true.

(** Strictly ascending in the order of Go strings. *)
Definition ascending (l : list Address) : Prop := StronglySorted string_lt l.

(** ** ccipcommon helpers *)

(** Modelled from the spec: ccipcommon.GetDestinationTokens is not among
    the sources; it fetches "the canonical set of destination-chain fee
    and bridged token addresses from the off-ramp/registry readers" and
    fails when a reader fails. *)
Definition GetDestinationTokens (o : OffRampReader) (r : PriceRegistryReader)
  : error + (list Address * list Address) :=
  match GetFeeTokens r with
  | inl e => inl e
  | inr fee =>
      match GetTokens o with
      | inl e => inl e
      | inr bridged => inr (fee, bridged)
      end
  end.

(** Modelled from the spec: ccipcommon.FlattenedAndSortedTokens is not
    among the sources; the token lists are "flattened and deduped", and
    the name says sorted. *)
Definition FlattenedAndSortedTokens (fee bridged : list Address) : list Address :=
  sort_Slice String.ltb (remove_dups (fee ++ bridged)).

(** slices.Contains *)
Definition slices_Contains (l : list Address) (a : Address) : bool :=
  bool_decide (a ∈ l).

(** ** The service *)

Record priceService := mkPriceService {
  gasUpdateInterval : Z;
  tokenUpdateInterval : Z;
  orm : ORM;
  jobId : Z;
  destChainSelector : uint64;
  sourceChainSelector : uint64;
  sourceNative : Address;
  priceGetter : AllTokensPriceGetter;
  offRampReader : OffRampReader;
  gasPriceEstimator : option GasPriceEstimatorCommit;
  destPriceRegistryReader : option PriceRegistryReader
}.

Definition sourceNativeTokenID (p : priceService) : TokenID :=
  mkTokenID (sourceNative p) (sourceChainSelector p).

Definition destNativeTokenID (p : priceService) : TokenID :=
  mkTokenID (sourceNative p) (destChainSelector p).

(** observeGasPriceUpdates *)
Definition observeGasPriceUpdates (p : priceService) : M (option Z) :=
  match gasPriceEstimator p with
  | None => fail (ErrNew "gasPriceEstimator is not set yet")
  | Some est =>
      rawTokenPricesUSD <~
        call (EvGetTokenPricesUSD [sourceNativeTokenID p])
             (ErrWrap "failed to fetch source native price")
             (GetTokenPricesUSD (priceGetter p) [sourceNativeTokenID p]) ;;
      match rawTokenPricesUSD !! sourceNativeTokenID p with
      | None => fail (ErrNew "missing source native price")
      | Some sourceNativePriceUSD =>
          g <~ call EvGetGasPrice (fun e => e) (GetGasPrice est) ;;
          match g with
          | None => fail (ErrNew "missing gas price")
          | Some sourceGasPrice =>
              sourceGasPriceUSD <~
                call (EvDenoteInUSD sourceGasPrice sourceNativePriceUSD)
                     (fun e => e)
                     (DenoteInUSD est sourceGasPrice sourceNativePriceUSD) ;;
              log Info "PriceService observed latest gas price" ;;;
              ret sourceGasPriceUSD
          end
      end
  end.

(** findMissingDestNativeTokenPrice.  GetDestinationTokens receives the
    reader interface value as it is held; observeTokenPriceUpdates, the
    only caller, has checked that it is not nil. *)
Definition findMissingDestNativeTokenPrice (p : priceService)
    (reader : PriceRegistryReader)
    (tokenPrices : gmap TokenID (option Z)) : M (option Z) :=
  match tokenPrices !! destNativeTokenID p with
  | Some _ =>
      log Debug "price for destination native already exists, new job spec must be in place" ;;;
      ret None
  | None =>
      tokens <~
        call EvGetDestinationTokens (ErrWrap "get destination tokens")
             (GetDestinationTokens (offRampReader p) reader) ;;
      let '(fee, bridged) := tokens in
      let onchainDestTokens := FlattenedAndSortedTokens fee bridged in
      if negb (slices_Contains onchainDestTokens (sourceNative p)) then
        log Debug "destination tokens do not have source native address price is not missing" ;;;
        ret None
      else
        match tokenPrices !! sourceNativeTokenID p with
        | Some (Some sourcePrice) =>
            log Debug "source native token price is missing, assuming source native token price as destination native" ;;;
            ret (Some sourcePrice)
        | _ =>
            log Debug "source native token price is missing, cannot use it for destination native token price" ;;;
            ret None
        end
  end.

(** The loop "Verify no price returned by price getter is nil", over the
    entries of the map in the order the range statement yields them. *)
Fixpoint firstNilPrice (entries : list (TokenID * option Z)) : option TokenID :=
  match entries with
  | [] => None
  | (tokenID, None) :: _ => Some tokenID
  | (_, Some _) :: rest => firstNilPrice rest
  end.

(** The loop collecting [destTokens]. *)
Fixpoint collectDestTokens (dest : uint64) (entries : list (TokenID * option Z))
  : list Address :=
  match entries with
  | [] => []
  | (tokenID, _) :: rest =>
      if decide (ChainSelector tokenID = dest)
      then TokenAddress tokenID :: collectDestTokens dest rest
      else collectDestTokens dest rest
  end.

(** The loop filling [tokenPricesUSDPer1e18]; [i] is the index of the head
    of [tokens] in [destTokens].  [destTokensDecimals[i]] panics when [i]
    is out of range, the unit converter panics on a nil price. *)
Fixpoint normalizeLoop (dest : uint64) (rawTokenPricesUSD : gmap TokenID (option Z))
    (destTokensDecimals : list uint8) (i : nat) (tokens : list Address)
    (acc : gmap Address (option Z)) : outcome (gmap Address (option Z)) :=
  match tokens with
  | [] => Ok acc
  | token :: rest =>
      match rawTokenPricesUSD !! mkTokenID token dest with
      | None => Err (ErrNew "internal bug rawTokenPricesUSD")
      | Some tokenPriceUSD =>
          match destTokensDecimals !! i, tokenPriceUSD with
          | Some decimals, Some price =>
              normalizeLoop dest rawTokenPricesUSD destTokensDecimals (S i) rest
                (<[token := Some (calculateUsdPer1e18TokenAmount price decimals)]> acc)
          | _, _ => Panic
          end
      end
  end.

(** The working set after the backward-compatibility backfill. *)
Definition backfill (p : priceService) (rawTokenPricesUSD : gmap TokenID (option Z))
    (missingDestNativePrice : option Z) : gmap TokenID (option Z) :=
  match missingDestNativePrice with
  | Some price => <[destNativeTokenID p := Some price]> rawTokenPricesUSD
  | None => rawTokenPricesUSD
  end.

Definition sortedDestTokens (dest : uint64) (prices : gmap TokenID (option Z))
  : list Address :=
  sort_Slice String.ltb (collectDestTokens dest (map_to_list prices)).

(** observeTokenPriceUpdates *)
Definition observeTokenPriceUpdates (p : priceService)
  : M (gmap Address (option Z)) :=
  match destPriceRegistryReader p with
  | None => fail (ErrNew "destPriceRegistry is not set yet")
  | Some reader =>
      fetched <~
        call EvGetJobSpecTokenPricesUSD (ErrWrap "failed to fetch token prices")
             (GetJobSpecTokenPricesUSD (priceGetter p)) ;;
      missingDestNativePrice <~
        (match findMissingDestNativeTokenPrice p reader fetched with
         | (Err e, t) => (Err (ErrWrap "find missing dest native token price" e), t)
         | r => r
         end) ;;
      let rawTokenPricesUSD := backfill p fetched missingDestNativePrice in
      match firstNilPrice (map_to_list rawTokenPricesUSD) with
      | Some _ => fail (ErrNew "token price is nil for token")
      | None =>
          log Info "Raw token prices" ;;;
          let destTokens := sortedDestTokens (destChainSelector p) rawTokenPricesUSD in
          destTokensDecimals <~
            call (EvGetTokensDecimals destTokens) (ErrWrap "get tokens decimals")
                 (GetTokensDecimals reader destTokens) ;;
          if negb (length destTokensDecimals =? length destTokens)%nat then
            fail (ErrNew "mismatched token decimals and tokens")
          else
            tokenPricesUSDPer1e18 <~
              (normalizeLoop (destChainSelector p) rawTokenPricesUSD
                             destTokensDecimals 0 destTokens ∅, []) ;;
            log Info "PriceService observed latest token prices" ;;;
            ret tokenPricesUSDPer1e18
      end
  end.

(** writeGasPricesToDB *)
Definition writeGasPricesToDB (p : priceService) (sourceGasPriceUSD : option Z)
  : M unit :=
  match sourceGasPriceUSD with
  | None => ret tt
  | Some _ =>
      let rows := [mkGasPrice (sourceChainSelector p) (NewWei sourceGasPriceUSD)] in
      _ <~ call (EvUpsertGasPrices (destChainSelector p) rows) (fun e => e)
                (UpsertGasPricesForDestChain (orm p) (destChainSelector p) rows) ;;
      ret tt
  end.

Definition tokenPriceRow (entry : Address * option Z) : TokenPrice :=
  mkTokenPrice entry.1 (NewWei entry.2).

Definition tokenPriceRows (tokenPricesUSD : gmap Address (option Z))
  : list TokenPrice :=
  sort_Slice (fun a b => String.ltb (TokenAddr a) (TokenAddr b))
             (tokenPriceRow <$> map_to_list tokenPricesUSD).

(** writeTokenPricesToDB; [None] is the nil map. *)
Definition writeTokenPricesToDB (p : priceService)
    (tokenPricesUSD : option (gmap Address (option Z))) : M unit :=
  match tokenPricesUSD with
  | None => ret tt
  | Some prices =>
      let rows := tokenPriceRows prices in
      _ <~ call (EvUpsertTokenPrices (destChainSelector p) rows (tokenUpdateInterval p))
                (fun e => e)
                (UpsertTokenPricesForDestChain (orm p) (destChainSelector p) rows
                                               (tokenUpdateInterval p)) ;;
      ret tt
  end.

(** [if err != nil { return fmt.Errorf("msg: %w", err) }] *)
Definition wrapErr {A} (msg : string) (m : M A) : M A :=
  match m with
  | (Err e, t) => (Err (ErrWrap msg e), t)
  | r => r
  end.

(** runGasPriceUpdate *)
Definition runGasPriceUpdate (p : priceService) : M unit :=
  withRLock
    (match gasPriceEstimator p with
     | None =>
         log Info "Skipping gas price update due to gasPriceEstimator not ready" ;;;
         ret tt
     | Some _ =>
         sourceGasPriceUSD <~
           wrapErr "failed to observe gas price updates" (observeGasPriceUpdates p) ;;
         wrapErr "failed to write gas prices to db"
                 (writeGasPricesToDB p sourceGasPriceUSD)
     end).

(** runTokenPriceUpdate *)
Definition runTokenPriceUpdate (p : priceService) : M unit :=
  withRLock
    (match destPriceRegistryReader p with
     | None =>
         log Info "Skipping token price update due to destPriceRegistry not ready" ;;;
         ret tt
     | Some _ =>
         tokenPricesUSD <~
           wrapErr "failed to observe token price updates" (observeTokenPriceUpdates p) ;;
         wrapErr "failed to write token prices to db"
                 (writeTokenPricesToDB p (Some tokenPricesUSD))
     end).

(** [if err := f(); err != nil { lggr.Errorw(msg) }]: the error is logged
    and dropped. *)
Definition logAndDrop (msg : string) (m : M unit) : M unit :=
  match m with
  | (Err _, t) => (Ok tt, t ++ [EvLog Error msg])
  | r => r
  end.

Definition setDynamicConfig (p : priceService)
    (estimator : option GasPriceEstimatorCommit)
    (reader : option PriceRegistryReader) : priceService :=
  {| gasUpdateInterval := gasUpdateInterval p;
     tokenUpdateInterval := tokenUpdateInterval p;
     orm := orm p;
     jobId := jobId p;
     destChainSelector := destChainSelector p;
     sourceChainSelector := sourceChainSelector p;
     sourceNative := sourceNative p;
     priceGetter := priceGetter p;
     offRampReader := offRampReader p;
     gasPriceEstimator := estimator;
     destPriceRegistryReader := reader |}.

(** UpdateDynamicConfig: the service after the call, and the computation
    of the returned error ([Ok tt] is [return nil]). *)
Definition UpdateDynamicConfig (p : priceService)
    (estimator : option GasPriceEstimatorCommit)
    (reader : option PriceRegistryReader) : priceService * M unit :=
  let p' := setDynamicConfig p estimator reader in
  (p',
   tell EvLock ;;; tell EvUnlock ;;;
   logAndDrop "Error when updating gas prices after dynamic config update"
              (runGasPriceUpdate p') ;;;
   logAndDrop "Error when updating token prices after dynamic config update"
              (runTokenPriceUpdate p') ;;;
   ret tt).

(** The events that write to the database. *)
Definition isUpsert (ev : Event) : bool :=
  match ev with
  | EvUpsertGasPrices _ _ | EvUpsertTokenPrices _ _ _ => true
  | _ => false
  end.

Definition noUpsert (trace : list Event) : Prop :=
  Forall (fun ev => isUpsert ev = false) trace.

(** A database write carries no nil price. *)
Definition rowsNonNil (ev : Event) : Prop :=
  match ev with
  | EvUpsertGasPrices _ rows => Forall (fun row => is_Some (GasPrice_ row)) rows
  | EvUpsertTokenPrices _ rows _ => Forall (fun row => is_Some (TokenPrice_ row)) rows
  | _ => True
  end.

(** ** The read API *)

(** The two loops over the fetched rows have one shape: a row with a nil
    price is skipped, any other row is stored under its key, a later row
    replacing an earlier one. *)
Definition collectRows {R K} `{Countable K} (key : R -> K) (price : R -> option Z)
    (rows : list R) : gmap K (option Z) :=
  foldl (fun m row =>
           match price row with
           | Some w => <[key row := ToInt w]> m
           | None => m
           end) ∅ rows.

Definition collectGasPrices (rows : list GasPrice) : gmap uint64 (option Z) :=
  collectRows SourceChainSelector GasPrice_ rows.

Definition collectTokenPrices (rows : list TokenPrice) : gmap Address (option Z) :=
  collectRows TokenAddr TokenPrice_ rows.

(** What GetGasAndTokenPrices returns: the Go triple. *)
Record Prices := mkPrices {
  gasPrices : option (gmap uint64 (option Z));
  tokenPrices : option (gmap Address (option Z));
  err : option error
}.

(** GetGasAndTokenPrices.  The errgroup runs both fetches; [Wait] returns
    the error of the goroutine that failed first.  [gasFirst] tells which
    goroutine completes first. *)
Definition GetGasAndTokenPrices (p : priceService) (destChainSelector : uint64)
    (gasFirst : bool) : Prices * list Event :=
  let gasResult := GetGasPricesByDestChain (orm p) destChainSelector in
  let tokenResult := GetTokenPricesByDestChain (orm p) destChainSelector in
  let gasErr e := ErrWrap "failed to get gas prices from db" e in
  let tokenErr e := ErrWrap "failed to get token prices from db" e in
  let trace :=
    if gasFirst
    then [EvGetGasPricesByDestChain destChainSelector;
          EvGetTokenPricesByDestChain destChainSelector]
    else [EvGetTokenPricesByDestChain destChainSelector;
          EvGetGasPricesByDestChain destChainSelector] in
  let result :=
    match gasResult, tokenResult with
    | inr gasPricesInDB, inr tokenPricesInDB =>
        mkPrices (Some (collectGasPrices gasPricesInDB))
                 (Some (collectTokenPrices tokenPricesInDB)) None
    | inl e, inr _ => mkPrices None None (Some (gasErr e))
    | inr _, inl e => mkPrices None None (Some (tokenErr e))
    | inl e1, inl e2 =>
        mkPrices None None (Some (if gasFirst then gasErr e1 else tokenErr e2))
    end in
  (result, trace).

(** ** Goroutines and dynamicConfigMu

    The two fields [gasPriceEstimator] and [destPriceRegistryReader] are
    shared between the background goroutine and the callers of
    UpdateDynamicConfig.  Here a goroutine is the sequence of its accesses
    to the mutex and to the two fields; everything else it does is local
    to it.  Goroutines take turns, one access at a time, in any order a
    [sync.RWMutex] admits. *)

Abbreviation DynamicConfig :=
  (option GasPriceEstimatorCommit * option PriceRegistryReader)%type
  (only parsing).

Inductive instr :=
| ILock | IUnlock | IRLock | IRUnlock
| IWriteEstimator (e : option GasPriceEstimatorCommit)
| IWriteReader (r : option PriceRegistryReader)
| IReadEstimator
| IReadReader.

(** runGasPriceUpdate: [RLock], then the reads of [p.gasPriceEstimator]
    (the nil check of the cycle, the nil check of the observation, the
    receivers of GetGasPrice and of DenoteInUSD; a path that returns early
    performs fewer of them), then the deferred [RUnlock]. *)
Definition runGasPriceUpdate_accesses (reads : nat) : list instr :=
  [IRLock] ++ replicate reads IReadEstimator ++ [IRUnlock].

(** runTokenPriceUpdate: the same with [p.destPriceRegistryReader] (the
    two nil checks, the argument of GetDestinationTokens, the receiver of
    GetTokensDecimals). *)
Definition runTokenPriceUpdate_accesses (reads : nat) : list instr :=
  [IRLock] ++ replicate reads IReadReader ++ [IRUnlock].

(** UpdateDynamicConfig: the two assignments under [Lock], then one gas
    cycle and one token cycle. *)
Definition UpdateDynamicConfig_accesses
    (e : option GasPriceEstimatorCommit) (r : option PriceRegistryReader)
    (gasReads tokenReads : nat) : list instr :=
  [ILock; IWriteEstimator e; IWriteReader r; IUnlock]
  ++ runGasPriceUpdate_accesses gasReads
  ++ runTokenPriceUpdate_accesses tokenReads.

(** What a goroutine calls: the ticker loop of [run] calls the two cycles,
    the commit plugin calls UpdateDynamicConfig. *)
Inductive invocation :=
| CallUpdateDynamicConfig (e : option GasPriceEstimatorCommit)
    (r : option PriceRegistryReader) (gasReads tokenReads : nat)
| CallRunGasPriceUpdate (reads : nat)
| CallRunTokenPriceUpdate (reads : nat).

Definition accesses (c : invocation) : list instr :=
  match c with
  | CallUpdateDynamicConfig e r gasReads tokenReads =>
      UpdateDynamicConfig_accesses e r gasReads tokenReads
  | CallRunGasPriceUpdate reads => runGasPriceUpdate_accesses reads
  | CallRunTokenPriceUpdate reads => runTokenPriceUpdate_accesses reads
  end.

Fixpoint goroutine (calls : list invocation) : list instr :=
  match calls with
  | [] => []
  | c :: rest => accesses c ++ goroutine rest
  end.

(** What a goroutine holds of the mutex. *)
Inductive Holds := NoLock | Shared | Exclusive.

#[global] Instance Holds_eq_dec : EqDecision Holds.
Proof. solve_decision. Defined.

(** A value read from one of the two fields. *)
Inductive observation :=
| SawEstimator (e : option GasPriceEstimatorCommit)
| SawReader (r : option PriceRegistryReader).

(** A goroutine: the accesses still to do, what it holds, and the values
    it has read since its last [RLock]. *)
Record thread := mkThread {
  todo : list instr;
  holds : Holds;
  seen : list observation
}.

(** The shared part of the service: the two fields and the state of
    [dynamicConfigMu]. *)
Record shared := mkShared {
  estimatorField : option GasPriceEstimatorCommit;
  readerField : option PriceRegistryReader;
  writerHeld : bool;
  readerCount : nat
}.

Definition config (m : shared) : DynamicConfig :=
  (estimatorField m, readerField m).

(** One access of a goroutine; [None] when the goroutine is blocked on the
    mutex (or unlocks a mutex it does not hold, a fatal error in Go). *)
Definition exec (ins : instr) (m : shared) (t : thread) (rest : list instr)
  : option (shared * thread) :=
  match ins with
  | ILock =>
      if writerHeld m || negb (readerCount m =? 0)%nat then None
      else Some (mkShared (estimatorField m) (readerField m) true (readerCount m),
                 mkThread rest Exclusive (seen t))
  | IUnlock =>
      match holds t with
      | Exclusive =>
          Some (mkShared (estimatorField m) (readerField m) false (readerCount m),
                mkThread rest NoLock (seen t))
      | _ => None
      end
  | IRLock =>
      if writerHeld m then None
      else Some (mkShared (estimatorField m) (readerField m) (writerHeld m)
                          (S (readerCount m)),
                 mkThread rest Shared [])
  | IRUnlock =>
      match holds t with
      | Shared =>
          Some (mkShared (estimatorField m) (readerField m) (writerHeld m)
                         (pred (readerCount m)),
                mkThread rest NoLock (seen t))
      | _ => None
      end
  | IWriteEstimator e =>
      Some (mkShared e (readerField m) (writerHeld m) (readerCount m),
            mkThread rest (holds t) (seen t))
  | IWriteReader r =>
      Some (mkShared (estimatorField m) r (writerHeld m) (readerCount m),
            mkThread rest (holds t) (seen t))
  | IReadEstimator =>
      Some (m, mkThread rest (holds t) (seen t ++ [SawEstimator (estimatorField m)]))
  | IReadReader =>
      Some (m, mkThread rest (holds t) (seen t ++ [SawReader (readerField m)]))
  end.

Record system := mkSystem {
  mem : shared;
  threads : list thread
}.

(** Goroutine [i] performs its next access. *)
Definition stepThread (i : nat) (s : system) : option system :=
  match threads s !! i with
  | Some t =>
      match todo t with
      | ins :: rest =>
          match exec ins (mem s) t rest with
          | Some (m', t') => Some (mkSystem m' (<[i := t']> (threads s)))
          | None => None
          end
      | [] => None
      end
  | None => None
  end.

(** A schedule names the goroutine that moves next, step by step. *)
Fixpoint runSchedule (schedule : list nat) (s : system) : option system :=
  match schedule with
  | [] => Some s
  | i :: rest =>
      match stepThread i s with
      | Some s' => runSchedule rest s'
      | None => None
      end
  end.

(** NewPriceService leaves both fields nil and the mutex free. *)
Definition initial (pool : list (list invocation)) : system :=
  mkSystem (mkShared None None false 0)
           ((fun calls => mkThread (goroutine calls) NoLock []) <$> pool).

(** The pairs that were ever installed as a whole: the initial pair and
    the pairs passed to a call of UpdateDynamicConfig. *)
Definition installed (pool : list (list invocation)) (c : DynamicConfig) : Prop :=
  c = (None, None)
  \/ exists calls gasReads tokenReads,
       calls ∈ pool
       /\ CallUpdateDynamicConfig c.1 c.2 gasReads tokenReads ∈ calls.

(** An observation that agrees with the pair [c]. *)
Definition agrees (c : DynamicConfig) (o : observation) : Prop :=
  match o with
  | SawEstimator e => e = c.1
  | SawReader r => r = c.2
  end.

(** *** The invariant of the lock protocol *)

Definition isRead (ins : instr) : Prop :=
  ins = IReadEstimator \/ ins = IReadReader.

Definition callsInstalled (pool : list (list invocation))
    (calls : list invocation) : Prop :=
  forall e r gasReads tokenReads,
    CallUpdateDynamicConfig e r gasReads tokenReads ∈ calls ->
    installed pool (e, r).

(** Where a goroutine stands, by what it holds: outside the mutex it is
    between two calls or between the parts of UpdateDynamicConfig; with
    the shared lock it is inside a cycle and has read the current pair
    only; with the exclusive lock it is at one of the three accesses of
    the swap. *)
Definition threadInv (pool : list (list invocation)) (c : DynamicConfig)
    (t : thread) : Prop :=
  (exists c', installed pool c' /\ Forall (agrees c') (seen t))
  /\ match holds t with
     | NoLock =>
         exists calls, todo t = goroutine calls /\ callsInstalled pool calls
     | Shared =>
         Forall (agrees c) (seen t)
         /\ exists reads calls,
              todo t = reads ++ IRUnlock :: goroutine calls
              /\ Forall isRead reads
              /\ callsInstalled pool calls
     | Exclusive =>
         exists calls,
           callsInstalled pool calls
           /\ ((exists e r,
                  todo t = IWriteEstimator e :: IWriteReader r :: IUnlock
                           :: goroutine calls
                  /\ installed pool (e, r))
               \/ (exists r,
                     todo t = IWriteReader r :: IUnlock :: goroutine calls
                     /\ installed pool (c.1, r))
               \/ (todo t = IUnlock :: goroutine calls /\ installed pool c))
     end.

Record systemInv (pool : list (list invocation)) (s : system) : Prop := {
  inv_count :
    readerCount (mem s)
    = length (filter (fun t => holds t = Shared) (threads s));
  inv_writer : writerHeld (mem s) = true -> readerCount (mem s) = 0%nat;
  inv_exclusive : forall i t,
    threads s !! i = Some t -> holds t = Exclusive -> writerHeld (mem s) = true;
  inv_unique : forall i j ti tj,
    threads s !! i = Some ti -> threads s !! j = Some tj ->
    holds ti = Exclusive -> holds tj = Exclusive -> i = j;
  inv_whole : writerHeld (mem s) = false -> installed pool (config (mem s));
  inv_threads : forall i t,
    threads s !! i = Some t -> threadInv pool (config (mem s)) t
}.

(** The lock operations among the effects of a call. *)
Definition isLockEvent (ev : Event) : bool :=
  match ev with
  | EvLock | EvUnlock | EvRLock | EvRUnlock => true
  | _ => false
  end.

(** ** A concrete lane

    The scenario of the specification: destination chain 10, source chain
    1, source native token 0xAAA; the price getter knows (0xAAA, 1) and
    (0xBBB, 10); 0xAAA is a destination fee token; 0xBBB has 6 decimals. *)

Definition exampleGetter : AllTokensPriceGetter :=
  {| GetTokenPricesUSD := fun _ =>
       inr {[ mkTokenID "0xAAA" 1 := Some (2 * 10 ^ 18) ]};
     GetJobSpecTokenPricesUSD :=
       inr (<[ mkTokenID "0xAAA" 1 := Some (2 * 10 ^ 18) ]>
              {[ mkTokenID "0xBBB" 10 := Some (1 * 10 ^ 18) ]}) |}.

Definition exampleEstimator : GasPriceEstimatorCommit :=
  {| GetGasPrice := inr (Some 5);
     DenoteInUSD := fun gas native =>
       inr (match native with Some n => Some (gas * n / 10 ^ 18) | None => None end) |}.

Definition exampleReader : PriceRegistryReader :=
  {| GetTokensDecimals := fun tokens =>
       inr ((fun a => if String.eqb a "0xBBB" then 6%N else 18%N) <$> tokens);
     GetFeeTokens := inr ["0xAAA"] |}.

(** A reader that answers with one decimals value too few. *)
Definition shortReader : PriceRegistryReader :=
  {| GetTokensDecimals := fun tokens => inr ((fun _ => 6%N) <$> tail tokens);
     GetFeeTokens := inr ["0xAAA"] |}.

Definition exampleOffRamp : OffRampReader :=
  {| GetTokens := inr ["0xBBB"; "0xAAA"] |}.

Definition exampleORM : ORM :=
  {| GetGasPricesByDestChain := fun _ =>
       inr [mkGasPrice 1 (Some 7); mkGasPrice 2 None];
     GetTokenPricesByDestChain := fun _ =>
       inr [mkTokenPrice "0xBBB" None; mkTokenPrice "0xAAA" (Some 3)];
     UpsertGasPricesForDestChain := fun _ _ => inr 1;
     UpsertTokenPricesForDestChain := fun _ _ _ => inr 1 |}.

(** An ORM whose gas-price fetch and whose writes fail. *)
Definition failingORM : ORM :=
  {| GetGasPricesByDestChain := fun _ => inl (ErrExternal "db down");
     GetTokenPricesByDestChain := fun _ => inr [mkTokenPrice "0xAAA" (Some 3)];
     UpsertGasPricesForDestChain := fun _ _ => inl (ErrExternal "db down");
     UpsertTokenPricesForDestChain := fun _ _ _ => inl (ErrExternal "db down") |}.

Definition exampleService (db : ORM)
    (estimator : option GasPriceEstimatorCommit)
    (reader : option PriceRegistryReader) : priceService :=
  {| gasUpdateInterval := 60000000000;
     tokenUpdateInterval := 600000000000;
     orm := db;
     jobId := 1;
     destChainSelector := 10;
     sourceChainSelector := 1;
     sourceNative := "0xAAA";
     priceGetter := exampleGetter;
     offRampReader := exampleOffRamp;
     gasPriceEstimator := estimator;
     destPriceRegistryReader := reader |}.

Definition noLock (trace : list Event) : Prop :=
  Forall (fun ev => isLockEvent ev = false) trace.

(** The mutex operations of a call, read off its effects, and read off
    its accesses. *)
Definition lockInstr (ev : Event) : option instr :=
  match ev with
  | EvLock => Some ILock
  | EvUnlock => Some IUnlock
  | EvRLock => Some IRLock
  | EvRUnlock => Some IRUnlock
  | _ => None
  end.

Definition mutexOpsOfTrace (trace : list Event) : list instr :=
  omap lockInstr trace.

Definition isFieldAccess (ins : instr) : bool :=
  match ins with
  | IWriteEstimator _ | IWriteReader _ | IReadEstimator | IReadReader => true
  | _ => false
  end.

Definition mutexOpsOfAccesses (prog : list instr) : list instr :=
  filter (fun ins => isFieldAccess ins = false) prog.

(** A second estimator and reader, to tell two configurations apart. *)
Definition otherEstimator : GasPriceEstimatorCommit :=
  {| GetGasPrice := inr None; DenoteInUSD := fun _ _ => inr None |}.

Definition otherReader : PriceRegistryReader :=
  {| GetTokensDecimals := fun _ => inr []; GetFeeTokens := inr [] |}.

(** Two reconfigurations and the ticker loop. *)
Definition examplePool : list (list invocation) :=
  [ [CallUpdateDynamicConfig (Some exampleEstimator) (Some exampleReader) 4 4];
    [CallRunGasPriceUpdate 4; CallRunTokenPriceUpdate 4];
    [CallUpdateDynamicConfig (Some otherEstimator) (Some otherReader) 4 4] ].

(** The ticker loop runs a gas cycle, the first reconfiguration follows,
    then the ticker loop and the reconfiguring goroutine are inside a
    cycle at the same time. *)
Definition exampleSchedule : list nat :=
  [1; 1; 1; 1; 1; 1; 0; 0; 0; 0; 1; 0; 1; 0]%nat.

Definition exampleState : system :=
  default (initial examplePool) (runSchedule exampleSchedule (initial examplePool)).

(** A lane whose estimator denominates to nil and whose price getter
    reports a nil price. *)
Definition nilEstimator : GasPriceEstimatorCommit :=
  {| GetGasPrice := inr (Some 5); DenoteInUSD := fun _ _ => inr None |}.

Definition nilGetter : AllTokensPriceGetter :=
  {| GetTokenPricesUSD := fun _ => inr {[ mkTokenID "0xAAA" 1 := Some 7 ]};
     GetJobSpecTokenPricesUSD := inr {[ mkTokenID "0xBBB" 10 := None ]} |}.

Definition nilService : priceService :=
  {| gasUpdateInterval := 60000000000;
     tokenUpdateInterval := 600000000000;
     orm := exampleORM;
     jobId := 1;
     destChainSelector := 10;
     sourceChainSelector := 1;
     sourceNative := "0xAAA";
     priceGetter := nilGetter;
     offRampReader := exampleOffRamp;
     gasPriceEstimator := Some nilEstimator;
     destPriceRegistryReader := Some exampleReader |}.

(** The ticker loop in [exampleState]: inside its token cycle, after the
    first read of the reader. *)
Definition exampleTicker : thread :=
  mkThread (replicate 3 IReadReader ++ [IRUnlock]) Shared
           [SawReader (Some exampleReader)].

Definition configuredService : priceService :=
  exampleService exampleORM (Some exampleEstimator) (Some exampleReader).

(** The prices the token observation of [configuredService] returns. *)
Definition examplePrices : gmap Address (option Z) :=
  match (observeTokenPriceUpdates configuredService).1 with
  | Ok prices => prices
  | _ => ∅
  end.

(** ** The rest of the service *)

(** [time.Minute], in nanoseconds. *)
Definition time_Minute : Z := 60000000000.

Definition gasPriceUpdateInterval : Z := 1 * time_Minute.
Definition tokenPriceUpdateInterval : Z := 10 * time_Minute.

(** NewPriceService: the dynamic configuration starts unset. *)
Definition NewPriceService (orm : ORM) (jobId : Z)
    (destChainSelector sourceChainSelector : uint64) (sourceNative : Address)
    (priceGetter : AllTokensPriceGetter) (offRampReader : OffRampReader)
  : priceService :=
  {| gasUpdateInterval := gasPriceUpdateInterval;
     tokenUpdateInterval := tokenPriceUpdateInterval;
     orm := orm;
     jobId := jobId;
     destChainSelector := destChainSelector;
     sourceChainSelector := sourceChainSelector;
     sourceNative := sourceNative;
     priceGetter := priceGetter;
     offRampReader := offRampReader;
     gasPriceEstimator := None;
     destPriceRegistryReader := None |}.

(** What the [select] of the background goroutine of [run] picks, turn by
    turn.  A tick carries the pair the two fields hold when its cycle
    takes the shared lock; the pair does not change while the cycle
    runs. *)
Inductive selected :=
| CtxDone
| GasTick (estimator : option GasPriceEstimatorCommit)
          (reader : option PriceRegistryReader)
| TokenTick (estimator : option GasPriceEstimatorCommit)
            (reader : option PriceRegistryReader).

(** The goroutine of [run]: the [for]/[select] loop, for the cases the
    select picks.  At the end of the list the goroutine waits in the
    select. *)
Fixpoint runLoop (p : priceService) (fired : list selected) : M unit :=
  match fired with
  | [] => ret tt
  | CtxDone :: _ => ret tt
  | GasTick estimator reader :: rest =>
      logAndDrop "Error when updating gas prices in the background"
                 (runGasPriceUpdate (setDynamicConfig p estimator reader)) ;;;
      runLoop p rest
  | TokenTick estimator reader :: rest =>
      logAndDrop "Error when updating token prices in the background"
                 (runTokenPriceUpdate (setDynamicConfig p estimator reader)) ;;;
      runLoop p rest
  end.

(** An effect that touches neither a collaborator nor the database: a
    mutex operation or a log line. *)
Definition quiet (ev : Event) : Prop :=
  isLockEvent ev = true \/ exists lvl msg, ev = EvLog lvl msg.

(** A freshly built lane, before any UpdateDynamicConfig. *)
Definition freshService : priceService :=
  NewPriceService exampleORM 1 10 1 "0xAAA" exampleGetter exampleOffRamp.

(** A lane whose database refuses the writes. *)
Definition failingWrites : priceService :=
  exampleService failingORM (Some exampleEstimator) (Some exampleReader).

(** A lane whose job spec lists no token. *)
Definition emptyGetter : AllTokensPriceGetter :=
  {| GetTokenPricesUSD := fun _ => inr ∅;
     GetJobSpecTokenPricesUSD := inr ∅ |}.

Definition emptySpecService : priceService :=
  {| gasUpdateInterval := gasPriceUpdateInterval;
     tokenUpdateInterval := tokenPriceUpdateInterval;
     orm := exampleORM;
     jobId := 1;
     destChainSelector := 10;
     sourceChainSelector := 1;
     sourceNative := "0xAAA";
     priceGetter := emptyGetter;
     offRampReader := exampleOffRamp;
     gasPriceEstimator := Some exampleEstimator;
     destPriceRegistryReader := Some exampleReader |}.

(** The database writes among the effects. *)
Definition writes (trace : list Event) : list Event :=
  filter (fun ev => isUpsert ev = true) trace.

(** A database that holds three rows for source chain 1. *)
Definition duplicateORM : ORM :=
  {| GetGasPricesByDestChain := fun _ =>
       inr [mkGasPrice 1 (Some 7); mkGasPrice 1 (Some 9); mkGasPrice 1 None];
     GetTokenPricesByDestChain := fun _ => inr [];
     UpsertGasPricesForDestChain := fun _ _ => inr 1;
     UpsertTokenPricesForDestChain := fun _ _ _ => inr 1 |}.

(** ** package crib: the Docker image helpers

    Go strings are byte strings, indexed and sliced by byte; [string] is
    the list of their bytes. *)

(** The errors of the helpers: each [fmt.Errorf] with the values it
    formats. *)
Inductive cribError :=
| ErrNoExplicitTag (image : string)
| ErrDockerContext (nodeIdx : nat) (nodeSet : string)
| ErrDockerFile (nodeIdx : nat) (nodeSet : string)
| ErrDifferentImages (nodeSet : string) (count : nat) (images : list string)
| ErrNilInput (what : string)                    (* errors.New("... is nil") *)
| ErrWrapped (cause : cribError) (msg : string)  (* errors.Wrap(cause, msg) *)
| ErrCollaborator (msg : string).                (* reported by a collaborator *)

(** [strings.LastIndex(s, substr)]: the index of the last occurrence of
    [substr] in [s], or -1.  [pos] is the index of the head of [s],
    [found] the last occurrence before it. *)
Fixpoint lastIndexFrom (pos : Z) (s substr : string) (found : Z) : Z :=
  let found' := if String.prefix substr s then pos else found in
  match s with
  | EmptyString => found'
  | String _ rest => lastIndexFrom (pos + 1) rest substr found'
  end.

Definition strings_LastIndex (s substr : string) : Z :=
  lastIndexFrom 0 s substr (-1).

(** [s[lo:hi]], for [0 <= lo <= hi <= len(s)]. *)
Definition slice (s : string) (lo hi : Z) : string :=
  String.substring (Z.to_nat lo) (Z.to_nat (hi - lo)) s.

Definition len (s : string) : Z := Z.of_nat (String.length s).

(** dockerImageName *)
Definition dockerImageName (image : string) : cribError + string :=
  let imgTagIndex := strings_LastIndex image ":" in
  if imgTagIndex =? -1 then inl (ErrNoExplicitTag image)
  else inr (slice image 0 imgTagIndex).

(** dockerImageTag *)
Definition dockerImageTag (image : string) : cribError + string :=
  let imgTagIndex := strings_LastIndex image ":" in
  if imgTagIndex =? -1 then inl (ErrNoExplicitTag image)
  else inr (slice image (imgTagIndex + 1) (len image)).

(** The fields of a node spec that nodesetDockerImage reads. *)
Record NodeInput := mkNodeInput {
  Image : string;
  DockerContext : string;
  DockerFilePath : string
}.

Record NodeSpec := mkNodeSpec { Node : NodeInput }.

Record CapabilitiesAwareNodeSet := mkNodeSet {
  Name : string;
  NodeSpecs : list NodeSpec
}.

(** The loop of nodesetDockerImage; [nodeIdx] is the index of the head of
    [specs]. *)
Fixpoint collectDockerImages (name : string) (nodeIdx : nat) (specs : list NodeSpec)
    (dockerImages : list string) : cribError + list string :=
  match specs with
  | [] => inr dockerImages
  | nodeSpec :: rest =>
      if negb (String.eqb (DockerContext (Node nodeSpec)) "") then
        inl (ErrDockerContext nodeIdx name)
      else if negb (String.eqb (DockerFilePath (Node nodeSpec)) "") then
        inl (ErrDockerFile nodeIdx name)
      else if slices_Contains dockerImages (Image (Node nodeSpec)) then
        collectDockerImages name (S nodeIdx) rest dockerImages
      else
        collectDockerImages name (S nodeIdx) rest
                            (dockerImages ++ [Image (Node nodeSpec)])
  end.

(** nodesetDockerImage *)
Definition nodesetDockerImage (nodeSet : CapabilitiesAwareNodeSet)
  : cribError + string :=
  match collectDockerImages (Name nodeSet) 0 (NodeSpecs nodeSet) [] with
  | inl e => inl e
  | inr dockerImages =>
      match dockerImages with
      | [image] => inr image
      | _ => inl (ErrDifferentImages (Name nodeSet) (length dockerImages) dockerImages)
      end
  end.

(** The byte of [":"]. *)
Definition colon : Ascii.ascii := Ascii.ascii_of_nat 58.

(** A byte occurs in a string. *)
Fixpoint hasByte (c : Ascii.ascii) (s : string) : bool :=
  match s with
  | EmptyString => false
  | String a rest => Ascii.eqb a c || hasByte c rest
  end.

(** A node that is configured by image alone. *)
Definition plainNode (spec : NodeSpec) : Prop :=
  DockerContext (Node spec) = "" /\ DockerFilePath (Node spec) = "".

(** ** package crib: StartNixShell and DeployJd

    The Nix shell, the file system and the input validation are
    collaborators; [Shell] and [JdOutput] are the values they hand
    back. *)

Section crib.
Context {Shell JdOutput : Type}.

(** [input.InfraInput.CRIB], with its [TeamInput]. *)
Record CribInput := mkCribInput {
  Provider : string;
  Namespace : string;
  FolderLocation : string;
  Team : string;
  Product : string;
  CostCenter : string;
  Component : string
}.

(** types.StartNixShellInput; [Validate] holds what [input.Validate()]
    returns. *)
Record StartNixShellInput := mkStartNixShellInput {
  CRIB : CribInput;
  ExtraEnvVars : gmap string string;
  CribConfigsDir : string;
  PurgeNamespace : bool;
  Validate : option cribError
}.

(** types.DeployCribJdInput *)
Record DeployCribJdInput := mkDeployCribJdInput {
  JDImage : string;
  JdNixShell : Shell;
  JdCribConfigsDir : string;
  JdValidate : option cribError
}.

Record CribWorld := mkCribWorld {
  (* filepath.Join(".", dir) *)
  filepath_Join_dot : string -> string;
  filepath_Abs : string -> cribError + string;
  (* strings.EqualFold(provider, libtypes.AWS) *)
  EqualFold_AWS : string -> bool;
  nix_NewNixShell : string -> gmap string string -> cribError + Shell;
  RunCommand : Shell -> string -> cribError + string;
  RunCommandWithEnvVars : Shell -> string -> gmap string string -> cribError + string;
  infra_ReadJdURL : string -> cribError + JdOutput
}.

Inductive CribEvent :=
| EvNewNixShell (folder : string) (env : gmap string string)
| EvRunCommand (cmd : string)
| EvRunCommandWithEnvVars (cmd : string) (env : gmap string string)
| EvReadJdURL (dir : string).

(** The map StartNixShell builds before it knows the absolute path of the
    configuration directory. *)
Definition globalEnvVars (w : CribWorld) (input : StartNixShellInput)
  : gmap string string :=
  let literal :=
    <["DEVSPACE_NAMESPACE" := Namespace (CRIB input)]>
      (<["PROVIDER" := Provider (CRIB input)]> ∅) in
  let withExtra :=
    map_fold (fun key value m => <[key := value]> m) literal (ExtraEnvVars input) in
  if EqualFold_AWS w (Provider (CRIB input)) then
    <["CHAINLINK_COMPONENT" := Component (CRIB input)]>
      (<["CHAINLINK_COST_CENTER" := CostCenter (CRIB input)]>
         (<["CHAINLINK_PRODUCT" := Product (CRIB input)]>
            (<["CHAINLINK_TEAM" := Team (CRIB input)]> withExtra)))
  else withExtra.

(** StartNixShell *)
Definition StartNixShell (w : CribWorld) (input : option StartNixShellInput)
  : (cribError + Shell) * list CribEvent :=
  match input with
  | None => (inl (ErrNilInput "StartNixShellInput is nil"), [])
  | Some input =>
      match Validate input with
      | Some valErr => (inl (ErrWrapped valErr "input validation failed"), [])
      | None =>
          let env := globalEnvVars w input in
          match filepath_Abs w (filepath_Join_dot w (CribConfigsDir input)) with
          | inl absErr =>
              (inl (ErrWrapped absErr
                      (String.append "failed to get absolute path to crib configs dir "
                                     (CribConfigsDir input))),
               [])
          | inr cribConfigDirAbs =>
              let env := <["CONFIG_OVERRIDES_DIR" := cribConfigDirAbs]> env in
              let created := EvNewNixShell (FolderLocation (CRIB input)) env in
              match nix_NewNixShell w (FolderLocation (CRIB input)) env with
              | inl err => (inl (ErrWrapped err "failed to create Nix shell"), [created])
              | inr nixShell =>
                  if PurgeNamespace input then
                    match RunCommand w nixShell "devspace purge --no-warn" with
                    | inl err =>
                        (inl (ErrWrapped err "failed to run devspace purge"),
                         [created; EvRunCommand "devspace purge --no-warn"])
                    | inr _ =>
                        (inr nixShell,
                         [created; EvRunCommand "devspace purge --no-warn"])
                    end
                  else (inr nixShell, [created])
              end
          end
      end
  end.

(** DeployJd *)
Definition DeployJd (w : CribWorld) (input : option DeployCribJdInput)
  : (cribError + JdOutput) * list CribEvent :=
  match input with
  | None => (inl (ErrNilInput "DeployCribJdInput is nil"), [])
  | Some input =>
      match JdValidate input with
      | Some valErr => (inl (ErrWrapped valErr "input validation failed"), [])
      | None =>
          match dockerImageTag (JDImage input) with
          | inl err => (inl (ErrWrapped err "failed to get image tag"), [])
          | inr imgTagIndex =>
              let jdEnvVars : gmap string string :=
                {[ "JOB_DISTRIBUTOR_IMAGE_TAG" := imgTagIndex ]} in
              let deploy :=
                EvRunCommandWithEnvVars "devspace run deploy-jd --no-warn" jdEnvVars in
              match RunCommandWithEnvVars w (JdNixShell input)
                      "devspace run deploy-jd --no-warn" jdEnvVars with
              | inl err =>
                  (inl (ErrWrapped err "failed to run devspace run deploy-jd"), [deploy])
              | inr _ =>
                  let dir := filepath_Join_dot w (JdCribConfigsDir input) in
                  match infra_ReadJdURL w dir with
                  | inl err =>
                      (inl (ErrWrapped err "failed to read JD URL from file"),
                       [deploy; EvReadJdURL dir])
                  | inr jdOut => (inr jdOut, [deploy; EvReadJdURL dir])
                  end
              end
          end
      end
  end.

End crib.

Arguments CribWorld : clear implicits.
Arguments DeployCribJdInput : clear implicits.

(** A world for the examples: paths resolve under [/work], the shell is
    created, its commands succeed, and the JD URL file holds [jd:9090]. *)
Definition exampleCribWorld : CribWorld unit string := {|
  filepath_Join_dot := fun dir => dir;
  filepath_Abs := fun path => inr (String.append "/work/" path);
  EqualFold_AWS := fun provider => String.eqb provider "aws";
  nix_NewNixShell := fun _ _ => inr tt;
  RunCommand := fun _ _ => inr "";
  RunCommandWithEnvVars := fun _ _ _ => inr "";
  infra_ReadJdURL := fun _ => inr "jd:9090"
|}.

Definition exampleNixInput : StartNixShellInput := {|
  CRIB := {| Provider := "aws"; Namespace := "crib-local"; FolderLocation := "crib";
             Team := "cre"; Product := "workflows"; CostCenter := "cc";
             Component := "don" |};
  ExtraEnvVars := {[ "CHAINLINK_TEAM" := "other" ]};
  CribConfigsDir := "configs";
  PurgeNamespace := true;
  Validate := None
|}.

Definition exampleJdInput : DeployCribJdInput unit := {|
  JDImage := "registry:5000/job-distributor:0.9.0";
  JdNixShell := tt;
  JdCribConfigsDir := "configs";
  JdValidate := None
|}.

(** * Properties *)

(** ** The unit converter *)

Lemma big_Exp_10 (d : N) : big_Exp 10 (Z.of_N d) = 10 ^ Z.of_N d.
Proof.
  unfold big_Exp. destruct (Z.leb_spec (Z.of_N d) 0) as [Hle|]; [|done].
  assert (Z.of_N d = 0) as -> by lia. done.
Qed.

Lemma big_Div_pos (x y : Z) : 0 < y -> big_Div x y = x / y.
Proof.
  intros Hy. unfold big_Div.
  rewrite Z.sgn_pos, Z.abs_eq by lia. lia.
Qed.

Lemma calculateUsdPer1e18TokenAmount_div (price : Z) (decimals : N) :
  calculateUsdPer1e18TokenAmount price decimals
  = (price * 10 ^ 18) / 10 ^ Z.of_N decimals.
Proof.
  unfold calculateUsdPer1e18TokenAmount, big_Mul.
  rewrite big_Exp_10, big_Div_pos by (apply Z.pow_pos_nonneg; lia).
  done.
Qed.

(** C2: for a non-negative price and decimals in [0,18] the unit converter
    returns (price * 10^18) / 10^decimals, the quotient of exact integer
    division: it is the floor quotient, it is also the truncated quotient,
    and it is the one integer [r] with
    [r * 10^decimals <= price * 10^18 < (r + 1) * 10^decimals];
    for price 1 * 10^18 and 6 decimals the result is 1 * 10^30. *)
Theorem unit_converter_exact (price : Z) (decimals : N) :
  0 <= price -> (decimals <= 18)%N ->
  let r := calculateUsdPer1e18TokenAmount price decimals in
  r = (price * 10 ^ 18) / 10 ^ Z.of_N decimals
  /\ r = (price * 10 ^ 18) ÷ 10 ^ Z.of_N decimals
  /\ r * 10 ^ Z.of_N decimals <= price * 10 ^ 18 < (r + 1) * 10 ^ Z.of_N decimals
  /\ calculateUsdPer1e18TokenAmount (1 * 10 ^ 18) 6 = 1 * 10 ^ 30.
Proof.
  intros Hprice Hdec r. subst r.
  rewrite calculateUsdPer1e18TokenAmount_div.
  assert (0 < 10 ^ Z.of_N decimals) as Hpos by (apply Z.pow_pos_nonneg; lia).
  split; [done|]. split.
  { symmetry. apply Z.quot_div_nonneg; lia. }
  split.
  { pose proof (Z.mul_div_le (price * 10 ^ 18) _ Hpos).
    pose proof (Z.mul_succ_div_gt (price * 10 ^ 18) _ Hpos). lia. }
  rewrite calculateUsdPer1e18TokenAmount_div. reflexivity.
Qed.

Lemma unit_converter_exact_witness :
  calculateUsdPer1e18TokenAmount (3 * 10 ^ 18) 8 = 3 * 10 ^ 28.
Proof.
  destruct (unit_converter_exact (3 * 10 ^ 18) 8) as [-> _]; [lia | lia |].
  reflexivity.
Defined.

(** ** The read API *)

Section collectRows.
Context {R K : Type} `{Countable K}.
Variables (key : R -> K) (price : R -> option Z).

Let step (m : gmap K (option Z)) (row : R) : gmap K (option Z) :=
  match price row with
  | Some w => <[key row := ToInt w]> m
  | None => m
  end.

Lemma collect_step_lookup m row k :
  step m row !! k
  = match price row with
    | Some w => if decide (key row = k) then Some (Some w) else m !! k
    | None => m !! k
    end.
Proof.
  unfold step, ToInt. destruct (price row) as [w|]; [|done].
  destruct (decide (key row = k)) as [->|Hne].
  - by rewrite lookup_insert_eq.
  - by rewrite lookup_insert_ne.
Qed.

(** Folding the loop body over [rows], from any map [m]. *)
Lemma collect_fold_lookup rows m k v :
  foldl step m rows !! k = Some v ->
  m !! k = Some v \/
  exists row w, row ∈ rows /\ key row = k /\ price row = Some w /\ v = Some w.
Proof.
  revert m. induction rows as [|row rows IH]; intros m; simpl; [by left|].
  intros Hl. destruct (IH _ Hl) as [Hm|(row' & w & Hin & Hk & Hp & Hv)].
  - rewrite collect_step_lookup in Hm.
    destruct (price row) as [w|] eqn:Hp; [|by left].
    destruct (decide (key row = k)) as [Hk|]; [|by left].
    right. exists row, w. repeat split; try done; [apply elem_of_cons; by left | congruence].
  - right. exists row', w. repeat split; try done. apply elem_of_cons; by right.
Qed.

Lemma collect_fold_is_Some rows m k :
  is_Some (foldl step m rows !! k) <->
  is_Some (m !! k) \/
  exists row, row ∈ rows /\ key row = k /\ is_Some (price row).
Proof.
  revert m. induction rows as [|row rows IH]; intros m; simpl.
  - split; [by left|]. intros [?|(row & Hin & _)]; [done|]. by apply elem_of_nil in Hin.
  - rewrite IH, collect_step_lookup. split.
    + intros [Hs|(row' & Hin & Hk & Hp)].
      * destruct (price row) as [w|] eqn:Hp; [|by left].
        destruct (decide (key row = k)) as [Hk|]; [|by left].
        right. exists row. rewrite Hp. repeat split; eauto. apply elem_of_cons; by left.
      * right. exists row'. repeat split; try done. apply elem_of_cons; by right.
    + intros [Hs|(row' & Hin & Hk & Hp)].
      * left. destruct (price row); [|done]. by destruct (decide _).
      * apply elem_of_cons in Hin as [->|Hin].
        -- left. destruct Hp as [w ->]. rewrite decide_True by done. eauto.
        -- right. eauto.
Qed.

Lemma collect_fold_filter rows m :
  foldl step m rows
  = foldl step m (filter (fun row => is_Some (price row)) rows).
Proof.
  revert m. induction rows as [|row rows IH]; intros m; [done|].
  rewrite filter_cons. destruct (decide (is_Some (price row))) as [Hs|Hn]; simpl.
  - apply IH.
  - rewrite <- IH. f_equal. unfold step.
    destruct (price row); [|done]. exfalso. apply Hn. eauto.
Qed.

Lemma collectRows_no_nil rows k : collectRows key price rows !! k <> Some None.
Proof.
  intros Hl. apply collect_fold_lookup in Hl as [Hl|(? & ? & _ & _ & _ & ?)]; [|done].
  by rewrite lookup_empty in Hl.
Qed.

Lemma collectRows_is_Some rows k :
  is_Some (collectRows key price rows !! k) <->
  exists row, row ∈ rows /\ key row = k /\ is_Some (price row).
Proof.
  split.
  - intros Hs. apply (collect_fold_is_Some rows ∅ k) in Hs as [Hs|?]; [|done].
    rewrite lookup_empty in Hs. by destruct Hs.
  - intros Hr. apply (collect_fold_is_Some rows ∅ k). by right.
Qed.

Lemma collectRows_value rows k v :
  collectRows key price rows !! k = Some v ->
  exists row w, row ∈ rows /\ key row = k /\ price row = Some w /\ v = Some w.
Proof.
  intros Hl. apply collect_fold_lookup in Hl as [Hl|?]; [|done].
  by rewrite lookup_empty in Hl.
Qed.

Lemma collectRows_filter rows :
  collectRows key price rows
  = collectRows key price (filter (fun row => is_Some (price row)) rows).
Proof. apply collect_fold_filter. Qed.
End collectRows.

(** C5: for every destination chain selector and every completion order
    of the two fetches, if the gas-price row fetch or the token-price row
    fetch returns an error, GetGasAndTokenPrices returns an error and both
    maps nil; in no case is exactly one of the two maps returned. *)
Theorem GetGasAndTokenPrices_fail_fast (p : priceService) (dest : uint64)
    (gasFirst : bool) :
  let r := (GetGasAndTokenPrices p dest gasFirst).1 in
  ((exists e, GetGasPricesByDestChain (orm p) dest = inl e) \/
   (exists e, GetTokenPricesByDestChain (orm p) dest = inl e) ->
   is_Some (err r) /\ gasPrices r = None /\ tokenPrices r = None)
  /\ (gasPrices r = None <-> tokenPrices r = None).
Proof.
  unfold GetGasAndTokenPrices; simpl.
  destruct (GetGasPricesByDestChain (orm p) dest) as [e1|gasRows],
           (GetTokenPricesByDestChain (orm p) dest) as [e2|tokenRows]; simpl;
    (split; [intros [[e He]|[e He]]; try discriminate; eauto | done]).
Qed.

(** C10: when both fetches succeed, GetGasAndTokenPrices returns no error
    and two maps without any nil value; a row whose stored price is nil
    leaves no entry (the maps are those built from the rows with a non-nil
    price alone), the keys are exactly the keys of rows with a non-nil
    price, and every value is the price of such a row. *)
Theorem GetGasAndTokenPrices_skips_nil (p : priceService) (dest : uint64)
    (gasFirst : bool) (gasRows : list GasPrice) (tokenRows : list TokenPrice) :
  GetGasPricesByDestChain (orm p) dest = inr gasRows ->
  GetTokenPricesByDestChain (orm p) dest = inr tokenRows ->
  exists g t,
    (GetGasAndTokenPrices p dest gasFirst).1 = mkPrices (Some g) (Some t) None
    /\ (forall k, g !! k <> Some None)
    /\ (forall k, t !! k <> Some None)
    /\ g = collectGasPrices (filter (fun row => is_Some (GasPrice_ row)) gasRows)
    /\ t = collectTokenPrices (filter (fun row => is_Some (TokenPrice_ row)) tokenRows)
    /\ (forall k, is_Some (g !! k) <->
          exists row, row ∈ gasRows /\ SourceChainSelector row = k
                      /\ is_Some (GasPrice_ row))
    /\ (forall k, is_Some (t !! k) <->
          exists row, row ∈ tokenRows /\ TokenAddr row = k
                      /\ is_Some (TokenPrice_ row))
    /\ (forall k v, g !! k = Some v ->
          exists row, row ∈ gasRows /\ SourceChainSelector row = k
                      /\ is_Some v /\ GasPrice_ row = v)
    /\ (forall k v, t !! k = Some v ->
          exists row, row ∈ tokenRows /\ TokenAddr row = k
                      /\ is_Some v /\ TokenPrice_ row = v).
Proof.
  intros Hgas Htoken.
  exists (collectGasPrices gasRows), (collectTokenPrices tokenRows).
  unfold GetGasAndTokenPrices. rewrite Hgas, Htoken. simpl.
  split; [done|].
  split; [apply collectRows_no_nil|].
  split; [apply collectRows_no_nil|].
  split; [apply collectRows_filter|].
  split; [apply collectRows_filter|].
  split; [apply collectRows_is_Some|].
  split; [apply collectRows_is_Some|].
  split; intros k v Hl;
    apply collectRows_value in Hl as (row & w & Hin & Hk & Hp & ->);
    exists row; rewrite Hp; eauto.
Qed.

Lemma GetGasAndTokenPrices_fail_fast_witness :
  let r := (GetGasAndTokenPrices (exampleService failingORM None None) 10 true).1 in
  is_Some (err r) /\ gasPrices r = None /\ tokenPrices r = None.
Proof.
  apply (GetGasAndTokenPrices_fail_fast (exampleService failingORM None None) 10 true).
  left. eexists. reflexivity.
Defined.

Lemma GetGasAndTokenPrices_skips_nil_witness :
  exists g t,
    (GetGasAndTokenPrices (exampleService exampleORM None None) 10 true).1
    = mkPrices (Some g) (Some t) None
    /\ g !! 2%N = None /\ t !! "0xBBB" = None.
Proof.
  destruct (GetGasAndTokenPrices_skips_nil (exampleService exampleORM None None)
              10 true _ _ eq_refl eq_refl)
    as (g & t & Hr & _ & _ & -> & -> & _).
  eexists _, _. split; [exact Hr|]. split; reflexivity.
Defined.

(** ** sort.Slice *)

Section sort_Slice.
Context {A : Type} (less : A -> A -> bool).

Lemma insert_by_perm x l : insert_by less x l ≡ₚ x :: l.
Proof.
  induction l as [|y l IH]; simpl; [done|].
  destruct (less x y); [done|]. rewrite IH. apply Permutation_swap.
Qed.

Lemma sort_Slice_perm l : sort_Slice less l ≡ₚ l.
Proof.
  induction l as [|x l IH]; simpl; [done|].
  unfold sort_Slice in *. simpl. by rewrite insert_by_perm, IH.
Qed.

Lemma sort_Slice_elem_of x l : x ∈ sort_Slice less l <-> x ∈ l.
Proof. by rewrite sort_Slice_perm. Qed.

Lemma sort_Slice_length l : length (sort_Slice less l) = length l.
Proof. by rewrite sort_Slice_perm. Qed.

Lemma sort_Slice_NoDup l : NoDup l -> NoDup (sort_Slice less l).
Proof. by rewrite sort_Slice_perm. Qed.

Hypothesis less_asym : forall x y, less x y = true -> less y x = false.
Hypothesis less_total : forall x y, less x y = false -> less y x = false -> x = y.
Hypothesis less_trans : forall x y z,
  less x y = true -> less y z = true -> less x z = true.

Let lt (a b : A) : Prop := less a b = true.

Lemma insert_by_strict x l :
  x ∉ l -> StronglySorted lt l -> StronglySorted lt (insert_by less x l).
Proof.
  intros Hx Hl. induction Hl as [|y l Hl IH Hy]; simpl.
  { repeat constructor. }
  apply not_elem_of_cons in Hx as [Hxy Hx].
  destruct (less x y) eqn:Hlt.
  - constructor; [by constructor|].
    constructor; [done|].
    eapply Forall_impl; [exact Hy|]. intros z Hz. by eapply less_trans.
  - constructor; [by apply IH|].
    rewrite insert_by_perm. constructor; [|done].
    destruct (less y x) eqn:Hyx; [done|].
    destruct Hxy. by apply less_total.
Qed.

Lemma sort_Slice_strict l : NoDup l -> StronglySorted lt (sort_Slice less l).
Proof.
  induction 1 as [|x l Hx Hl IH]; [constructor|].
  unfold sort_Slice in *; simpl. apply insert_by_strict; [|done].
  by rewrite (sort_Slice_elem_of x l).
Qed.

(** Whatever algorithm sort.Slice runs, on distinct elements there is
    one sorted result. *)
Lemma sorted_perm_unique l l' :
  NoDup l -> l' ≡ₚ l -> StronglySorted lt l' -> l' = sort_Slice less l.
Proof.
  intros Hl Hp Hs.
  apply (StronglySorted_unique_strong lt); [|done|by apply sort_Slice_strict|].
  - intros x y _ _ Hxy Hyx. unfold lt in *.
    apply less_asym in Hxy. congruence.
  - by rewrite sort_Slice_perm.
Qed.
End sort_Slice.

Lemma string_compare_OT (a b : string) :
  String.compare a b = String_as_OT.compare a b.
Proof.
  revert b. induction a as [|c a IH]; intros [|d b]; simpl; by rewrite ?IH.
Qed.

Lemma string_ltb_lt (a b : string) :
  String.ltb a b = true <-> String_as_OT.lt a b.
Proof.
  unfold String.ltb, String_as_OT.lt. rewrite string_compare_OT.
  destruct (String_as_OT.compare a b); split; congruence.
Qed.

Lemma string_ltb_asym (a b : string) :
  String.ltb a b = true -> String.ltb b a = false.
Proof.
  unfold String.ltb. rewrite (String.compare_antisym b a).
  by destruct (String.compare a b).
Qed.

Lemma string_ltb_total (a b : string) :
  String.ltb a b = false -> String.ltb b a = false -> a = b.
Proof.
  unfold String.ltb. rewrite (String.compare_antisym b a).
  destruct (String.compare a b) eqn:Hc; simpl; try done.
  intros _ _. by apply String.compare_eq_iff.
Qed.

Lemma string_ltb_trans (a b c : string) :
  String.ltb a b = true -> String.ltb b c = true -> String.ltb a c = true.
Proof.
  rewrite !string_ltb_lt. apply String_as_OT.lt_strorder.
Qed.

Lemma sort_strings_ascending (l : list Address) :
  NoDup l -> ascending (sort_Slice String.ltb l).
Proof.
  apply sort_Slice_strict;
    eauto using string_ltb_asym, string_ltb_total, string_ltb_trans.
Qed.

Lemma FlattenedAndSortedTokens_elem_of (fee bridged : list Address) (a : Address) :
  a ∈ FlattenedAndSortedTokens fee bridged <-> a ∈ fee \/ a ∈ bridged.
Proof.
  unfold FlattenedAndSortedTokens.
  by rewrite sort_Slice_elem_of, elem_of_remove_dups, elem_of_app.
Qed.

Lemma FlattenedAndSortedTokens_NoDup (fee bridged : list Address) :
  NoDup (FlattenedAndSortedTokens fee bridged).
Proof. apply sort_Slice_NoDup, NoDup_remove_dups. Qed.

(** ** The backward-compatibility resolver *)

Lemma bind_fst {A B} (m : M A) (k : A -> M B) :
  (bind m k).1
  = match m.1 with
    | Ok a => (k a).1
    | Err e => Err e
    | Panic => Panic
    end.
Proof. destruct m as [[a|e|] t]; simpl; [|done..]. by destruct (k a). Qed.

Lemma bind_snd {A B} (m : M A) (k : A -> M B) :
  (bind m k).2
  = match m.1 with
    | Ok a => m.2 ++ (k a).2
    | _ => m.2
    end.
Proof. destruct m as [[a|e|] t]; simpl; [|done..]. by destruct (k a). Qed.

Lemma slices_Contains_true (l : list Address) (a : Address) :
  slices_Contains l a = true <-> a ∈ l.
Proof. unfold slices_Contains. by rewrite bool_decide_eq_true. Qed.

(** The result of findMissingDestNativeTokenPrice, case by case. *)
Lemma findMissingDestNativeTokenPrice_outcome (p : priceService)
    (reader : PriceRegistryReader) (tokenPrices : gmap TokenID (option Z)) :
  (findMissingDestNativeTokenPrice p reader tokenPrices).1
  = match tokenPrices !! destNativeTokenID p with
    | Some _ => Ok None
    | None =>
        match GetDestinationTokens (offRampReader p) reader with
        | inl e => Err (ErrWrap "get destination tokens" e)
        | inr (fee, bridged) =>
            if slices_Contains (FlattenedAndSortedTokens fee bridged) (sourceNative p)
            then match tokenPrices !! sourceNativeTokenID p with
                 | Some (Some sourcePrice) => Ok (Some sourcePrice)
                 | _ => Ok None
                 end
            else Ok None
        end
    end.
Proof.
  unfold findMissingDestNativeTokenPrice.
  destruct (tokenPrices !! destNativeTokenID p); [done|].
  destruct (GetDestinationTokens (offRampReader p) reader) as [e|[fee bridged]];
    [done|].
  rewrite bind_fst. simpl.
  destruct (slices_Contains _ _); simpl; [|done].
  by destruct (tokenPrices !! sourceNativeTokenID p) as [[?|]|].
Qed.

(** C1: the resolver yields a substitute price [v] for the
    destination-native TokenID if and only if (a) that TokenID is absent
    from the working set, (b) the destination token lists were fetched and
    the source-native address is in their flattened, deduplicated union,
    and (c) the source-native TokenID has the non-nil price [v] in the
    working set.  Then the working set after the backfill holds, under the
    destination-native TokenID, the source-native price as it is, and no
    other entry changes.  In every other case in which the resolver
    returns, the working set stays as it was: a destination-native price
    that was absent remains absent.  The resolver never panics, and it
    fails only when the destination token lists cannot be fetched. *)
Theorem backfill_fires_iff (p : priceService) (reader : PriceRegistryReader)
    (tokenPrices : gmap TokenID (option Z)) :
  let found := (findMissingDestNativeTokenPrice p reader tokenPrices).1 in
  let fires (v : Z) :=
    tokenPrices !! destNativeTokenID p = None
    /\ (exists fee bridged,
          GetDestinationTokens (offRampReader p) reader = inr (fee, bridged)
          /\ sourceNative p ∈ FlattenedAndSortedTokens fee bridged)
    /\ tokenPrices !! sourceNativeTokenID p = Some (Some v) in
  (forall v, found = Ok (Some v) <-> fires v)
  /\ (forall v, found = Ok (Some v) ->
        backfill p tokenPrices (Some v) !! destNativeTokenID p
        = tokenPrices !! sourceNativeTokenID p
        /\ forall tokenID, tokenID <> destNativeTokenID p ->
             backfill p tokenPrices (Some v) !! tokenID = tokenPrices !! tokenID)
  /\ (forall r, found = Ok r -> ~ (exists v, fires v) ->
        r = None
        /\ backfill p tokenPrices r = tokenPrices
        /\ (tokenPrices !! destNativeTokenID p = None ->
            backfill p tokenPrices r !! destNativeTokenID p = None))
  /\ found <> Panic
  /\ (forall e, found = Err e ->
        tokenPrices !! destNativeTokenID p = None
        /\ exists e', GetDestinationTokens (offRampReader p) reader = inl e').
Proof.
  intros found fires.
  assert (forall v, found = Ok (Some v) <-> fires v) as Hiff.
  { intros v. subst found fires. simpl.
    rewrite findMissingDestNativeTokenPrice_outcome.
    destruct (tokenPrices !! destNativeTokenID p) as [d|] eqn:Hdest.
    { split; [done|]. by intros [? _]. }
    destruct (GetDestinationTokens (offRampReader p) reader)
      as [e|[fee bridged]] eqn:Hget.
    { split; [done|]. by intros (_ & (? & ? & ? & _) & _). }
    destruct (slices_Contains _ _) eqn:Hc.
    - apply slices_Contains_true in Hc.
      destruct (tokenPrices !! sourceNativeTokenID p) as [[w|]|] eqn:Hsrc.
      + split.
        * intros [= ->]. eauto 10.
        * intros (_ & _ & [= ->]). done.
      + split; [done|]. by intros (_ & _ & ?).
      + split; [done|]. by intros (_ & _ & ?).
    - split; [done|]. intros (_ & (fee' & bridged' & [= <- <-] & Hin) & _).
      apply slices_Contains_true in Hin. congruence. }
  split; [exact Hiff|]. split.
  { intros v Hv. apply Hiff in Hv as (_ & _ & Hsrc). simpl. split.
    - by rewrite lookup_insert_eq, Hsrc.
    - intros tokenID Hne. by rewrite lookup_insert_ne. }
  split.
  { intros [v|] Hr Hnot.
    - destruct Hnot. exists v. by apply Hiff.
    - done. }
  subst found. rewrite findMissingDestNativeTokenPrice_outcome.
  destruct (tokenPrices !! destNativeTokenID p) as [d|]; [done|].
  destruct (GetDestinationTokens (offRampReader p) reader) as [e|[fee bridged]].
  { split; [done|]. eauto. }
  destruct (slices_Contains _ _); [|done].
  by destruct (tokenPrices !! sourceNativeTokenID p) as [[w|]|].
Qed.

Lemma backfill_fires_iff_witness :
  (findMissingDestNativeTokenPrice (exampleService exampleORM None (Some exampleReader))
     exampleReader {[ mkTokenID "0xAAA" 1 := Some 7 ]}).1 = Ok (Some 7).
Proof.
  apply (backfill_fires_iff (exampleService exampleORM None (Some exampleReader))
           exampleReader {[ mkTokenID "0xAAA" 1 := Some 7 ]}).
  split; [reflexivity|]. split; [|reflexivity].
  exists ["0xAAA"], ["0xBBB"; "0xAAA"]. split; [reflexivity|].
  apply slices_Contains_true. reflexivity.
Defined.

(** ** The gas price observer *)

Lemma withRLock_fst {A} (m : M A) : (withRLock m).1 = m.1.
Proof. by destruct m. Qed.

Lemma withRLock_snd {A} (m : M A) :
  (withRLock m).2 = [EvRLock] ++ m.2 ++ [EvRUnlock].
Proof. by destruct m. Qed.

Lemma wrapErr_fst {A} (msg : string) (m : M A) :
  (wrapErr msg m).1
  = match m.1 with Err e => Err (ErrWrap msg e) | r => r end.
Proof. by destruct m as [[a|e|] t]. Qed.

Lemma wrapErr_snd {A} (msg : string) (m : M A) : (wrapErr msg m).2 = m.2.
Proof. by destruct m as [[a|e|] t]. Qed.

Lemma logAndDrop_fst (msg : string) (m : M unit) :
  (logAndDrop msg m).1 = match m.1 with Panic => Panic | _ => Ok tt end.
Proof. by destruct m as [[[]|e|] t]. Qed.

Lemma noUpsert_app (t1 t2 : list Event) :
  noUpsert (t1 ++ t2) <-> noUpsert t1 /\ noUpsert t2.
Proof. apply Forall_app. Qed.

Lemma observeGasPriceUpdates_outcome (p : priceService)
    (est : GasPriceEstimatorCommit) :
  gasPriceEstimator p = Some est ->
  (observeGasPriceUpdates p).1
  = match GetTokenPricesUSD (priceGetter p) [sourceNativeTokenID p] with
    | inl e => Err (ErrWrap "failed to fetch source native price" e)
    | inr prices =>
        match prices !! sourceNativeTokenID p with
        | None => Err (ErrNew "missing source native price")
        | Some native =>
            match GetGasPrice est with
            | inl e => Err e
            | inr None => Err (ErrNew "missing gas price")
            | inr (Some gas) =>
                match DenoteInUSD est gas native with
                | inl e => Err e
                | inr usd => Ok usd
                end
            end
        end
    end.
Proof.
  intros Hest. unfold observeGasPriceUpdates. rewrite Hest.
  destruct (GetTokenPricesUSD _ _) as [e|prices]; [done|].
  rewrite bind_fst; simpl.
  destruct (prices !! sourceNativeTokenID p) as [native|]; [|done].
  destruct (GetGasPrice est) as [e|[gas|]]; [done| |done].
  rewrite bind_fst; simpl.
  by destruct (DenoteInUSD est gas native) as [e|usd].
Qed.

Lemma observeGasPriceUpdates_noUpsert (p : priceService) :
  noUpsert (observeGasPriceUpdates p).2.
Proof.
  unfold observeGasPriceUpdates, noUpsert.
  destruct (gasPriceEstimator p) as [est|]; [|constructor].
  destruct (GetTokenPricesUSD _ _) as [e|prices]; simpl; [by repeat constructor|].
  destruct (prices !! sourceNativeTokenID p) as [native|]; simpl;
    [|by repeat constructor].
  destruct (GetGasPrice est) as [e|[gas|]]; simpl; [by repeat constructor| |by repeat constructor].
  destruct (DenoteInUSD est gas native) as [e|usd]; simpl; by repeat constructor.
Qed.

(** A gas cycle whose observation fails returns the error and writes
    nothing. *)
Lemma runGasPriceUpdate_observe_fails (p : priceService) (e : error) :
  is_Some (gasPriceEstimator p) ->
  (observeGasPriceUpdates p).1 = Err e ->
  (runGasPriceUpdate p).1 = Err (ErrWrap "failed to observe gas price updates" e)
  /\ noUpsert (runGasPriceUpdate p).2.
Proof.
  intros [est Hest] Hobs. unfold runGasPriceUpdate.
  rewrite withRLock_fst, withRLock_snd, Hest, bind_fst, bind_snd.
  rewrite wrapErr_fst, wrapErr_snd, Hobs. split; [done|].
  apply noUpsert_app. split; [by repeat constructor|].
  apply noUpsert_app. split; [apply observeGasPriceUpdates_noUpsert|by repeat constructor].
Qed.

(** C4: with an estimator in place, the gas-price observation fails with
    an error when the price source's response has no entry for
    TokenID(source native, source chain), when the raw gas-price fetch
    errors, when the raw gas price is nil, or when the USD denomination
    errors (and also when the price source's call itself errors); a failed
    observation makes the gas cycle return an error without any database
    write.  It never panics, and it succeeds exactly
    when the price source answers with an entry [native] for that TokenID,
    the estimator returns a non-nil raw gas price [gas], and the
    denomination of [gas] given [native] succeeds; the result is then the
    estimator's denomination as it is. *)
Theorem gas_observation (p : priceService) (est : GasPriceEstimatorCommit) :
  gasPriceEstimator p = Some est ->
  let response := GetTokenPricesUSD (priceGetter p) [sourceNativeTokenID p] in
  let observed := (observeGasPriceUpdates p).1 in
  let failed := exists e, observed = Err e in
  (forall prices, response = inr prices ->
     prices !! sourceNativeTokenID p = None -> failed)
  /\ ((exists e, response = inl e) -> failed)
  /\ ((exists e, GetGasPrice est = inl e) -> failed)
  /\ (GetGasPrice est = inr None -> failed)
  /\ (forall prices native gas e,
        response = inr prices -> prices !! sourceNativeTokenID p = Some native ->
        GetGasPrice est = inr (Some gas) ->
        DenoteInUSD est gas native = inl e -> observed = Err e)
  /\ (failed ->
        (exists e, (runGasPriceUpdate p).1 = Err e)
        /\ noUpsert (runGasPriceUpdate p).2)
  /\ observed <> Panic
  /\ (forall usd,
        observed = Ok usd <->
        exists prices native gas,
          response = inr prices
          /\ prices !! sourceNativeTokenID p = Some native
          /\ GetGasPrice est = inr (Some gas)
          /\ DenoteInUSD est gas native = inr usd).
Proof.
  intros Hest response observed failed.
  pose proof (observeGasPriceUpdates_outcome p est Hest) as Hobs.
  fold response observed in Hobs.
  split.
  { intros prices Hr Hnone. unfold failed. rewrite Hobs, Hr, Hnone. eauto. }
  split.
  { intros [e He]. unfold failed. rewrite Hobs, He. eauto. }
  split.
  { intros [e He]. unfold failed. rewrite Hobs, He.
    destruct response as [e'|prices]; [eauto|].
    destruct (prices !! _); eauto. }
  split.
  { intros He. unfold failed. rewrite Hobs, He.
    destruct response as [e'|prices]; [eauto|].
    destruct (prices !! _); eauto. }
  split.
  { intros prices native gas e Hr Hn Hg Hd. by rewrite Hobs, Hr, Hn, Hg, Hd. }
  split.
  { intros [e He].
    destruct (runGasPriceUpdate_observe_fails p e) as [Hrun Hno]; eauto. }
  split.
  { rewrite Hobs. destruct response as [e'|prices]; [done|].
    destruct (prices !! _) as [native|]; [|done].
    destruct (GetGasPrice est) as [e|[gas|]]; [done| |done].
    by destruct (DenoteInUSD est gas native). }
  intros usd. split.
  - rewrite Hobs. intros Hok.
    destruct response as [e'|prices]; [done|].
    destruct (prices !! _) as [native|] eqn:Hn; [|done].
    destruct (GetGasPrice est) as [e|[gas|]]; [done| |done].
    destruct (DenoteInUSD est gas native) as [e|usd'] eqn:Hd; [done|].
    injection Hok as ->. eauto 10.
  - intros (prices & native & gas & Hr & Hn & Hg & Hd).
    by rewrite Hobs, Hr, Hn, Hg, Hd.
Qed.

Lemma gas_observation_witness :
  (observeGasPriceUpdates (exampleService exampleORM (Some exampleEstimator) None)).1
  = Ok (Some 10).
Proof.
  apply (gas_observation (exampleService exampleORM (Some exampleEstimator) None)
           exampleEstimator eq_refl).
  eexists _, _, _. repeat split; reflexivity.
Defined.

(** ** The token price observer *)

(** observeTokenPriceUpdates with a reader in place, one case per way out
    of the function. *)
Lemma observeTokenPriceUpdates_cases (p : priceService)
    (reader : PriceRegistryReader) :
  destPriceRegistryReader p = Some reader ->
  observeTokenPriceUpdates p
  = match GetJobSpecTokenPricesUSD (priceGetter p) with
    | inl e =>
        (Err (ErrWrap "failed to fetch token prices" e), [EvGetJobSpecTokenPricesUSD])
    | inr fetched =>
        let resolved := findMissingDestNativeTokenPrice p reader fetched in
        let t1 := EvGetJobSpecTokenPricesUSD :: resolved.2 in
        match resolved.1 with
        | Err e => (Err (ErrWrap "find missing dest native token price" e), t1)
        | Panic => (Panic, t1)
        | Ok missing =>
            let workingSet := backfill p fetched missing in
            match firstNilPrice (map_to_list workingSet) with
            | Some _ => (Err (ErrNew "token price is nil for token"), t1)
            | None =>
                let destTokens := sortedDestTokens (destChainSelector p) workingSet in
                let t2 := t1 ++ [EvLog Info "Raw token prices";
                                 EvGetTokensDecimals destTokens] in
                match GetTokensDecimals reader destTokens with
                | inl e => (Err (ErrWrap "get tokens decimals" e), t2)
                | inr decimals =>
                    if (length decimals =? length destTokens)%nat then
                      match normalizeLoop (destChainSelector p) workingSet
                                          decimals 0 destTokens ∅ with
                      | Ok prices =>
                          (Ok prices,
                           t2 ++ [EvLog Info "PriceService observed latest token prices"])
                      | Err e => (Err e, t2)
                      | Panic => (Panic, t2)
                      end
                    else (Err (ErrNew "mismatched token decimals and tokens"), t2)
                end
            end
        end
    end.
Proof.
  intros Hreader. unfold observeTokenPriceUpdates. rewrite Hreader.
  destruct (GetJobSpecTokenPricesUSD (priceGetter p)) as [e|fetched]; [done|].
  simpl.
  destruct (findMissingDestNativeTokenPrice p reader fetched)
    as [[missing|e|] t]; simpl; [|done..].
  destruct (firstNilPrice _); simpl.
  { by rewrite app_nil_r. }
  destruct (GetTokensDecimals reader _) as [e|decimals]; simpl.
  { done. }
  destruct (length decimals =? length _)%nat; simpl.
  - destruct (normalizeLoop _ _ _ _ _ _); simpl;
      by rewrite <- ?app_assoc, ?app_nil_r.
  - by rewrite <- ?app_assoc, ?app_nil_r.
Qed.

Lemma firstNilPrice_None (entries : list (TokenID * option Z)) :
  firstNilPrice entries = None <->
  forall tokenID price, (tokenID, price) ∈ entries -> is_Some price.
Proof.
  induction entries as [|[tokenID [price|]] rest IH]; simpl.
  - split; [|done]. intros _ ?? Hin. by apply elem_of_nil in Hin.
  - rewrite IH. split.
    + intros Hrest t q Hin. apply elem_of_cons in Hin as [Heq|Hin].
      * injection Heq as -> ->. eauto.
      * by apply (Hrest t).
    + intros Hall t q Hin. apply (Hall t), elem_of_cons. by right.
  - split; [done|]. intros Hall.
    destruct (Hall tokenID None) as [? [=]]. apply elem_of_cons. by left.
Qed.

Lemma firstNilPrice_map_None (prices : gmap TokenID (option Z)) :
  firstNilPrice (map_to_list prices) = None <->
  forall tokenID price, prices !! tokenID = Some price -> is_Some price.
Proof.
  rewrite firstNilPrice_None. split.
  - intros Hall tokenID price Hl. apply (Hall tokenID). by apply elem_of_map_to_list.
  - intros Hall tokenID price Hin. apply (Hall tokenID). by apply elem_of_map_to_list.
Qed.

Lemma collectDestTokens_filter (dest : uint64) (entries : list (TokenID * option Z)) :
  collectDestTokens dest entries
  = TokenAddress <$> filter (fun tokenID => ChainSelector tokenID = dest) (entries.*1).
Proof.
  induction entries as [|[tokenID price] rest IH]; [done|].
  simpl. rewrite filter_cons. simpl.
  destruct (decide (ChainSelector tokenID = dest)); simpl; by rewrite IH.
Qed.

Lemma collectDestTokens_elem_of (dest : uint64) (prices : gmap TokenID (option Z))
    (a : Address) :
  a ∈ collectDestTokens dest (map_to_list prices)
  <-> is_Some (prices !! mkTokenID a dest).
Proof.
  rewrite collectDestTokens_filter, list_elem_of_fmap. split.
  - intros ([a' d] & -> & Hin). apply list_elem_of_filter in Hin as [Hd Hin].
    simpl in *. subst d.
    apply list_elem_of_fmap in Hin as ([k v] & -> & Hin).
    apply elem_of_map_to_list in Hin. eauto.
  - intros [v Hv]. exists (mkTokenID a dest). split; [done|].
    apply list_elem_of_filter. split; [done|].
    apply list_elem_of_fmap. exists (mkTokenID a dest, v). split; [done|].
    by apply elem_of_map_to_list.
Qed.

Lemma collectDestTokens_NoDup (dest : uint64) (prices : gmap TokenID (option Z)) :
  NoDup (collectDestTokens dest (map_to_list prices)).
Proof.
  rewrite collectDestTokens_filter.
  apply NoDup_fmap_2_strong.
  - intros [a1 d1] [a2 d2] [Hd1 _]%list_elem_of_filter [Hd2 _]%list_elem_of_filter.
    simpl in *. congruence.
  - apply NoDup_filter, NoDup_fst_map_to_list.
Qed.

Lemma sortedDestTokens_elem_of (dest : uint64) (prices : gmap TokenID (option Z))
    (a : Address) :
  a ∈ sortedDestTokens dest prices <-> is_Some (prices !! mkTokenID a dest).
Proof.
  unfold sortedDestTokens.
  by rewrite sort_Slice_elem_of, collectDestTokens_elem_of.
Qed.

Lemma sortedDestTokens_ascending (dest : uint64) (prices : gmap TokenID (option Z)) :
  ascending (sortedDestTokens dest prices).
Proof. apply sort_strings_ascending, collectDestTokens_NoDup. Qed.

Lemma sortedDestTokens_NoDup (dest : uint64) (prices : gmap TokenID (option Z)) :
  NoDup (sortedDestTokens dest prices).
Proof. apply sort_Slice_NoDup, collectDestTokens_NoDup. Qed.

(** The order in which the range statement yields the map does not
    matter: every ascending arrangement of the destination addresses is
    the slice the observer requests decimals for. *)
Lemma sortedDestTokens_unique (dest : uint64) (prices : gmap TokenID (option Z))
    (tokens : list Address) :
  tokens ≡ₚ collectDestTokens dest (map_to_list prices) ->
  ascending tokens ->
  tokens = sortedDestTokens dest prices.
Proof.
  intros Hperm Hsorted.
  apply sorted_perm_unique;
    eauto using string_ltb_asym, string_ltb_total, string_ltb_trans,
                collectDestTokens_NoDup.
Qed.

(** The loop filling the result: when every remaining token has a non-nil
    price and a decimals entry at its index, the loop returns, and each
    token is stored with its own price and the decimals at its own
    index. *)
Lemma normalizeLoop_ok (dest : uint64) (raw : gmap TokenID (option Z))
    (decimals : list uint8) (tokens : list Address) :
  forall (i : nat) (acc : gmap Address (option Z)),
  NoDup tokens ->
  (forall a, a ∈ tokens -> exists price, raw !! mkTokenID a dest = Some (Some price)) ->
  (i + length tokens <= length decimals)%nat ->
  exists prices,
    normalizeLoop dest raw decimals i tokens acc = Ok prices
    /\ (forall a, a ∉ tokens -> prices !! a = acc !! a)
    /\ (forall j a, tokens !! j = Some a ->
          exists price d,
            raw !! mkTokenID a dest = Some (Some price)
            /\ decimals !! (i + j)%nat = Some d
            /\ prices !! a = Some (Some (calculateUsdPer1e18TokenAmount price d))).
Proof.
  induction tokens as [|token rest IH]; intros i acc Hnodup Hraw Hlen; simpl.
  { exists acc. split; [done|]. split; [done|]. intros j a Hj. done. }
  apply NoDup_cons in Hnodup as [Hfresh Hnodup].
  destruct (Hraw token) as [price Hprice]; [apply elem_of_cons; by left|].
  rewrite Hprice.
  destruct (lookup_lt_is_Some_2 decimals i) as [d Hd]; [simpl in Hlen; lia|].
  rewrite Hd.
  destruct (IH (S i) (<[token := Some (calculateUsdPer1e18TokenAmount price d)]> acc))
    as (prices & Hok & Hout & Hin); [done| |simpl in Hlen; lia|].
  { intros a Ha. apply Hraw, elem_of_cons. by right. }
  exists prices. split; [done|]. split.
  - intros a [Hne Ha]%not_elem_of_cons. rewrite Hout by done.
    by rewrite lookup_insert_ne.
  - intros [|j] a Hj; simpl in Hj.
    + injection Hj as <-. exists price, d. rewrite Nat.add_0_r.
      split; [done|]. split; [done|].
      rewrite Hout by done. by rewrite lookup_insert_eq.
    + destruct (Hin j a Hj) as (price' & d' & ? & ? & ?).
      exists price', d'. by rewrite <- Nat.add_succ_comm.
Qed.

Lemma normalizeLoop_destTokens (dest : uint64) (workingSet : gmap TokenID (option Z))
    (decimals : list uint8) :
  firstNilPrice (map_to_list workingSet) = None ->
  length decimals = length (sortedDestTokens dest workingSet) ->
  exists prices,
    normalizeLoop dest workingSet decimals 0 (sortedDestTokens dest workingSet) ∅
    = Ok prices
    /\ (forall a, is_Some (prices !! a) <-> is_Some (workingSet !! mkTokenID a dest))
    /\ (forall a, prices !! a <> Some None)
    /\ (forall i a, sortedDestTokens dest workingSet !! i = Some a ->
          exists price d,
            workingSet !! mkTokenID a dest = Some (Some price)
            /\ decimals !! i = Some d
            /\ prices !! a = Some (Some (calculateUsdPer1e18TokenAmount price d))).
Proof.
  intros Hnil Hlen.
  destruct (normalizeLoop_ok dest workingSet decimals
              (sortedDestTokens dest workingSet) 0 ∅)
    as (prices & Hok & Hout & Hin).
  { apply sortedDestTokens_NoDup. }
  { intros a [[price|] Ha]%sortedDestTokens_elem_of; [eauto|].
    apply firstNilPrice_map_None with (tokenID := mkTokenID a dest) (price := None)
      in Hnil as [? [=]]. done. }
  { lia. }
  exists prices. split; [done|].
  assert (forall a, a ∈ sortedDestTokens dest workingSet -> exists v, prices !! a = Some (Some v))
    as Hsome.
  { intros a (j & Hj)%list_elem_of_lookup.
    destruct (Hin j a Hj) as (price & d & _ & _ & ->). eauto. }
  split; [|split].
  - intros a. rewrite <- sortedDestTokens_elem_of.
    destruct (decide (a ∈ sortedDestTokens dest workingSet)) as [Ha|Hna].
    + destruct (Hsome a Ha) as [v ->]. split; eauto.
    + rewrite (Hout a Hna), lookup_empty. split; [by intros [? ?]|done].
  - intros a. destruct (decide (a ∈ sortedDestTokens dest workingSet)) as [Ha|Hna].
    + destruct (Hsome a Ha) as [v ->]. done.
    + by rewrite (Hout a Hna), lookup_empty.
  - intros i a Hi. apply (Hin i a Hi).
Qed.

Lemma findMissingDestNativeTokenPrice_trace (p : priceService)
    (reader : PriceRegistryReader) (tokenPrices : gmap TokenID (option Z)) :
  Forall (fun ev => ev = EvGetDestinationTokens \/ exists msg, ev = EvLog Debug msg)
         (findMissingDestNativeTokenPrice p reader tokenPrices).2.
Proof.
  unfold findMissingDestNativeTokenPrice.
  destruct (tokenPrices !! destNativeTokenID p); simpl; [by repeat constructor; eauto|].
  destruct (GetDestinationTokens _ _) as [e|[fee bridged]]; simpl;
    [by repeat constructor; eauto|].
  destruct (slices_Contains _ _); simpl; [|by repeat constructor; eauto].
  destruct (tokenPrices !! sourceNativeTokenID p) as [[?|]|]; simpl;
    by repeat constructor; eauto.
Qed.

Lemma findMissingDestNativeTokenPrice_no_panic (p : priceService)
    (reader : PriceRegistryReader) (tokenPrices : gmap TokenID (option Z)) :
  (findMissingDestNativeTokenPrice p reader tokenPrices).1 <> Panic.
Proof.
  rewrite findMissingDestNativeTokenPrice_outcome.
  destruct (tokenPrices !! destNativeTokenID p) as [d|]; [done|].
  destruct (GetDestinationTokens (offRampReader p) reader) as [e|[fee bridged]];
    [done|].
  destruct (slices_Contains _ _); [|done].
  by destruct (tokenPrices !! sourceNativeTokenID p) as [[w|]|].
Qed.

(** The token observation never panics: no index is out of range and no
    nil price reaches the unit converter. *)
Lemma observeTokenPriceUpdates_no_panic (p : priceService) :
  (observeTokenPriceUpdates p).1 <> Panic.
Proof.
  destruct (destPriceRegistryReader p) as [reader|] eqn:Hreader.
  2: { unfold observeTokenPriceUpdates. by rewrite Hreader. }
  rewrite (observeTokenPriceUpdates_cases p reader Hreader).
  destruct (GetJobSpecTokenPricesUSD (priceGetter p)) as [e|fetched]; [done|].
  simpl.
  pose proof (findMissingDestNativeTokenPrice_no_panic p reader fetched) as Hnp.
  destruct (findMissingDestNativeTokenPrice p reader fetched).1
    as [missing|e|]; [|done..].
  destruct (firstNilPrice _) eqn:Hnil; [done|].
  destruct (GetTokensDecimals reader _) as [e|decimals]; [done|].
  destruct (length decimals =? length _)%nat eqn:Hlen; [|done].
  apply Nat.eqb_eq in Hlen.
  destruct (normalizeLoop_destTokens _ _ _ Hnil Hlen) as (prices & -> & _).
  done.
Qed.

(** Membership of an event in a trace given by its pieces. *)
Ltac in_trace H :=
  repeat (rewrite elem_of_cons in H || rewrite elem_of_app in H
          || rewrite elem_of_nil in H);
  intuition congruence.

Lemma resolver_trace_no_decimals (p : priceService) (reader : PriceRegistryReader)
    (fetched : gmap TokenID (option Z)) (tokens : list Address) :
  EvGetTokensDecimals tokens
  ∉ EvGetJobSpecTokenPricesUSD :: (findMissingDestNativeTokenPrice p reader fetched).2.
Proof.
  intros [[=]|Hin]%elem_of_cons.
  pose proof (findMissingDestNativeTokenPrice_trace p reader fetched) as Hall.
  rewrite Forall_forall in Hall. by destruct (Hall _ Hin) as [[=]|[? [=]]].
Qed.

Lemma resolver_trace_noUpsert (p : priceService) (reader : PriceRegistryReader)
    (fetched : gmap TokenID (option Z)) :
  noUpsert (EvGetJobSpecTokenPricesUSD
            :: (findMissingDestNativeTokenPrice p reader fetched).2).
Proof.
  constructor; [done|].
  eapply Forall_impl; [apply findMissingDestNativeTokenPrice_trace|].
  by intros ev [->|[msg ->]].
Qed.

(** What a successful token observation has gone through. *)
Lemma observeTokenPriceUpdates_success (p : priceService)
    (result : gmap Address (option Z)) :
  (observeTokenPriceUpdates p).1 = Ok result ->
  exists reader fetched missing decimals,
    destPriceRegistryReader p = Some reader
    /\ GetJobSpecTokenPricesUSD (priceGetter p) = inr fetched
    /\ (findMissingDestNativeTokenPrice p reader fetched).1 = Ok missing
    /\ let workingSet := backfill p fetched missing in
       let destTokens := sortedDestTokens (destChainSelector p) workingSet in
       firstNilPrice (map_to_list workingSet) = None
       /\ GetTokensDecimals reader destTokens = inr decimals
       /\ length decimals = length destTokens
       /\ normalizeLoop (destChainSelector p) workingSet decimals 0 destTokens ∅
          = Ok result
       /\ (observeTokenPriceUpdates p).2
          = (EvGetJobSpecTokenPricesUSD
             :: (findMissingDestNativeTokenPrice p reader fetched).2)
            ++ [EvLog Info "Raw token prices"; EvGetTokensDecimals destTokens;
                EvLog Info "PriceService observed latest token prices"].
Proof.
  destruct (destPriceRegistryReader p) as [reader|] eqn:Hreader.
  2: { unfold observeTokenPriceUpdates. by rewrite Hreader. }
  rewrite (observeTokenPriceUpdates_cases p reader Hreader).
  destruct (GetJobSpecTokenPricesUSD (priceGetter p)) as [e|fetched]; [done|].
  simpl.
  destruct (findMissingDestNativeTokenPrice p reader fetched).1
    as [missing|e|] eqn:Hfound; [|done..].
  destruct (firstNilPrice _) eqn:Hnil; [done|].
  destruct (GetTokensDecimals reader _) as [e|decimals] eqn:Hdec; [done|].
  destruct (length decimals =? length _)%nat eqn:Hlen; [|done].
  apply Nat.eqb_eq in Hlen.
  destruct (normalizeLoop _ _ _ _ _ _) as [prices| |] eqn:Hloop; [|done..].
  simpl. intros [= ->].
  exists reader, fetched, missing, decimals.
  repeat (split; [done|]). simpl. by rewrite <- app_assoc.
Qed.

(** What has happened when the trace shows a decimals request. *)
Lemma observeTokenPriceUpdates_request (p : priceService) (tokens : list Address) :
  EvGetTokensDecimals tokens ∈ (observeTokenPriceUpdates p).2 ->
  exists reader fetched missing,
    destPriceRegistryReader p = Some reader
    /\ GetJobSpecTokenPricesUSD (priceGetter p) = inr fetched
    /\ (findMissingDestNativeTokenPrice p reader fetched).1 = Ok missing
    /\ tokens = sortedDestTokens (destChainSelector p) (backfill p fetched missing)
    /\ forall decimals,
         GetTokensDecimals reader tokens = inr decimals ->
         length decimals <> length tokens ->
         observeTokenPriceUpdates p
         = (Err (ErrNew "mismatched token decimals and tokens"),
            (EvGetJobSpecTokenPricesUSD
             :: (findMissingDestNativeTokenPrice p reader fetched).2)
            ++ [EvLog Info "Raw token prices"; EvGetTokensDecimals tokens]).
Proof.
  destruct (destPriceRegistryReader p) as [reader|] eqn:Hreader.
  2: { unfold observeTokenPriceUpdates. rewrite Hreader. simpl.
       intros Hin. by apply elem_of_nil in Hin. }
  rewrite (observeTokenPriceUpdates_cases p reader Hreader).
  destruct (GetJobSpecTokenPricesUSD (priceGetter p)) as [e|fetched].
  { simpl. intros [[=]|Hin%elem_of_nil]%elem_of_cons. done. }
  simpl.
  pose proof (resolver_trace_no_decimals p reader fetched tokens) as Hno.
  destruct (findMissingDestNativeTokenPrice p reader fetched).1
    as [missing|e|] eqn:Hfound; [|done..].
  destruct (firstNilPrice _) eqn:Hnil; [done|].
  set (destTokens := sortedDestTokens _ _).
  intros Hin.
  assert (tokens = destTokens) as ->.
  { rewrite elem_of_cons in Hno.
    destruct (GetTokensDecimals reader destTokens) as [e|decimals];
      [simpl in Hin; in_trace Hin|].
    destruct (length decimals =? length destTokens)%nat;
      [|simpl in Hin; in_trace Hin].
    destruct (normalizeLoop _ _ _ _ _ _); simpl in Hin; in_trace Hin. }
  exists reader, fetched, missing. repeat (split; [done|]).
  intros decimals Hdec Hlen. rewrite Hdec.
  apply Nat.eqb_neq in Hlen. by rewrite Hlen.
Qed.

(** ** The two cycles *)

Lemma call_fst {A} (ev : Event) (wrap : error -> error) (r : error + A) :
  (call ev wrap r).1 = match r with inl e => Err (wrap e) | inr a => Ok a end.
Proof. by destruct r. Qed.

Lemma call_snd {A} (ev : Event) (wrap : error -> error) (r : error + A) :
  (call ev wrap r).2 = [ev].
Proof. by destruct r. Qed.

Lemma runGasPriceUpdate_trace (p : priceService) :
  (runGasPriceUpdate p).2
  = [EvRLock]
    ++ match gasPriceEstimator p with
       | None =>
           [EvLog Info "Skipping gas price update due to gasPriceEstimator not ready"]
       | Some _ =>
           (observeGasPriceUpdates p).2
           ++ match (observeGasPriceUpdates p).1 with
              | Ok (Some usd) =>
                  [EvUpsertGasPrices (destChainSelector p)
                     [mkGasPrice (sourceChainSelector p) (Some usd)]]
              | _ => []
              end
       end
    ++ [EvRUnlock].
Proof.
  unfold runGasPriceUpdate. rewrite withRLock_snd. do 2 f_equal.
  destruct (gasPriceEstimator p) as [est|]; [|done].
  rewrite bind_snd, wrapErr_fst, wrapErr_snd.
  destruct (observeGasPriceUpdates p).1 as [[usd|]|e|]; simpl;
    rewrite ?app_nil_r; try done.
  f_equal. unfold NewWei.
  by destruct (UpsertGasPricesForDestChain _ _ _).
Qed.

Lemma runGasPriceUpdate_outcome (p : priceService) :
  (runGasPriceUpdate p).1
  = match gasPriceEstimator p with
    | None => Ok tt
    | Some _ =>
        match (observeGasPriceUpdates p).1 with
        | Ok (Some usd) =>
            match UpsertGasPricesForDestChain (orm p) (destChainSelector p)
                    [mkGasPrice (sourceChainSelector p) (Some usd)] with
            | inl e => Err (ErrWrap "failed to write gas prices to db" e)
            | inr _ => Ok tt
            end
        | Ok None => Ok tt
        | Err e => Err (ErrWrap "failed to observe gas price updates" e)
        | Panic => Panic
        end
    end.
Proof.
  unfold runGasPriceUpdate. rewrite withRLock_fst.
  destruct (gasPriceEstimator p) as [est|]; [|done].
  rewrite bind_fst, wrapErr_fst.
  destruct (observeGasPriceUpdates p).1 as [[usd|]|e|]; simpl; try done.
  unfold NewWei. by destruct (UpsertGasPricesForDestChain _ _ _).
Qed.

Lemma runTokenPriceUpdate_trace (p : priceService) :
  (runTokenPriceUpdate p).2
  = [EvRLock]
    ++ match destPriceRegistryReader p with
       | None =>
           [EvLog Info "Skipping token price update due to destPriceRegistry not ready"]
       | Some _ =>
           (observeTokenPriceUpdates p).2
           ++ match (observeTokenPriceUpdates p).1 with
              | Ok prices =>
                  [EvUpsertTokenPrices (destChainSelector p) (tokenPriceRows prices)
                                       (tokenUpdateInterval p)]
              | _ => []
              end
       end
    ++ [EvRUnlock].
Proof.
  unfold runTokenPriceUpdate. rewrite withRLock_snd. do 2 f_equal.
  destruct (destPriceRegistryReader p) as [reader|]; [|done].
  rewrite bind_snd, wrapErr_fst, wrapErr_snd.
  destruct (observeTokenPriceUpdates p).1 as [prices|e|]; simpl;
    rewrite ?app_nil_r; try done.
  f_equal. by destruct (UpsertTokenPricesForDestChain _ _ _ _).
Qed.

Lemma runTokenPriceUpdate_outcome (p : priceService) :
  (runTokenPriceUpdate p).1
  = match destPriceRegistryReader p with
    | None => Ok tt
    | Some _ =>
        match (observeTokenPriceUpdates p).1 with
        | Ok prices =>
            match UpsertTokenPricesForDestChain (orm p) (destChainSelector p)
                    (tokenPriceRows prices) (tokenUpdateInterval p) with
            | inl e => Err (ErrWrap "failed to write token prices to db" e)
            | inr _ => Ok tt
            end
        | Err e => Err (ErrWrap "failed to observe token price updates" e)
        | Panic => Panic
        end
    end.
Proof.
  unfold runTokenPriceUpdate. rewrite withRLock_fst.
  destruct (destPriceRegistryReader p) as [reader|]; [|done].
  rewrite bind_fst, wrapErr_fst.
  destruct (observeTokenPriceUpdates p).1 as [prices|e|]; simpl; try done.
  by destruct (UpsertTokenPricesForDestChain _ _ _ _).
Qed.

Lemma observeTokenPriceUpdates_noUpsert (p : priceService) :
  noUpsert (observeTokenPriceUpdates p).2.
Proof.
  destruct (destPriceRegistryReader p) as [reader|] eqn:Hreader.
  2: { unfold observeTokenPriceUpdates. rewrite Hreader. constructor. }
  rewrite (observeTokenPriceUpdates_cases p reader Hreader).
  destruct (GetJobSpecTokenPricesUSD (priceGetter p)) as [e|fetched];
    [by repeat constructor|].
  simpl.
  pose proof (resolver_trace_noUpsert p reader fetched) as Ht1.
  assert (forall t, noUpsert t ->
            noUpsert ((EvGetJobSpecTokenPricesUSD
                       :: (findMissingDestNativeTokenPrice p reader fetched).2) ++ t))
    as Happ.
  { intros t Ht. by apply noUpsert_app. }
  destruct (findMissingDestNativeTokenPrice p reader fetched).1
    as [missing|e|]; [|done..].
  destruct (firstNilPrice _); [done|].
  destruct (GetTokensDecimals reader _) as [e|decimals];
    [apply Happ; by repeat constructor|].
  destruct (length decimals =? length _)%nat;
    [|apply Happ; by repeat constructor].
  destruct (normalizeLoop _ _ _ _ _ _); simpl;
    rewrite <- ?app_assoc; apply Happ; by repeat constructor.
Qed.

(** A token cycle whose observation fails returns the error and writes
    nothing. *)
Lemma runTokenPriceUpdate_observe_fails (p : priceService) (e : error) :
  (observeTokenPriceUpdates p).1 = Err e ->
  (is_Some (destPriceRegistryReader p) ->
   (runTokenPriceUpdate p).1
   = Err (ErrWrap "failed to observe token price updates" e))
  /\ noUpsert (runTokenPriceUpdate p).2.
Proof.
  intros Hobs. split.
  - intros [reader Hreader].
    by rewrite runTokenPriceUpdate_outcome, Hobs, Hreader.
  - rewrite runTokenPriceUpdate_trace, Hobs.
    apply noUpsert_app. split; [by repeat constructor|].
    apply noUpsert_app. split; [|by repeat constructor].
    destruct (destPriceRegistryReader p); [|by repeat constructor].
    rewrite app_nil_r. apply observeTokenPriceUpdates_noUpsert.
Qed.

(** C3: when the token-price observation succeeds, the keys of the
    returned map are exactly the addresses of the TokenIDs of the
    backfilled working set whose chain selector is the destination chain
    selector; the decimals request sent to the destination price-registry
    reader is the one for exactly these addresses in strictly ascending
    string order; the reader answered with as many decimals; and the
    address at index [i] of the request maps to its working-set price
    converted with the decimals at index [i] of the answer. *)
Theorem token_observation (p : priceService) (result : gmap Address (option Z)) :
  (observeTokenPriceUpdates p).1 = Ok result ->
  exists reader fetched missing decimals,
    destPriceRegistryReader p = Some reader
    /\ GetJobSpecTokenPricesUSD (priceGetter p) = inr fetched
    /\ (findMissingDestNativeTokenPrice p reader fetched).1 = Ok missing
    /\ let workingSet := backfill p fetched missing in
       let destTokens := sortedDestTokens (destChainSelector p) workingSet in
       (forall a, is_Some (result !! a)
                  <-> is_Some (workingSet !! mkTokenID a (destChainSelector p)))
       /\ dom result =@{gset Address} list_to_set destTokens
       /\ (forall tokens,
             EvGetTokensDecimals tokens ∈ (observeTokenPriceUpdates p).2
             <-> tokens = destTokens)
       /\ ascending destTokens
       /\ (forall a, a ∈ destTokens
                     <-> is_Some (workingSet !! mkTokenID a (destChainSelector p)))
       /\ GetTokensDecimals reader destTokens = inr decimals
       /\ length decimals = length destTokens
       /\ (forall i a, destTokens !! i = Some a ->
             exists price d,
               workingSet !! mkTokenID a (destChainSelector p) = Some (Some price)
               /\ decimals !! i = Some d
               /\ result !! a
                  = Some (Some (calculateUsdPer1e18TokenAmount price d))).
Proof.
  intros Hok.
  destruct (observeTokenPriceUpdates_success p result Hok)
    as (reader & fetched & missing & decimals & Hreader & Hfetch & Hfound
        & Hnil & Hdec & Hlen & Hloop & Htrace).
  exists reader, fetched, missing, decimals.
  repeat (split; [done|]). simpl.
  destruct (normalizeLoop_destTokens _ _ _ Hnil Hlen)
    as (prices & Hloop' & Hkeys & _ & Hvalues).
  rewrite Hloop in Hloop'. injection Hloop' as <-.
  split; [done|]. split.
  { apply set_eq. intros a.
    by rewrite elem_of_dom, elem_of_list_to_set, sortedDestTokens_elem_of. }
  split.
  { intros tokens. rewrite Htrace. split.
    - pose proof (resolver_trace_no_decimals p reader fetched tokens) as Hno.
      rewrite elem_of_cons in Hno. intros Hin. in_trace Hin.
    - intros ->. apply elem_of_app. right.
      apply elem_of_cons. right. apply elem_of_cons. by left. }
  split; [apply sortedDestTokens_ascending|].
  split; [intros a; apply sortedDestTokens_elem_of|].
  done.
Qed.

Lemma token_observation_witness :
  exists reader decimals,
    destPriceRegistryReader configuredService = Some reader
    /\ dom examplePrices =@{gset Address} {[ "0xAAA"; "0xBBB" ]}
    /\ GetTokensDecimals reader ["0xAAA"; "0xBBB"] = inr decimals
    /\ length decimals = 2%nat.
Proof.
  destruct (token_observation configuredService examplePrices)
    as (reader & fetched & missing & decimals & Hreader & Hfetch & Hfound
        & _ & Hdom & _ & _ & _ & Hdec & Hlen & _).
  { vm_compute. reflexivity. }
  injection Hfetch as <-.
  injection Hreader as <-.
  assert (missing = Some (2 * 10 ^ 18)) as ->.
  { vm_compute in Hfound. by injection Hfound as <-. }
  exists exampleReader, decimals. split; [done|].
  split; [rewrite Hdom; vm_compute; reflexivity|].
  split; [exact Hdec|exact Hlen].
Defined.

(** With at least as many decimals as tokens, no index of the loop is out
    of range: the loop can only panic on a nil price. *)
Lemma normalizeLoop_panic (dest : uint64) (raw : gmap TokenID (option Z))
    (decimals : list uint8) (tokens : list Address) :
  forall (i : nat) (acc : gmap Address (option Z)),
  (i + length tokens <= length decimals)%nat ->
  normalizeLoop dest raw decimals i tokens acc = Panic ->
  exists a, a ∈ tokens /\ raw !! mkTokenID a dest = Some None.
Proof.
  induction tokens as [|token rest IH]; intros i acc Hlen; simpl; [done|].
  destruct (raw !! mkTokenID token dest) as [[price|]|] eqn:Hraw; [| |done].
  - destruct (lookup_lt_is_Some_2 decimals i) as [d ->]; [simpl in Hlen; lia|].
    intros Hpanic. apply IH in Hpanic as (a & Ha & Hnil); [|simpl in Hlen; lia].
    exists a. split; [|done]. apply elem_of_cons. by right.
  - intros _. exists token. split; [|done]. apply elem_of_cons. by left.
Qed.

Lemma runTokenPriceUpdate_no_panic (p : priceService) :
  (runTokenPriceUpdate p).1 <> Panic.
Proof.
  rewrite runTokenPriceUpdate_outcome.
  destruct (destPriceRegistryReader p); [|done].
  pose proof (observeTokenPriceUpdates_no_panic p) as Hnp.
  destruct (observeTokenPriceUpdates p).1; [|done..].
  by destruct (UpsertTokenPricesForDestChain _ _ _ _).
Qed.

(** C8: the token-price observation and the token-price cycle never
    panic.  When the reader answers a decimals request with a list whose
    length differs from the number of requested addresses, the observation
    returns the error "mismatched token decimals and tokens", the cycle
    returns that error wrapped, and nothing is written.  A successful
    observation has received as many decimals as it requested addresses,
    and stores the address at index [i] with the decimals at index [i].
    With as many decimals as tokens, no index into the decimals list is
    out of range: the loop could only panic on a nil price. *)
Theorem decimals_count_mismatch (p : priceService) :
  (observeTokenPriceUpdates p).1 <> Panic
  /\ (runTokenPriceUpdate p).1 <> Panic
  /\ (forall reader tokens decimals,
        destPriceRegistryReader p = Some reader ->
        EvGetTokensDecimals tokens ∈ (observeTokenPriceUpdates p).2 ->
        GetTokensDecimals reader tokens = inr decimals ->
        length decimals <> length tokens ->
        (observeTokenPriceUpdates p).1
        = Err (ErrNew "mismatched token decimals and tokens")
        /\ (runTokenPriceUpdate p).1
           = Err (ErrWrap "failed to observe token price updates"
                    (ErrNew "mismatched token decimals and tokens"))
        /\ noUpsert (runTokenPriceUpdate p).2)
  /\ (forall result,
        (observeTokenPriceUpdates p).1 = Ok result ->
        exists reader tokens decimals,
          destPriceRegistryReader p = Some reader
          /\ EvGetTokensDecimals tokens ∈ (observeTokenPriceUpdates p).2
          /\ GetTokensDecimals reader tokens = inr decimals
          /\ length decimals = length tokens
          /\ NoDup tokens
          /\ forall i a, tokens !! i = Some a ->
               exists price d,
                 decimals !! i = Some d
                 /\ result !! a
                    = Some (Some (calculateUsdPer1e18TokenAmount price d)))
  /\ (forall dest raw decimals tokens acc,
        length decimals = length tokens ->
        normalizeLoop dest raw decimals 0 tokens acc = Panic ->
        exists a, a ∈ tokens /\ raw !! mkTokenID a dest = Some None).
Proof.
  split; [apply observeTokenPriceUpdates_no_panic|].
  split; [apply runTokenPriceUpdate_no_panic|].
  split; [|split].
  - intros reader tokens decimals Hreader Hin Hdec Hlen.
    destruct (observeTokenPriceUpdates_request p tokens Hin)
      as (reader' & fetched & missing & Hreader' & _ & _ & _ & Hmis).
    assert (reader' = reader) as -> by congruence.
    specialize (Hmis decimals Hdec Hlen).
    assert ((observeTokenPriceUpdates p).1
            = Err (ErrNew "mismatched token decimals and tokens")) as Hobs
      by (by rewrite Hmis).
    split; [done|].
    destruct (runTokenPriceUpdate_observe_fails p _ Hobs) as [Hrun Hno].
    split; [apply Hrun; eauto|done].
  - intros result Hok.
    destruct (observeTokenPriceUpdates_success p result Hok)
      as (reader & fetched & missing & decimals & Hreader & Hfetch & Hfound
          & Hnil & Hdec & Hlen & Hloop & Htrace).
    exists reader, (sortedDestTokens (destChainSelector p) (backfill p fetched missing)),
           decimals.
    split; [done|]. split.
    { rewrite Htrace. apply elem_of_app. right.
      apply elem_of_cons. right. apply elem_of_cons. by left. }
    split; [done|]. split; [done|].
    split; [apply sortedDestTokens_NoDup|].
    destruct (normalizeLoop_destTokens _ _ _ Hnil Hlen)
      as (prices & Hloop' & _ & _ & Hvalues).
    rewrite Hloop in Hloop'. injection Hloop' as <-.
    intros i a Hi. destruct (Hvalues i a Hi) as (price & d & _ & Hd & Hres).
    eauto.
  - intros dest raw decimals tokens acc Hlen.
    apply normalizeLoop_panic. lia.
Qed.

Lemma decimals_count_mismatch_witness :
  (observeTokenPriceUpdates (exampleService exampleORM None (Some shortReader))).1
  = Err (ErrNew "mismatched token decimals and tokens").
Proof.
  pose proof (decimals_count_mismatch
                (exampleService exampleORM None (Some shortReader)))
    as (_ & _ & Hmis & _).
  apply (Hmis shortReader ["0xAAA"; "0xBBB"] [6%N]).
  - reflexivity.
  - apply list_elem_of_In. vm_compute.
    repeat (first [left; reflexivity | right]).
  - reflexivity.
  - simpl. lia.
Defined.

(** ** What reaches the database *)

Lemma tokenPriceRows_elem_of (prices : gmap Address (option Z)) (row : TokenPrice) :
  row ∈ tokenPriceRows prices <-> prices !! TokenAddr row = Some (TokenPrice_ row).
Proof.
  unfold tokenPriceRows. rewrite sort_Slice_elem_of, list_elem_of_fmap. split.
  - intros ([a v] & -> & Hin). by apply elem_of_map_to_list in Hin.
  - intros Hl. exists (TokenAddr row, TokenPrice_ row). split; [by destruct row|].
    by apply elem_of_map_to_list.
Qed.

Lemma observeGasPriceUpdates_no_panic (p : priceService) :
  (observeGasPriceUpdates p).1 <> Panic.
Proof.
  destruct (gasPriceEstimator p) as [est|] eqn:Hest.
  2: { unfold observeGasPriceUpdates. by rewrite Hest. }
  rewrite (observeGasPriceUpdates_outcome p est Hest).
  destruct (GetTokenPricesUSD _ _) as [e|prices]; [done|].
  destruct (prices !! _) as [native|]; [|done].
  destruct (GetGasPrice est) as [e|[gas|]]; [done| |done].
  by destruct (DenoteInUSD est gas native).
Qed.

Lemma runGasPriceUpdate_no_panic (p : priceService) :
  (runGasPriceUpdate p).1 <> Panic.
Proof.
  rewrite runGasPriceUpdate_outcome.
  destruct (gasPriceEstimator p); [|done].
  pose proof (observeGasPriceUpdates_no_panic p) as Hnp.
  destruct (observeGasPriceUpdates p).1 as [[usd|]|e|]; try done.
  by destruct (UpsertGasPricesForDestChain _ _ _).
Qed.

Lemma noUpsert_rowsNonNil (t : list Event) : noUpsert t -> Forall rowsNonNil t.
Proof. intros Hno. eapply Forall_impl; [exact Hno|]. by intros []. Qed.

Lemma runGasPriceUpdate_rowsNonNil (p : priceService) :
  Forall rowsNonNil (runGasPriceUpdate p).2.
Proof.
  rewrite runGasPriceUpdate_trace.
  apply Forall_app. split; [by repeat constructor|].
  apply Forall_app. split; [|by repeat constructor].
  destruct (gasPriceEstimator p); [|by repeat constructor].
  apply Forall_app. split.
  - apply noUpsert_rowsNonNil, observeGasPriceUpdates_noUpsert.
  - destruct (observeGasPriceUpdates p).1 as [[usd|]|e|]; try constructor; [|done].
    simpl. by repeat constructor.
Qed.

Lemma observed_prices_non_nil (p : priceService) (prices : gmap Address (option Z)) :
  (observeTokenPriceUpdates p).1 = Ok prices ->
  forall a, prices !! a <> Some None.
Proof.
  intros Hok.
  destruct (observeTokenPriceUpdates_success p prices Hok)
    as (reader & fetched & missing & decimals & _ & _ & _
        & Hnil & _ & Hlen & Hloop & _).
  destruct (normalizeLoop_destTokens _ _ _ Hnil Hlen) as (prices' & Hloop' & _ & Hnn & _).
  rewrite Hloop in Hloop'. by injection Hloop' as <-.
Qed.

Lemma runTokenPriceUpdate_rowsNonNil (p : priceService) :
  Forall rowsNonNil (runTokenPriceUpdate p).2.
Proof.
  rewrite runTokenPriceUpdate_trace.
  apply Forall_app. split; [by repeat constructor|].
  apply Forall_app. split; [|by repeat constructor].
  destruct (destPriceRegistryReader p); [|by repeat constructor].
  apply Forall_app. split.
  - apply noUpsert_rowsNonNil, observeTokenPriceUpdates_noUpsert.
  - destruct (observeTokenPriceUpdates p).1 as [prices|e|] eqn:Hobs; try constructor;
      [|done].
    simpl. apply Forall_forall. intros row Hrow%tokenPriceRows_elem_of.
    pose proof (observed_prices_non_nil p prices Hobs (TokenAddr row)) as Hnn.
    destruct (TokenPrice_ row); [eauto|done].
Qed.

(** UpdateDynamicConfig, unfolded: the swap under the exclusive lock, the
    gas cycle, the token cycle, a log line for each cycle that failed, and
    [return nil]. *)
Lemma UpdateDynamicConfig_unfold (p : priceService)
    (estimator : option GasPriceEstimatorCommit)
    (reader : option PriceRegistryReader) :
  let p' := setDynamicConfig p estimator reader in
  UpdateDynamicConfig p estimator reader
  = (p',
     (Ok tt,
      [EvLock; EvUnlock]
      ++ (runGasPriceUpdate p').2
      ++ match (runGasPriceUpdate p').1 with
         | Err _ =>
             [EvLog Error "Error when updating gas prices after dynamic config update"]
         | _ => []
         end
      ++ (runTokenPriceUpdate p').2
      ++ match (runTokenPriceUpdate p').1 with
         | Err _ =>
             [EvLog Error "Error when updating token prices after dynamic config update"]
         | _ => []
         end)).
Proof.
  intros p'. unfold UpdateDynamicConfig. fold p'. f_equal.
  pose proof (runGasPriceUpdate_no_panic p') as Hgas.
  pose proof (runTokenPriceUpdate_no_panic p') as Htoken.
  destruct (runGasPriceUpdate p') as [[[]|e1|] t1];
    destruct (runTokenPriceUpdate p') as [[[]|e2|] t2]; simpl in *; try done;
    by rewrite <- ?app_assoc, ?app_nil_r.
Qed.

(** C7: every row the service hands to the two upsert operations, in a gas
    cycle, in a token cycle and in the cycles UpdateDynamicConfig
    triggers, carries a non-nil price.  A nil gas price is not written:
    writeGasPricesToDB returns at once, the cycle succeeds without any
    write, and a gas write carries exactly the observed non-nil value.  A
    nil price anywhere in the working set makes the token observation
    fail, the cycle returns the error and writes nothing; a token write
    carries exactly the entries of the observed map. *)
Theorem persisted_values_non_nil (p : priceService) :
  Forall rowsNonNil (runGasPriceUpdate p).2
  /\ Forall rowsNonNil (runTokenPriceUpdate p).2
  /\ (forall estimator reader,
        Forall rowsNonNil (UpdateDynamicConfig p estimator reader).2.2)
  /\ writeGasPricesToDB p None = (Ok tt, [])
  /\ ((observeGasPriceUpdates p).1 = Ok None ->
        (runGasPriceUpdate p).1 = Ok tt /\ noUpsert (runGasPriceUpdate p).2)
  /\ (forall dest rows,
        EvUpsertGasPrices dest rows ∈ (runGasPriceUpdate p).2 ->
        exists usd,
          (observeGasPriceUpdates p).1 = Ok (Some usd)
          /\ dest = destChainSelector p
          /\ rows = [mkGasPrice (sourceChainSelector p) (Some usd)])
  /\ (forall reader fetched missing tokenID,
        destPriceRegistryReader p = Some reader ->
        GetJobSpecTokenPricesUSD (priceGetter p) = inr fetched ->
        (findMissingDestNativeTokenPrice p reader fetched).1 = Ok missing ->
        backfill p fetched missing !! tokenID = Some None ->
        (observeTokenPriceUpdates p).1 = Err (ErrNew "token price is nil for token")
        /\ (runTokenPriceUpdate p).1
           = Err (ErrWrap "failed to observe token price updates"
                    (ErrNew "token price is nil for token"))
        /\ noUpsert (runTokenPriceUpdate p).2)
  /\ (forall dest rows ttl,
        EvUpsertTokenPrices dest rows ttl ∈ (runTokenPriceUpdate p).2 ->
        exists prices,
          (observeTokenPriceUpdates p).1 = Ok prices
          /\ dest = destChainSelector p
          /\ (forall row, row ∈ rows
                          <-> prices !! TokenAddr row = Some (TokenPrice_ row))
          /\ (forall row, row ∈ rows -> is_Some (TokenPrice_ row))).
Proof.
  split; [apply runGasPriceUpdate_rowsNonNil|].
  split; [apply runTokenPriceUpdate_rowsNonNil|].
  split.
  { intros estimator reader.
    rewrite (UpdateDynamicConfig_unfold p estimator reader). simpl.
    do 2 constructor; [done..|].
    apply Forall_app. split; [apply runGasPriceUpdate_rowsNonNil|].
    apply Forall_app. split; [by destruct (runGasPriceUpdate _).1; repeat constructor|].
    apply Forall_app. split; [apply runTokenPriceUpdate_rowsNonNil|].
    by destruct (runTokenPriceUpdate _).1; repeat constructor. }
  split; [done|].
  split.
  { intros Hobs.
    assert (is_Some (gasPriceEstimator p)) as [est Hest].
    { destruct (gasPriceEstimator p) eqn:Hest; [eauto|].
      unfold observeGasPriceUpdates in Hobs. by rewrite Hest in Hobs. }
    rewrite runGasPriceUpdate_outcome, runGasPriceUpdate_trace, Hest, Hobs.
    split; [done|].
    apply noUpsert_app. split; [by repeat constructor|].
    apply noUpsert_app. split; [|by repeat constructor].
    rewrite app_nil_r. apply observeGasPriceUpdates_noUpsert. }
  split.
  { intros dest rows. rewrite runGasPriceUpdate_trace.
    pose proof (observeGasPriceUpdates_noUpsert p) as Hno.
    unfold noUpsert in Hno. rewrite Forall_forall in Hno.
    intros Hin.
    assert (EvUpsertGasPrices dest rows ∉ (observeGasPriceUpdates p).2) as Hnotin.
    { intros Hin'. by apply Hno in Hin'. }
    destruct (gasPriceEstimator p); [|in_trace Hin].
    destruct (observeGasPriceUpdates p).1 as [[usd|]|e|]; try in_trace Hin.
    exists usd. split; [done|].
    assert (EvUpsertGasPrices dest rows
            = EvUpsertGasPrices (destChainSelector p)
                [mkGasPrice (sourceChainSelector p) (Some usd)]) as Heq
      by in_trace Hin.
    by injection Heq as -> ->. }
  split.
  { intros reader fetched missing tokenID Hreader Hfetch Hfound Hnil.
    assert ((observeTokenPriceUpdates p).1
            = Err (ErrNew "token price is nil for token")) as Hobs.
    { rewrite (observeTokenPriceUpdates_cases p reader Hreader), Hfetch. simpl.
      rewrite Hfound.
      destruct (firstNilPrice _) eqn:Hfirst; [done|].
      apply firstNilPrice_map_None with (tokenID := tokenID) (price := None)
        in Hfirst as [? [=]]. done. }
    split; [done|].
    destruct (runTokenPriceUpdate_observe_fails p _ Hobs) as [Hrun Hno].
    split; [apply Hrun; eauto|done]. }
  intros dest rows ttl. rewrite runTokenPriceUpdate_trace.
  pose proof (observeTokenPriceUpdates_noUpsert p) as Hno.
  unfold noUpsert in Hno. rewrite Forall_forall in Hno.
  intros Hin.
  assert (EvUpsertTokenPrices dest rows ttl ∉ (observeTokenPriceUpdates p).2)
    as Hnotin.
  { intros Hin'. by apply Hno in Hin'. }
  destruct (destPriceRegistryReader p); [|in_trace Hin].
  destruct (observeTokenPriceUpdates p).1 as [prices|e|] eqn:Hobs; try in_trace Hin.
  exists prices. split; [done|].
  assert (EvUpsertTokenPrices dest rows ttl
          = EvUpsertTokenPrices (destChainSelector p) (tokenPriceRows prices)
              (tokenUpdateInterval p)) as Heq
    by in_trace Hin.
  injection Heq as -> -> ->. split; [done|].
  split; [intros row; apply tokenPriceRows_elem_of|].
  intros row Hrow%tokenPriceRows_elem_of.
  pose proof (observed_prices_non_nil p prices Hobs (TokenAddr row)) as Hnn.
  destruct (TokenPrice_ row); [eauto|done].
Qed.

Lemma persisted_values_non_nil_witness :
  ((runGasPriceUpdate nilService).1 = Ok tt
   /\ noUpsert (runGasPriceUpdate nilService).2)
  /\ (runTokenPriceUpdate nilService).1
     = Err (ErrWrap "failed to observe token price updates"
              (ErrNew "token price is nil for token"))
  /\ noUpsert (runTokenPriceUpdate nilService).2.
Proof.
  destruct (persisted_values_non_nil nilService)
    as (_ & _ & _ & _ & Hgas & _ & Htoken & _).
  split; [apply Hgas; reflexivity|].
  destruct (Htoken exampleReader {[ mkTokenID "0xBBB" 10 := None ]} None
              (mkTokenID "0xBBB" 10))
    as (_ & Hrun & Hno); try reflexivity.
  split; [exact Hrun|exact Hno].
Defined.

(** C6: UpdateDynamicConfig installs the given estimator and reader, and
    leaves every other field as it was; under the exclusive lock first,
    then it runs one gas-price cycle and one token-price cycle on the
    service holding the new pair; a cycle that fails adds an error log
    line and nothing else; the call returns nil in every case. *)
Theorem UpdateDynamicConfig_returns_nil (p : priceService)
    (estimator : option GasPriceEstimatorCommit)
    (reader : option PriceRegistryReader) :
  let r := UpdateDynamicConfig p estimator reader in
  let p' := r.1 in
  gasPriceEstimator p' = estimator
  /\ destPriceRegistryReader p' = reader
  /\ (orm p', destChainSelector p', sourceChainSelector p', sourceNative p',
      priceGetter p', offRampReader p', tokenUpdateInterval p', gasUpdateInterval p',
      jobId p')
     = (orm p, destChainSelector p, sourceChainSelector p, sourceNative p,
        priceGetter p, offRampReader p, tokenUpdateInterval p, gasUpdateInterval p,
        jobId p)
  /\ r.2.1 = Ok tt
  /\ r.2.2
     = [EvLock; EvUnlock]
       ++ (runGasPriceUpdate p').2
       ++ match (runGasPriceUpdate p').1 with
          | Err _ =>
              [EvLog Error "Error when updating gas prices after dynamic config update"]
          | _ => []
          end
       ++ (runTokenPriceUpdate p').2
       ++ match (runTokenPriceUpdate p').1 with
          | Err _ =>
              [EvLog Error "Error when updating token prices after dynamic config update"]
          | _ => []
          end.
Proof.
  intros r p'. subst r p'.
  rewrite (UpdateDynamicConfig_unfold p estimator reader). simpl.
  repeat split.
Qed.

(** A reconfiguration whose two cycles both fail at the database still
    returns nil. *)
Example UpdateDynamicConfig_failing_cycles :
  let r := UpdateDynamicConfig (exampleService failingORM None None)
             (Some exampleEstimator) (Some exampleReader) in
  (exists e, (runGasPriceUpdate r.1).1 = Err e)
  /\ (exists e, (runTokenPriceUpdate r.1).1 = Err e)
  /\ r.2.1 = Ok tt.
Proof. vm_compute. eauto. Qed.

(** ** dynamicConfigMu *)

Lemma count_insert {A} (P : A -> Prop) `{forall x, Decision (P x)}
    (l : list A) (i : nat) (x y : A) :
  l !! i = Some x ->
  (length (filter P (<[i := y]> l)) + (if decide (P x) then 1 else 0)
   = length (filter P l) + (if decide (P y) then 1 else 0))%nat.
Proof.
  revert i. induction l as [|z l IH]; intros [|i] Hl; simpl in *; try done.
  - injection Hl as ->. rewrite !filter_cons.
    destruct (decide (P x)), (decide (P y)); simpl; lia.
  - rewrite !filter_cons. specialize (IH i Hl).
    destruct (decide (P z)); simpl; lia.
Qed.

Lemma count_pos {A} (P : A -> Prop) `{forall x, Decision (P x)}
    (l : list A) (i : nat) (x : A) :
  l !! i = Some x -> P x -> (0 < length (filter P l))%nat.
Proof.
  intros Hl HP.
  assert (x ∈ filter P l) as Hin.
  { apply list_elem_of_filter. split; [done|]. by eapply list_elem_of_lookup_2. }
  destruct (filter P l); [by apply elem_of_nil in Hin|simpl; lia].
Qed.

Lemma count_zero {A} (P : A -> Prop) `{forall x, Decision (P x)}
    (l : list A) (i : nat) (x : A) :
  length (filter P l) = 0%nat -> l !! i = Some x -> ~ P x.
Proof.
  intros Hz Hl HP. pose proof (count_pos P l i x Hl HP). lia.
Qed.

Lemma lookup_insert_cases {A} (l : list A) (i j : nat) (x y : A) :
  <[i := x]> l !! j = Some y -> (j = i /\ y = x) \/ (j <> i /\ l !! j = Some y).
Proof.
  intros Hl. apply list_lookup_insert_Some in Hl as [(-> & -> & _)|[Hne Hl]]; eauto.
Qed.

(** A goroutine outside the mutex starts a call: either the swap of
    UpdateDynamicConfig or a cycle. *)
Lemma goroutine_next (pool : list (list invocation)) (calls : list invocation)
    (ins : instr) (rest : list instr) :
  goroutine calls = ins :: rest ->
  callsInstalled pool calls ->
  (ins = ILock
   /\ exists e r calls',
        rest = IWriteEstimator e :: IWriteReader r :: IUnlock :: goroutine calls'
        /\ installed pool (e, r)
        /\ callsInstalled pool calls')
  \/ (ins = IRLock
      /\ exists reads calls',
           rest = reads ++ IRUnlock :: goroutine calls'
           /\ Forall isRead reads
           /\ callsInstalled pool calls').
Proof.
  destruct calls as [|[e r g k|n|n] calls']; simpl; [done|..];
    intros [= <- <-] Hinst.
  - left. split; [done|].
    exists e, r, (CallRunGasPriceUpdate g :: CallRunTokenPriceUpdate k :: calls').
    split; [|split].
    + simpl. unfold runTokenPriceUpdate_accesses. by rewrite <- !app_assoc.
    + eapply Hinst. apply elem_of_cons. by left.
    + intros e' r' g' k' Hin. eapply Hinst.
      apply elem_of_cons. right.
      apply elem_of_cons in Hin as [[=]|Hin].
      apply elem_of_cons in Hin as [[=]|Hin]. done.
  - right. split; [done|].
    exists (replicate n IReadEstimator), calls'. split; [|split].
    + by rewrite <- app_assoc.
    + apply Forall_replicate. by left.
    + intros e' r' g' k' Hin. eapply Hinst. apply elem_of_cons. by right.
  - right. split; [done|].
    exists (replicate n IReadReader), calls'. split; [|split].
    + by rewrite <- app_assoc.
    + apply Forall_replicate. by right.
    + intros e' r' g' k' Hin. eapply Hinst. apply elem_of_cons. by right.
Qed.

(** A goroutine that is outside the mutex does not depend on the pair. *)
Lemma threadInv_NoLock (pool : list (list invocation)) (c c' : DynamicConfig)
    (t : thread) :
  holds t = NoLock -> threadInv pool c t -> threadInv pool c' t.
Proof. unfold threadInv. intros ->. done. Qed.

Lemma initial_inv (pool : list (list invocation)) : systemInv pool (initial pool).
Proof.
  assert (forall i t, threads (initial pool) !! i = Some t ->
            holds t = NoLock /\ seen t = []
            /\ exists calls, calls ∈ pool /\ todo t = goroutine calls) as Hthreads.
  { intros i t Hl. simpl in Hl. apply list_lookup_fmap_Some in Hl as (calls & -> & Hl).
    repeat split. exists calls. split; [|done]. by eapply list_elem_of_lookup_2. }
  split; simpl.
  - clear Hthreads. induction pool as [|calls pool IH]; [done|].
    rewrite fmap_cons, filter_cons. simpl.
    by destruct (decide (NoLock = Shared)).
  - done.
  - intros i t Hl Hex. destruct (Hthreads i t Hl) as (Hno & _). congruence.
  - intros i j ti tj Hi _ Hex. destruct (Hthreads i ti Hi) as (Hno & _). congruence.
  - intros _. by left.
  - intros i t Hl. destruct (Hthreads i t Hl) as (Hno & Hseen & calls & Hin & Htodo).
    unfold threadInv. rewrite Hno, Hseen. split.
    + exists (None, None). split; [by left|constructor].
    + exists calls. split; [done|].
      intros e r g k Hcall. right. exists calls, g, k. done.
Qed.

(** While a goroutine holds the exclusive lock, every other goroutine is
    outside the mutex. *)
Lemma exclusive_alone (pool : list (list invocation)) (s : system)
    (i : nat) (t : thread) :
  systemInv pool s ->
  threads s !! i = Some t -> holds t = Exclusive ->
  forall j tj, j <> i -> threads s !! j = Some tj -> holds tj = NoLock.
Proof.
  intros Inv Hi Hex j tj Hne Hj.
  destruct (holds tj) eqn:Hh; [done| |].
  - pose proof (inv_exclusive _ _ Inv i t Hi Hex) as Hw.
    pose proof (inv_writer _ _ Inv Hw) as Hzero.
    rewrite (inv_count _ _ Inv) in Hzero.
    by destruct (count_zero (fun t => holds t = Shared) _ j tj Hzero Hj).
  - destruct Hne. by apply (inv_unique _ _ Inv j i tj t).
Qed.

(** While a goroutine holds the shared lock, the writer does not hold the
    mutex, so the pair is an installed one. *)
Lemma shared_excludes_writer (pool : list (list invocation)) (s : system)
    (i : nat) (t : thread) :
  systemInv pool s ->
  threads s !! i = Some t -> holds t = Shared ->
  writerHeld (mem s) = false /\ installed pool (config (mem s)).
Proof.
  intros Inv Hi Hsh.
  assert (writerHeld (mem s) = false) as Hw.
  { destruct (writerHeld (mem s)) eqn:Hw; [|done].
    pose proof (inv_writer _ _ Inv Hw) as Hzero.
    rewrite (inv_count _ _ Inv) in Hzero.
    by destruct (count_zero (fun t => holds t = Shared) _ i t Hzero Hi). }
  split; [done|]. by apply (inv_whole _ _ Inv).
Qed.

Lemma Forall_agrees_snoc (c : DynamicConfig) (l : list observation) (o : observation) :
  Forall (agrees c) l -> agrees c o -> Forall (agrees c) (l ++ [o]).
Proof. intros Hl Ho. apply Forall_app. split; [done|]. by constructor. Qed.

(** The threads after goroutine [i] moved, when the pair did not change. *)
Lemma threads_inv_same (pool : list (list invocation)) (c : DynamicConfig)
    (ths : list thread) (i : nat) (t' : thread) :
  (forall j tj, ths !! j = Some tj -> threadInv pool c tj) ->
  threadInv pool c t' ->
  forall j tj, <[i := t']> ths !! j = Some tj -> threadInv pool c tj.
Proof.
  intros Hall Ht' j tj [[-> ->]|[Hne Hj]]%lookup_insert_cases; eauto.
Qed.

(** The threads after goroutine [i] moved, when every other goroutine is
    outside the mutex. *)
Lemma threads_inv_alone (pool : list (list invocation)) (c c' : DynamicConfig)
    (ths : list thread) (i : nat) (t' : thread) :
  (forall j tj, ths !! j = Some tj -> threadInv pool c tj) ->
  (forall j tj, j <> i -> ths !! j = Some tj -> holds tj = NoLock) ->
  threadInv pool c' t' ->
  forall j tj, <[i := t']> ths !! j = Some tj -> threadInv pool c' tj.
Proof.
  intros Hall Hno Ht' j tj [[-> ->]|[Hne Hj]]%lookup_insert_cases; [done|].
  eapply threadInv_NoLock; eauto.
Qed.

Ltac count_shared Inv Hcnt Hholds :=
  simpl in Hcnt; rewrite ?Hholds in Hcnt; simpl in Hcnt |- *;
  rewrite (inv_count _ _ Inv) in *; lia.

(** Members of the thread list after goroutine [i] moved. *)
Ltac moved H := apply lookup_insert_cases in H as [[-> ->]|[? H]].

Lemma stepThread_inv (pool : list (list invocation)) (i : nat) (s s' : system) :
  systemInv pool s -> stepThread i s = Some s' -> systemInv pool s'.
Proof.
  intros Inv Hstep. unfold stepThread in Hstep.
  destruct (threads s !! i) as [t|] eqn:Hi; [|done].
  destruct (todo t) as [|ins rest] eqn:Htodo; [done|].
  destruct (exec ins (mem s) t rest) as [[m' t']|] eqn:Hexec; [|done].
  injection Hstep as <-.
  pose proof (inv_threads _ _ Inv i t Hi) as [Hseen Hpos].
  pose proof (count_insert (fun t => holds t = Shared) (threads s) i t t' Hi) as Hcnt.
  destruct (holds t) eqn:Hholds.
  - (* outside the mutex: the goroutine takes a lock *)
    destruct Hpos as (calls & Hgo & Hinst). rewrite Htodo in Hgo. symmetry in Hgo.
    assert (forall j tj, threads s !! j = Some tj -> holds tj = Exclusive ->
              writerHeld (mem s) = false -> False) as Hnoex.
    { intros j tj Hj Hex Hw. pose proof (inv_exclusive _ _ Inv j tj Hj Hex). congruence. }
    destruct (goroutine_next pool calls ins rest Hgo Hinst)
      as [(-> & e & r & calls' & -> & Her & Hinst')
         |(-> & reads & calls' & -> & Hreads & Hinst')]; simpl in Hexec.
    + destruct (writerHeld (mem s)) eqn:Hw; [done|].
      destruct (readerCount (mem s) =? 0)%nat eqn:Hzero; [|done].
      apply Nat.eqb_eq in Hzero. simpl in Hexec. injection Hexec as <- <-.
      split; simpl.
      * count_shared Inv Hcnt Hholds.
      * done.
      * done.
      * intros j k tj tk Hj Hk Hexj Hexk.
        moved Hj; moved Hk; try done; exfalso; eauto.
      * done.
      * apply threads_inv_same; [apply (inv_threads _ _ Inv)|].
        split; [done|]. simpl. exists calls'. split; [done|]. left. eauto.
    + destruct (writerHeld (mem s)) eqn:Hw; [done|].
      injection Hexec as <- <-.
      split; simpl.
      * count_shared Inv Hcnt Hholds.
      * by rewrite ?Hw.
      * intros j tj Hj Hex. moved Hj; [done|]. exfalso; eauto.
      * intros j k tj tk Hj Hk Hexj Hexk.
        moved Hj; moved Hk; try done; exfalso; eauto.
      * intros _. by apply (inv_whole _ _ Inv).
      * apply threads_inv_same; [apply (inv_threads _ _ Inv)|].
        split; simpl.
        -- exists (config (mem s)). split; [by apply (inv_whole _ _ Inv)|constructor].
        -- split; [constructor|]. eauto.
  - (* inside a cycle: a read, or the deferred RUnlock *)
    destruct Hpos as (Hagree & reads & calls & Htodo' & Hreads & Hinst).
    destruct (shared_excludes_writer pool s i t Inv Hi Hholds) as [Hw Hwhole].
    rewrite Htodo in Htodo'.
    assert (forall j tj, threads s !! j = Some tj -> holds tj = Exclusive -> False)
      as Hnoex.
    { intros j tj Hj Hex. pose proof (inv_exclusive _ _ Inv j tj Hj Hex). congruence. }
    destruct reads as [|rd reads']; simpl in Htodo'; injection Htodo' as -> ->.
    + simpl in Hexec. rewrite Hholds in Hexec. injection Hexec as <- <-.
      split; simpl.
      * count_shared Inv Hcnt Hholds.
      * by rewrite ?Hw.
      * intros j tj Hj Hex. moved Hj; [done|]. exfalso; eauto.
      * intros j k tj tk Hj Hk Hexj Hexk.
        moved Hj; moved Hk; try done; exfalso; eauto.
      * done.
      * apply threads_inv_same; [apply (inv_threads _ _ Inv)|].
        split; simpl; eauto.
    + apply Forall_cons in Hreads as [Hrd Hreads].
      assert (m' = mem s /\ holds t' = Shared /\ todo t' = reads' ++ IRUnlock :: goroutine calls
              /\ Forall (agrees (config (mem s))) (seen t')) as (-> & Hh' & Htodo' & Hseen').
      { destruct Hrd as [-> | ->]; simpl in Hexec; injection Hexec as <- <-; simpl;
          (repeat split; try done); by apply Forall_agrees_snoc. }
      split; simpl.
      * simpl in Hcnt. rewrite Hholds, Hh' in Hcnt. simpl in Hcnt.
        rewrite (inv_count _ _ Inv). lia.
      * apply (inv_writer _ _ Inv).
      * intros j tj Hj Hex. moved Hj; [congruence|]. exfalso; eauto.
      * intros j k tj tk Hj Hk Hexj Hexk.
        moved Hj; moved Hk; try congruence; exfalso; eauto.
      * done.
      * apply threads_inv_same; [apply (inv_threads _ _ Inv)|].
        split; [eauto|]. rewrite Hh'. eauto 10.
  - (* inside the swap *)
    destruct Hpos as (calls & Hinst & Hat).
    pose proof (inv_exclusive _ _ Inv i t Hi Hholds) as Hw.
    pose proof (exclusive_alone pool s i t Inv Hi Hholds) as Halone.
    assert (forall j tj, j <> i -> threads s !! j = Some tj -> holds tj = Exclusive -> False)
      as Hnoex.
    { intros j tj Hne Hj Hex. rewrite (Halone j tj Hne Hj) in Hex. done. }
    rewrite Htodo in Hat.
    destruct Hat as [(e & r & [= -> ->] & Her)|[(r & [= -> ->] & Her)|([= -> ->] & Hwhole)]];
      simpl in Hexec; rewrite ?Hholds in Hexec; injection Hexec as <- <-.
    + split; simpl.
      * count_shared Inv Hcnt Hholds.
      * apply (inv_writer _ _ Inv).
      * done.
      * intros j k tj tk Hj Hk Hexj Hexk.
        moved Hj; moved Hk; try done; exfalso; eauto.
      * by rewrite ?Hw.
      * eapply threads_inv_alone; [apply (inv_threads _ _ Inv)|done|].
        split; [done|]. simpl. rewrite ?Hholds. exists calls. split; [done|].
        right. left. eauto.
    + split; simpl.
      * count_shared Inv Hcnt Hholds.
      * apply (inv_writer _ _ Inv).
      * done.
      * intros j k tj tk Hj Hk Hexj Hexk.
        moved Hj; moved Hk; try done; exfalso; eauto.
      * by rewrite ?Hw.
      * eapply threads_inv_alone; [apply (inv_threads _ _ Inv)|done|].
        split; [done|]. simpl. rewrite ?Hholds. exists calls. split; [done|].
        right. right. done.
    + split; simpl.
      * count_shared Inv Hcnt Hholds.
      * done.
      * intros j tj Hj Hex. moved Hj; [done|]. exfalso; eauto.
      * intros j k tj tk Hj Hk Hexj Hexk.
        moved Hj; moved Hk; try done; exfalso; eauto.
      * done.
      * apply threads_inv_same; [apply (inv_threads _ _ Inv)|].
        split; [done|]. simpl. eauto.
Qed.

Lemma runSchedule_inv (pool : list (list invocation)) (schedule : list nat) :
  forall s s', systemInv pool s -> runSchedule schedule s = Some s' -> systemInv pool s'.
Proof.
  induction schedule as [|i schedule IH]; intros s s' Inv; simpl.
  - by intros [= <-].
  - destruct (stepThread i s) as [s1|] eqn:Hstep; [|done].
    apply IH. by eapply stepThread_inv.
Qed.

(** *** The cycles between [RLock] and [RUnlock] *)

Lemma noLock_app (t1 t2 : list Event) :
  noLock (t1 ++ t2) <-> noLock t1 /\ noLock t2.
Proof. apply Forall_app. Qed.

Lemma observeGasPriceUpdates_noLock (p : priceService) :
  noLock (observeGasPriceUpdates p).2.
Proof.
  unfold observeGasPriceUpdates, noLock.
  destruct (gasPriceEstimator p) as [est|]; [|constructor].
  destruct (GetTokenPricesUSD _ _) as [e|prices]; simpl; [by repeat constructor|].
  destruct (prices !! sourceNativeTokenID p) as [native|]; simpl;
    [|by repeat constructor].
  destruct (GetGasPrice est) as [e|[gas|]]; simpl;
    [by repeat constructor| |by repeat constructor].
  destruct (DenoteInUSD est gas native) as [e|usd]; simpl; by repeat constructor.
Qed.

Lemma observeTokenPriceUpdates_noLock (p : priceService) :
  noLock (observeTokenPriceUpdates p).2.
Proof.
  destruct (destPriceRegistryReader p) as [reader|] eqn:Hreader.
  2: { unfold observeTokenPriceUpdates. rewrite Hreader. constructor. }
  rewrite (observeTokenPriceUpdates_cases p reader Hreader).
  destruct (GetJobSpecTokenPricesUSD (priceGetter p)) as [e|fetched];
    [by repeat constructor|].
  simpl.
  assert (noLock (EvGetJobSpecTokenPricesUSD
                  :: (findMissingDestNativeTokenPrice p reader fetched).2)) as Ht1.
  { constructor; [done|].
    eapply Forall_impl; [apply findMissingDestNativeTokenPrice_trace|].
    by intros ev [->|[msg ->]]. }
  assert (forall t, noLock t ->
            noLock ((EvGetJobSpecTokenPricesUSD
                     :: (findMissingDestNativeTokenPrice p reader fetched).2) ++ t))
    as Happ.
  { intros t Ht. by apply noLock_app. }
  destruct (findMissingDestNativeTokenPrice p reader fetched).1
    as [missing|e|]; [|done..].
  destruct (firstNilPrice _); [done|].
  destruct (GetTokensDecimals reader _) as [e|decimals];
    [apply Happ; by repeat constructor|].
  destruct (length decimals =? length _)%nat;
    [|apply Happ; by repeat constructor].
  destruct (normalizeLoop _ _ _ _ _ _); simpl;
    rewrite <- ?app_assoc; apply Happ; by repeat constructor.
Qed.

(** Everything a gas cycle does lies between its [RLock] and its
    [RUnlock]. *)
Lemma runGasPriceUpdate_bracket (p : priceService) :
  exists body,
    (runGasPriceUpdate p).2 = [EvRLock] ++ body ++ [EvRUnlock] /\ noLock body.
Proof.
  rewrite runGasPriceUpdate_trace. eexists. split; [reflexivity|].
  destruct (gasPriceEstimator p); [|by repeat constructor].
  apply noLock_app. split; [apply observeGasPriceUpdates_noLock|].
  by destruct (observeGasPriceUpdates p).1 as [[usd|]|e|]; repeat constructor.
Qed.

Lemma runTokenPriceUpdate_bracket (p : priceService) :
  exists body,
    (runTokenPriceUpdate p).2 = [EvRLock] ++ body ++ [EvRUnlock] /\ noLock body.
Proof.
  rewrite runTokenPriceUpdate_trace. eexists. split; [reflexivity|].
  destruct (destPriceRegistryReader p); [|by repeat constructor].
  apply noLock_app. split; [apply observeTokenPriceUpdates_noLock|].
  by destruct (observeTokenPriceUpdates p).1 as [prices|e|]; repeat constructor.
Qed.

Lemma mutexOpsOfTrace_app (t1 t2 : list Event) :
  mutexOpsOfTrace (t1 ++ t2) = mutexOpsOfTrace t1 ++ mutexOpsOfTrace t2.
Proof. apply omap_app. Qed.

Lemma mutexOpsOfTrace_noLock (t : list Event) : noLock t -> mutexOpsOfTrace t = [].
Proof.
  induction 1 as [|ev t Hev _ IH]; [done|].
  change (mutexOpsOfTrace (ev :: t))
    with (match lockInstr ev with
          | Some ins => ins :: mutexOpsOfTrace t
          | None => mutexOpsOfTrace t
          end).
  rewrite IH. by destruct ev.
Qed.

Lemma mutexOpsOfAccesses_app (p1 p2 : list instr) :
  mutexOpsOfAccesses (p1 ++ p2) = mutexOpsOfAccesses p1 ++ mutexOpsOfAccesses p2.
Proof. apply filter_app. Qed.

Lemma mutexOpsOfAccesses_reads (n : nat) (ins : instr) :
  isFieldAccess ins = true -> mutexOpsOfAccesses (replicate n ins) = [].
Proof.
  intros Hins. induction n as [|n IH]; [done|].
  change (replicate (S n) ins) with (ins :: replicate n ins).
  unfold mutexOpsOfAccesses in *. rewrite filter_cons, IH.
  destruct (decide (isFieldAccess ins = false)); [congruence|done].
Qed.

(** The mutex operations of the accesses of a call are those the call
    performs. *)
Lemma runGasPriceUpdate_mutexOps (p : priceService) (reads : nat) :
  mutexOpsOfTrace (runGasPriceUpdate p).2
  = mutexOpsOfAccesses (runGasPriceUpdate_accesses reads).
Proof.
  destruct (runGasPriceUpdate_bracket p) as (body & -> & Hbody).
  unfold runGasPriceUpdate_accesses.
  rewrite !mutexOpsOfTrace_app, !mutexOpsOfAccesses_app.
  by rewrite (mutexOpsOfTrace_noLock body Hbody), mutexOpsOfAccesses_reads.
Qed.

Lemma runTokenPriceUpdate_mutexOps (p : priceService) (reads : nat) :
  mutexOpsOfTrace (runTokenPriceUpdate p).2
  = mutexOpsOfAccesses (runTokenPriceUpdate_accesses reads).
Proof.
  destruct (runTokenPriceUpdate_bracket p) as (body & -> & Hbody).
  unfold runTokenPriceUpdate_accesses.
  rewrite !mutexOpsOfTrace_app, !mutexOpsOfAccesses_app.
  by rewrite (mutexOpsOfTrace_noLock body Hbody), mutexOpsOfAccesses_reads.
Qed.

Lemma UpdateDynamicConfig_mutexOps (p : priceService)
    (estimator : option GasPriceEstimatorCommit)
    (reader : option PriceRegistryReader) (gasReads tokenReads : nat) :
  mutexOpsOfTrace (UpdateDynamicConfig p estimator reader).2.2
  = mutexOpsOfAccesses
      (UpdateDynamicConfig_accesses estimator reader gasReads tokenReads).
Proof.
  rewrite (UpdateDynamicConfig_unfold p estimator reader). simpl.
  unfold UpdateDynamicConfig_accesses.
  rewrite !mutexOpsOfTrace_app, !mutexOpsOfAccesses_app.
  rewrite (runGasPriceUpdate_mutexOps _ gasReads),
          (runTokenPriceUpdate_mutexOps _ tokenReads).
  assert (forall (r : outcome unit) msg,
            mutexOpsOfTrace match r with Err _ => [EvLog Error msg] | _ => [] end = [])
    as Hlog.
  { by intros [[]|e|] msg. }
  rewrite !Hlog. simpl. by rewrite app_nil_r.
Qed.

(** C9: in every interleaving of goroutines that call UpdateDynamicConfig
    and the two cycles, (1) while one goroutine holds the exclusive lock
    of the swap every other goroutine is outside the mutex, so no cycle
    runs while the pair is half-updated; (2) while a goroutine is inside a
    cycle the pair is one that was installed as a whole (the initial pair
    or the two arguments of one UpdateDynamicConfig call) and every value
    the cycle has read from the two fields is a component of that pair;
    (3) the values read in any cycle, finished or not, belong to one
    installed pair.  In the code every cycle is bracketed by [RLock] and
    the deferred [RUnlock], with all its fetches and writes in between,
    the swap is bracketed by [Lock] and [Unlock], and the mutex operations
    of the interleaved goroutines are those the calls perform. *)
Theorem config_swap_atomic (pool : list (list invocation)) (schedule : list nat)
    (s : system) :
  runSchedule schedule (initial pool) = Some s ->
  (forall i j ti tj,
     threads s !! i = Some ti -> threads s !! j = Some tj ->
     holds ti = Exclusive -> j <> i -> holds tj = NoLock)
  /\ (forall i t,
        threads s !! i = Some t -> holds t = Shared ->
        writerHeld (mem s) = false
        /\ installed pool (config (mem s))
        /\ Forall (agrees (config (mem s))) (seen t))
  /\ (forall i t,
        threads s !! i = Some t ->
        exists c, installed pool c /\ Forall (agrees c) (seen t))
  /\ (forall p, exists body,
        (runGasPriceUpdate p).2 = [EvRLock] ++ body ++ [EvRUnlock] /\ noLock body)
  /\ (forall p, exists body,
        (runTokenPriceUpdate p).2 = [EvRLock] ++ body ++ [EvRUnlock] /\ noLock body)
  /\ (forall p estimator reader, exists cycles,
        (UpdateDynamicConfig p estimator reader).2.2 = [EvLock; EvUnlock] ++ cycles
        /\ Forall (fun ev => ev <> EvLock /\ ev <> EvUnlock) cycles)
  /\ (forall p estimator reader gasReads tokenReads,
        mutexOpsOfTrace (UpdateDynamicConfig p estimator reader).2.2
        = mutexOpsOfAccesses
            (UpdateDynamicConfig_accesses estimator reader gasReads tokenReads)
        /\ mutexOpsOfTrace (runGasPriceUpdate p).2
           = mutexOpsOfAccesses (runGasPriceUpdate_accesses gasReads)
        /\ mutexOpsOfTrace (runTokenPriceUpdate p).2
           = mutexOpsOfAccesses (runTokenPriceUpdate_accesses tokenReads)).
Proof.
  intros Hrun.
  pose proof (runSchedule_inv pool schedule _ _ (initial_inv pool) Hrun) as Inv.
  split.
  { intros i j ti tj Hi Hj Hex Hne.
    exact (exclusive_alone pool s i ti Inv Hi Hex j tj Hne Hj). }
  split.
  { intros i t Hi Hsh.
    destruct (shared_excludes_writer pool s i t Inv Hi Hsh) as [Hw Hwhole].
    repeat (split; [done|]).
    destruct (inv_threads _ _ Inv i t Hi) as [_ Hpos].
    rewrite Hsh in Hpos. by destruct Hpos. }
  split.
  { intros i t Hi. by destruct (inv_threads _ _ Inv i t Hi). }
  split; [apply runGasPriceUpdate_bracket|].
  split; [apply runTokenPriceUpdate_bracket|].
  split.
  2: { intros p estimator reader gasReads tokenReads.
       split; [apply UpdateDynamicConfig_mutexOps|].
       split; [apply runGasPriceUpdate_mutexOps|apply runTokenPriceUpdate_mutexOps]. }
  intros p estimator reader.
  rewrite (UpdateDynamicConfig_unfold p estimator reader). simpl.
  eexists. split; [reflexivity|].
  destruct (runGasPriceUpdate_bracket (setDynamicConfig p estimator reader))
    as (gasBody & -> & Hgas).
  destruct (runTokenPriceUpdate_bracket (setDynamicConfig p estimator reader))
    as (tokenBody & -> & Htoken).
  assert (forall body, noLock body ->
            Forall (fun ev => ev <> EvLock /\ ev <> EvUnlock) body) as Hweak.
  { intros body Hbody. eapply Forall_impl; [exact Hbody|].
    intros ev Hev. split; intros ->; done. }
  assert (forall (r : outcome unit) msg,
            Forall (fun ev => ev <> EvLock /\ ev <> EvUnlock)
              match r with Err _ => [EvLog Error msg] | _ => [] end) as Hlog.
  { intros [[]|e|] msg; by repeat constructor. }
  assert (forall body, noLock body ->
            Forall (fun ev => ev <> EvLock /\ ev <> EvUnlock)
                   ([EvRLock] ++ body ++ [EvRUnlock])) as Hbracket.
  { intros body Hbody. apply Forall_app. split; [by repeat constructor|].
    apply Forall_app. split; [by apply Hweak|by repeat constructor]. }
  apply Forall_app. split; [by apply Hbracket|].
  apply Forall_app. split; [apply Hlog|].
  apply Forall_app. split; [by apply Hbracket|apply Hlog].
Qed.

Lemma config_swap_atomic_witness :
  threads exampleState !! 1%nat = Some exampleTicker
  /\ Forall (agrees (Some exampleEstimator, Some exampleReader)) (seen exampleTicker).
Proof.
  assert (threads exampleState !! 1%nat = Some exampleTicker) as Ht.
  { reflexivity. }
  split; [exact Ht|].
  destruct (config_swap_atomic examplePool exampleSchedule exampleState)
    as (_ & Hcycle & _).
  { reflexivity. }
  pose proof (Hcycle 1%nat exampleTicker Ht eq_refl) as (_ & _ & Hseen).
  exact Hseen.
Defined.

(** A cycle cannot start while the swap holds the mutex, and the swap
    cannot start while a cycle runs. *)
Example swap_blocks_cycle :
  runSchedule [0; 1]%nat (initial examplePool) = None
  /\ runSchedule [1; 0]%nat (initial examplePool) = None
  /\ runSchedule [0; 0; 2]%nat (initial examplePool) = None.
Proof. vm_compute. done. Qed.

(** * Further properties of the code *)

(** ** The unit converter beyond [0,18] decimals and for any sign *)

(** X1: for a token with at most 18 decimals the conversion is an exact
    multiplication, [price * 10^(18 - decimals)], for a price of either
    sign: nothing is rounded. *)
Theorem unit_converter_scales_up (price : Z) (decimals : uint8) :
  (decimals <= 18)%N ->
  calculateUsdPer1e18TokenAmount price decimals
  = price * 10 ^ (18 - Z.of_N decimals).
Proof.
  intros Hd. rewrite calculateUsdPer1e18TokenAmount_div.
  replace (10 ^ 18) with (10 ^ (18 - Z.of_N decimals) * 10 ^ Z.of_N decimals).
  - rewrite Z.mul_assoc. apply Z.div_mul.
    apply Z.pow_nonzero; lia.
  - rewrite <- Z.pow_add_r by lia. f_equal. lia.
Qed.

Lemma unit_converter_scales_up_witness :
  calculateUsdPer1e18TokenAmount (-7) 6 = -7 * 10 ^ 12.
Proof. apply (unit_converter_scales_up (-7) 6). lia. Defined.

(** X2: for a token with 18 decimals or more the conversion divides the
    price by [10^(decimals - 18)] and rounds down; a non-negative price
    below that power becomes zero. *)
Theorem unit_converter_scales_down (price : Z) (decimals : uint8) :
  (18 <= decimals)%N ->
  calculateUsdPer1e18TokenAmount price decimals
  = price / 10 ^ (Z.of_N decimals - 18)
  /\ (0 <= price < 10 ^ (Z.of_N decimals - 18) ->
      calculateUsdPer1e18TokenAmount price decimals = 0).
Proof.
  intros Hd.
  assert (calculateUsdPer1e18TokenAmount price decimals
          = price / 10 ^ (Z.of_N decimals - 18)) as Heq.
  { rewrite calculateUsdPer1e18TokenAmount_div.
    replace (10 ^ Z.of_N decimals)
      with (10 ^ (Z.of_N decimals - 18) * 10 ^ 18).
    - apply Z.div_mul_cancel_r; apply Z.pow_nonzero; lia.
    - rewrite <- Z.pow_add_r by lia. f_equal. lia. }
  split; [exact Heq|].
  intros Hsmall. rewrite Heq. by apply Z.div_small.
Qed.

Lemma unit_converter_scales_down_witness :
  calculateUsdPer1e18TokenAmount 999 21 = 0.
Proof.
  destruct (unit_converter_scales_down 999 21) as [_ Hzero]; [lia|].
  apply Hzero. lia.
Defined.

(** X3: the conversion keeps the order of prices and the sign of a
    non-negative price, for every decimals value. *)
Theorem unit_converter_monotone (price price' : Z) (decimals : uint8) :
  price <= price' ->
  calculateUsdPer1e18TokenAmount price decimals
  <= calculateUsdPer1e18TokenAmount price' decimals
  /\ (0 <= price -> 0 <= calculateUsdPer1e18TokenAmount price decimals).
Proof.
  intros Hle. rewrite !calculateUsdPer1e18TokenAmount_div.
  assert (0 < 10 ^ Z.of_N decimals) as Hpos by (apply Z.pow_pos_nonneg; lia).
  split.
  - apply Z.div_le_mono; lia.
  - intros Hnn. apply Z.div_pos; lia.
Qed.

Lemma unit_converter_monotone_witness :
  calculateUsdPer1e18TokenAmount 3 200 <= calculateUsdPer1e18TokenAmount 5 200.
Proof. destruct (unit_converter_monotone 3 5 200) as [Hle _]; [lia|exact Hle]. Defined.

(** ** Cycles of an unconfigured service *)

Lemma quiet_not_call (ev : Event) :
  quiet ev ->
  match ev with
  | EvLog _ _ | EvLock | EvUnlock | EvRLock | EvRUnlock => True
  | _ => False
  end.
Proof. intros [Hl|(lvl & msg & ->)]; [by destruct ev|done]. Qed.

Lemma quiet_skip (msg : string) :
  Forall quiet ([EvRLock] ++ [EvLog Info msg] ++ [EvRUnlock]).
Proof.
  simpl. apply Forall_cons. split; [by left|].
  apply Forall_cons. split; [right; eauto|].
  apply Forall_cons. split; [by left|constructor].
Qed.

(** The effects of observeGasPriceUpdates, in order. *)
Lemma observeGasPriceUpdates_trace (p : priceService) :
  (observeGasPriceUpdates p).2
  = match gasPriceEstimator p with
    | None => []
    | Some est =>
        EvGetTokenPricesUSD [sourceNativeTokenID p]
        :: match GetTokenPricesUSD (priceGetter p) [sourceNativeTokenID p] with
           | inl _ => []
           | inr prices =>
               match prices !! sourceNativeTokenID p with
               | None => []
               | Some native =>
                   EvGetGasPrice
                   :: match GetGasPrice est with
                      | inr (Some gas) =>
                          EvDenoteInUSD gas native
                          :: match DenoteInUSD est gas native with
                             | inl _ => []
                             | inr _ =>
                                 [EvLog Info "PriceService observed latest gas price"]
                             end
                      | _ => []
                      end
               end
           end
    end.
Proof.
  unfold observeGasPriceUpdates.
  destruct (gasPriceEstimator p) as [est|]; [|done].
  destruct (GetTokenPricesUSD _ _) as [e|prices]; simpl; [done|].
  destruct (prices !! sourceNativeTokenID p) as [native|]; simpl; [|done].
  destruct (GetGasPrice est) as [e|[gas|]]; simpl; [done| |done].
  by destruct (DenoteInUSD est gas native) as [e|usd].
Qed.

(** X4: a gas cycle touches a collaborator or the database if and only if
    an estimator is set, and a token cycle if and only if a reader is set;
    without it the cycle returns nil after a log line.  The service
    NewPriceService returns has neither, with refresh intervals of one and
    ten minutes. *)
Theorem cycle_idle_iff_unconfigured (p : priceService) :
  (Forall quiet (runGasPriceUpdate p).2 <-> gasPriceEstimator p = None)
  /\ (Forall quiet (runTokenPriceUpdate p).2 <-> destPriceRegistryReader p = None)
  /\ (gasPriceEstimator p = None -> (runGasPriceUpdate p).1 = Ok tt)
  /\ (destPriceRegistryReader p = None -> (runTokenPriceUpdate p).1 = Ok tt)
  /\ (forall orm jobId dest source native getter offRamp,
        let fresh := NewPriceService orm jobId dest source native getter offRamp in
        gasPriceEstimator fresh = None
        /\ destPriceRegistryReader fresh = None
        /\ gasUpdateInterval fresh = 60 * 10 ^ 9
        /\ tokenUpdateInterval fresh = 600 * 10 ^ 9).
Proof.
  split; [|split; [|split; [|split]]].
  - rewrite runGasPriceUpdate_trace. split.
    + intros Hq. destruct (gasPriceEstimator p) as [est|] eqn:Hest; [|done].
      exfalso.
      apply Forall_app in Hq as [_ Hq]. apply Forall_app in Hq as [Hq _].
      apply Forall_app in Hq as [Hq _].
      rewrite observeGasPriceUpdates_trace, Hest in Hq.
      apply Forall_cons in Hq as [Hq _]. by apply quiet_not_call in Hq.
    + intros ->. apply quiet_skip.
  - rewrite runTokenPriceUpdate_trace. split.
    + intros Hq. destruct (destPriceRegistryReader p) as [reader|] eqn:Hreader; [|done].
      exfalso.
      apply Forall_app in Hq as [_ Hq]. apply Forall_app in Hq as [Hq _].
      apply Forall_app in Hq as [Hq _].
      rewrite (observeTokenPriceUpdates_cases p reader Hreader) in Hq.
      assert (forall (o : outcome (gmap Address (option Z))) t,
                Forall quiet (o, EvGetJobSpecTokenPricesUSD :: t).2 -> False) as Hno.
      { intros o t Ht. simpl in Ht. apply Forall_cons in Ht as [Ht _].
        by apply quiet_not_call in Ht. }
      destruct (GetJobSpecTokenPricesUSD (priceGetter p)) as [e|fetched];
        [by eapply Hno|].
      simpl in Hq.
      destruct (findMissingDestNativeTokenPrice p reader fetched).1;
        [|by eapply Hno..].
      destruct (firstNilPrice _); [by eapply Hno|].
      destruct (GetTokensDecimals reader _); [by eapply Hno|].
      destruct (length _ =? length _)%nat; [|by eapply Hno].
      destruct (normalizeLoop _ _ _ _ _ _); by eapply Hno.
    + intros ->. apply quiet_skip.
  - intros Hest. by rewrite runGasPriceUpdate_outcome, Hest.
  - intros Hreader. by rewrite runTokenPriceUpdate_outcome, Hreader.
  - intros. repeat split.
Qed.

Lemma cycle_idle_iff_unconfigured_witness :
  (runGasPriceUpdate freshService).1 = Ok tt
  /\ (runTokenPriceUpdate freshService).1 = Ok tt
  /\ Forall quiet (runGasPriceUpdate freshService).2.
Proof.
  destruct (cycle_idle_iff_unconfigured freshService)
    as (Hgas & _ & Hg & Ht & _).
  split; [apply Hg; reflexivity|].
  split; [apply Ht; reflexivity|].
  apply Hgas. reflexivity.
Defined.

(** ** Which collaborator is asked, and when *)



(** X6: the backward-compatibility resolver reads the destination-chain
    token lists if and only if the working set has no entry for the
    destination-native TokenID; with an entry, even a nil one, it returns
    no substitute without touching the readers.  The same holds for the
    token observation as a whole. *)
Theorem resolver_reads_chain_iff_missing (p : priceService)
    (reader : PriceRegistryReader) (tokenPrices : gmap TokenID (option Z)) :
  (EvGetDestinationTokens ∈ (findMissingDestNativeTokenPrice p reader tokenPrices).2
   <-> tokenPrices !! destNativeTokenID p = None)
  /\ (is_Some (tokenPrices !! destNativeTokenID p) ->
      (findMissingDestNativeTokenPrice p reader tokenPrices).1 = Ok None)
  /\ (destPriceRegistryReader p = Some reader ->
      GetJobSpecTokenPricesUSD (priceGetter p) = inr tokenPrices ->
      (EvGetDestinationTokens ∈ (observeTokenPriceUpdates p).2
       <-> tokenPrices !! destNativeTokenID p = None)).
Proof.
  assert (EvGetDestinationTokens ∈ (findMissingDestNativeTokenPrice p reader tokenPrices).2
          <-> tokenPrices !! destNativeTokenID p = None) as Hres.
  { unfold findMissingDestNativeTokenPrice.
    destruct (tokenPrices !! destNativeTokenID p) as [d|]; simpl.
    { split; [intros Hin; in_trace Hin|done]. }
    split; [done|]. intros _.
    destruct (GetDestinationTokens _ _) as [e|[fee bridged]]; simpl.
    { apply elem_of_cons. by left. }
    destruct (slices_Contains _ _); simpl;
      [destruct (tokenPrices !! sourceNativeTokenID p) as [[?|]|]; simpl|];
      apply elem_of_cons; by left. }
  split; [exact Hres|]. split.
  { intros [d Hd]. rewrite findMissingDestNativeTokenPrice_outcome. by rewrite Hd. }
  intros Hreader Hfetch. rewrite <- Hres.
  rewrite (observeTokenPriceUpdates_cases p reader Hreader), Hfetch. simpl.
  set (t := (findMissingDestNativeTokenPrice p reader tokenPrices).2).
  assert (forall t', EvGetDestinationTokens ∉ t' ->
            EvGetDestinationTokens ∈ (EvGetJobSpecTokenPricesUSD :: t) ++ t'
            <-> EvGetDestinationTokens ∈ t) as Happ.
  { intros t' Hno. rewrite elem_of_app, elem_of_cons.
    split; [intros [[[=]|?]|?]; done|eauto]. }
  assert (EvGetDestinationTokens ∈ EvGetJobSpecTokenPricesUSD :: t
          <-> EvGetDestinationTokens ∈ t) as Hcons.
  { rewrite elem_of_cons. split; [intros [[=]|?]; done|eauto]. }
  destruct (findMissingDestNativeTokenPrice p reader tokenPrices).1; [|done..].
  destruct (firstNilPrice _); [done|].
  destruct (GetTokensDecimals reader _).
  { simpl. apply Happ. intros Hin. in_trace Hin. }
  destruct (length _ =? length _)%nat.
  2: { simpl. apply Happ. intros Hin. in_trace Hin. }
  destruct (normalizeLoop _ _ _ _ _ _); simpl;
    rewrite <- ?app_assoc; apply Happ; intros Hin; in_trace Hin.
Qed.

Lemma resolver_reads_chain_iff_missing_witness :
  (findMissingDestNativeTokenPrice configuredService exampleReader
     {[ mkTokenID "0xAAA" 10 := None ]}).1 = Ok None.
Proof.
  destruct (resolver_reads_chain_iff_missing configuredService exampleReader
              {[ mkTokenID "0xAAA" 10 := None ]}) as (_ & Hpresent & _).
  apply Hpresent. eexists. reflexivity.
Defined.

(** ** The token observation at its edges *)

(** An event is in a trace given by its pieces. *)
Ltac trace_has :=
  repeat (rewrite elem_of_cons || rewrite elem_of_app);
  intuition.

Lemma findMissingDestNativeTokenPrice_Some (p : priceService)
    (reader : PriceRegistryReader) (tokenPrices : gmap TokenID (option Z)) (v : Z) :
  (findMissingDestNativeTokenPrice p reader tokenPrices).1 = Ok (Some v) ->
  tokenPrices !! destNativeTokenID p = None
  /\ tokenPrices !! sourceNativeTokenID p = Some (Some v).
Proof.
  rewrite findMissingDestNativeTokenPrice_outcome.
  destruct (tokenPrices !! destNativeTokenID p) as [d|]; [done|].
  destruct (GetDestinationTokens _ _) as [e|[fee bridged]]; [done|].
  destruct (slices_Contains _ _); [|done].
  destruct (tokenPrices !! sourceNativeTokenID p) as [[w|]|]; try done.
  by intros [= ->].
Qed.

(** X7: when the resolver substitutes a price and the observation
    succeeds, the returned map holds, under the source-native address, the
    source-native price of the job spec converted with the decimals the
    reader reported at the position of that address in the request. *)
Theorem backfilled_price_is_observed (p : priceService)
    (reader : PriceRegistryReader) (fetched : gmap TokenID (option Z))
    (v : Z) (result : gmap Address (option Z)) :
  destPriceRegistryReader p = Some reader ->
  GetJobSpecTokenPricesUSD (priceGetter p) = inr fetched ->
  (findMissingDestNativeTokenPrice p reader fetched).1 = Ok (Some v) ->
  (observeTokenPriceUpdates p).1 = Ok result ->
  fetched !! sourceNativeTokenID p = Some (Some v)
  /\ exists i d decimals,
       GetTokensDecimals reader
         (sortedDestTokens (destChainSelector p) (backfill p fetched (Some v)))
       = inr decimals
       /\ sortedDestTokens (destChainSelector p) (backfill p fetched (Some v)) !! i
          = Some (sourceNative p)
       /\ decimals !! i = Some d
       /\ result !! sourceNative p
          = Some (Some (calculateUsdPer1e18TokenAmount v d)).
Proof.
  intros Hreader Hfetch Hfound Hok.
  destruct (findMissingDestNativeTokenPrice_Some p reader fetched v Hfound)
    as [Hdest Hsrc].
  split; [done|].
  destruct (observeTokenPriceUpdates_success p result Hok)
    as (reader' & fetched' & missing' & decimals & Hreader' & Hfetch' & Hfound'
        & Hnil & Hdec & Hlen & Hloop & _).
  assert (reader' = reader) as -> by congruence.
  assert (fetched' = fetched) as -> by congruence.
  assert (missing' = Some v) as -> by congruence.
  destruct (normalizeLoop_destTokens _ _ _ Hnil Hlen)
    as (prices & Hloop' & _ & _ & Hvalues).
  rewrite Hloop in Hloop'. injection Hloop' as <-.
  assert (sourceNative p
          ∈ sortedDestTokens (destChainSelector p) (backfill p fetched (Some v)))
    as Hin.
  { apply sortedDestTokens_elem_of. simpl.
    unfold destNativeTokenID. rewrite lookup_insert_eq. eauto. }
  apply list_elem_of_lookup in Hin as [i Hi].
  destruct (Hvalues i _ Hi) as (price & d & Hprice & Hd & Hres).
  simpl in Hprice. unfold destNativeTokenID in Hprice.
  rewrite lookup_insert_eq in Hprice. injection Hprice as <-.
  exists i, d, decimals. done.
Qed.

Lemma backfilled_price_is_observed_witness :
  exists d,
    examplePrices !! "0xAAA"
    = Some (Some (calculateUsdPer1e18TokenAmount (2 * 10 ^ 18) d)).
Proof.
  destruct (backfilled_price_is_observed configuredService exampleReader
              (<[ mkTokenID "0xAAA" 1 := Some (2 * 10 ^ 18) ]>
                 {[ mkTokenID "0xBBB" 10 := Some (1 * 10 ^ 18) ]})
              (2 * 10 ^ 18) examplePrices)
    as (_ & i & d & decimals & _ & _ & _ & Hres).
  - reflexivity.
  - reflexivity.
  - vm_compute. reflexivity.
  - vm_compute. reflexivity.
  - exists d. exact Hres.
Defined.

(** X8: a job spec without any token still reads the destination token
    lists; when that read fails the observation fails, otherwise decimals
    are requested for the empty list and, answered with the empty list,
    the observation returns the empty map and the cycle sends one upsert
    without rows. *)
Theorem empty_job_spec (p : priceService) (reader : PriceRegistryReader) :
  destPriceRegistryReader p = Some reader ->
  GetJobSpecTokenPricesUSD (priceGetter p) = inr ∅ ->
  (forall e, GetDestinationTokens (offRampReader p) reader = inl e ->
     (observeTokenPriceUpdates p).1
     = Err (ErrWrap "find missing dest native token price"
              (ErrWrap "get destination tokens" e)))
  /\ (forall tokens, GetDestinationTokens (offRampReader p) reader = inr tokens ->
        EvGetTokensDecimals [] ∈ (observeTokenPriceUpdates p).2
        /\ (observeTokenPriceUpdates p).1
           = match GetTokensDecimals reader [] with
             | inl e => Err (ErrWrap "get tokens decimals" e)
             | inr [] => Ok ∅
             | inr (_ :: _) => Err (ErrNew "mismatched token decimals and tokens")
             end
        /\ (GetTokensDecimals reader [] = inr [] ->
            EvUpsertTokenPrices (destChainSelector p) [] (tokenUpdateInterval p)
            ∈ (runTokenPriceUpdate p).2)).
Proof.
  intros Hreader Hfetch.
  pose proof (observeTokenPriceUpdates_cases p reader Hreader) as Hcases.
  rewrite Hfetch in Hcases. simpl in Hcases.
  pose proof (findMissingDestNativeTokenPrice_outcome p reader ∅) as Hout.
  rewrite !lookup_empty in Hout.
  split.
  - intros e He. rewrite He in Hout. rewrite Hcases, Hout. done.
  - intros [fee bridged] Htokens. rewrite Htokens in Hout.
    assert ((findMissingDestNativeTokenPrice p reader ∅).1 = Ok None) as Hnone.
    { rewrite Hout. by destruct (slices_Contains _ _). }
    rewrite Hnone in Hcases. simpl in Hcases.
    assert (sortedDestTokens (destChainSelector p) ∅ = []) as Hsorted.
    { unfold sortedDestTokens. by rewrite map_to_list_empty. }
    rewrite map_to_list_empty, Hsorted in Hcases. simpl in Hcases.
    assert (EvGetTokensDecimals [] ∈ (observeTokenPriceUpdates p).2) as Hreq.
    { rewrite Hcases.
      destruct (GetTokensDecimals reader []) as [e|[|d decimals]]; simpl;
        trace_has. }
    split; [exact Hreq|]. split.
    + rewrite Hcases. by destruct (GetTokensDecimals reader []) as [e|[|d decimals]].
    + intros Hdec. rewrite Hdec in Hcases. cbn in Hcases.
      rewrite runTokenPriceUpdate_trace, Hreader, Hcases. cbn.
      trace_has.
Qed.

Lemma empty_job_spec_witness :
  (observeTokenPriceUpdates emptySpecService).1 = Ok ∅
  /\ EvUpsertTokenPrices 10 [] (600 * 10 ^ 9)
     ∈ (runTokenPriceUpdate emptySpecService).2.
Proof.
  destruct (empty_job_spec emptySpecService exampleReader eq_refl eq_refl)
    as [_ Hok].
  destruct (Hok (["0xAAA"], ["0xBBB"; "0xAAA"]) eq_refl) as (_ & Hobs & Hwrite).
  split; [exact Hobs|]. apply Hwrite. reflexivity.
Defined.

(** ** What a cycle returns and writes *)

Lemma writes_app (t1 t2 : list Event) : writes (t1 ++ t2) = writes t1 ++ writes t2.
Proof. apply filter_app. Qed.

Lemma writes_noUpsert (t : list Event) : noUpsert t -> writes t = [].
Proof.
  induction 1 as [|ev t Hev _ IH]; [done|].
  unfold writes in *. rewrite filter_cons, IH.
  destruct (decide (isUpsert ev = true)); [congruence|done].
Qed.

(** X9: a gas cycle returns nil exactly when no estimator is set, or the
    observed price is nil, or the one write succeeds; a failed write comes
    back wrapped as "failed to write gas prices to db".  The cycle writes
    at most once, and exactly once when it observed a non-nil price. *)
Theorem gas_cycle_result (p : priceService) :
  ((runGasPriceUpdate p).1 = Ok tt <->
   gasPriceEstimator p = None
   \/ (observeGasPriceUpdates p).1 = Ok None
   \/ exists usd n,
        (observeGasPriceUpdates p).1 = Ok (Some usd)
        /\ UpsertGasPricesForDestChain (orm p) (destChainSelector p)
             [mkGasPrice (sourceChainSelector p) (Some usd)] = inr n)
  /\ (forall usd e,
        (observeGasPriceUpdates p).1 = Ok (Some usd) ->
        UpsertGasPricesForDestChain (orm p) (destChainSelector p)
          [mkGasPrice (sourceChainSelector p) (Some usd)] = inl e ->
        (runGasPriceUpdate p).1 = Err (ErrWrap "failed to write gas prices to db" e))
  /\ writes (runGasPriceUpdate p).2
     = match gasPriceEstimator p, (observeGasPriceUpdates p).1 with
       | Some _, Ok (Some usd) =>
           [EvUpsertGasPrices (destChainSelector p)
              [mkGasPrice (sourceChainSelector p) (Some usd)]]
       | _, _ => []
       end.
Proof.
  split; [|split].
  - rewrite runGasPriceUpdate_outcome.
    destruct (gasPriceEstimator p) as [est|] eqn:Hest; [|split; eauto].
    pose proof (observeGasPriceUpdates_no_panic p) as Hnp.
    destruct (observeGasPriceUpdates p).1 as [[usd|]|e|]; try done.
    + destruct (UpsertGasPricesForDestChain _ _ _) as [e|n] eqn:Hup.
      * split; [done|]. intros [[=]|[[=]|(usd' & n & [= <-] & Hn)]]. congruence.
      * split; [eauto 10|done].
    + split; eauto.
    + split; [done|]. by intros [[=]|[[=]|(usd' & n & [=] & _)]].
  - intros usd e Hobs Hup.
    rewrite runGasPriceUpdate_outcome, Hobs, Hup.
    destruct (gasPriceEstimator p) eqn:Hest; [done|].
    unfold observeGasPriceUpdates in Hobs. by rewrite Hest in Hobs.
  - rewrite runGasPriceUpdate_trace, !writes_app.
    destruct (gasPriceEstimator p) as [est|]; [|done].
    rewrite writes_app, (writes_noUpsert _ (observeGasPriceUpdates_noUpsert p)).
    by destruct (observeGasPriceUpdates p).1 as [[usd|]|e|].
Qed.

Lemma gas_cycle_result_witness :
  (runGasPriceUpdate failingWrites).1
  = Err (ErrWrap "failed to write gas prices to db" (ErrExternal "db down")).
Proof.
  destruct (gas_cycle_result failingWrites) as (_ & Hfail & _).
  apply (Hfail 10 (ErrExternal "db down")).
  - vm_compute. reflexivity.
  - reflexivity.
Defined.

Lemma insert_by_fmap {A B} (f : A -> B) (less : B -> B -> bool) (x : A) (l : list A) :
  f <$> insert_by (fun a b => less (f a) (f b)) x l
  = insert_by less (f x) (f <$> l).
Proof.
  induction l as [|y l IH]; [done|]. simpl.
  destruct (less (f x) (f y)); [done|].
  rewrite fmap_cons. f_equal. exact IH.
Qed.

Lemma sort_Slice_fmap {A B} (f : A -> B) (less : B -> B -> bool) (l : list A) :
  f <$> sort_Slice (fun a b => less (f a) (f b)) l
  = sort_Slice less (f <$> l).
Proof.
  induction l as [|x l IH]; [done|].
  unfold sort_Slice in *. rewrite fmap_cons. simpl.
  rewrite insert_by_fmap. f_equal. exact IH.
Qed.

(** X10: writeTokenPricesToDB sends one upsert for the destination chain
    with the token refresh interval as time to live; its rows are one per
    entry of the price map, in strictly ascending order of the token
    address, whatever order the map is ranged over.  The nil map sends
    nothing. *)
Theorem token_rows_sorted (p : priceService) (prices : gmap Address (option Z)) :
  let rows := tokenPriceRows prices in
  (writeTokenPricesToDB p (Some prices)).2
  = [EvUpsertTokenPrices (destChainSelector p) rows (tokenUpdateInterval p)]
  /\ writeTokenPricesToDB p None = (Ok tt, [])
  /\ ascending (TokenAddr <$> rows)
  /\ length rows = size prices
  /\ (forall row, row ∈ rows <-> prices !! TokenAddr row = Some (TokenPrice_ row))
  /\ (forall entries,
        entries ≡ₚ map_to_list prices ->
        TokenAddr <$> sort_Slice (fun a b => String.ltb (TokenAddr a) (TokenAddr b))
                        (tokenPriceRow <$> entries)
        = TokenAddr <$> rows).
Proof.
  intros rows.
  assert (forall entries : list (Address * option Z),
            TokenAddr <$> (tokenPriceRow <$> entries) = entries.*1) as Hkeys.
  { intros entries. rewrite <- list_fmap_compose. by apply list_fmap_ext. }
  assert (TokenAddr <$> rows
          = sort_Slice String.ltb ((map_to_list prices).*1)) as Hrows.
  { subst rows. unfold tokenPriceRows.
    by rewrite (sort_Slice_fmap TokenAddr String.ltb), Hkeys. }
  split.
  { unfold writeTokenPricesToDB. by destruct (UpsertTokenPricesForDestChain _ _ _ _). }
  split; [done|]. split.
  { rewrite Hrows. apply sort_strings_ascending, NoDup_fst_map_to_list. }
  split.
  { subst rows. unfold tokenPriceRows.
    by rewrite sort_Slice_length, length_fmap, length_map_to_list. }
  split; [intros row; apply tokenPriceRows_elem_of|].
  intros entries Hperm.
  rewrite (sort_Slice_fmap TokenAddr String.ltb), Hkeys, Hrows.
  apply sorted_perm_unique;
    eauto using string_ltb_asym, string_ltb_total, string_ltb_trans.
  - apply NoDup_fst_map_to_list.
  - by rewrite sort_Slice_perm, Hperm.
  - apply sort_Slice_strict;
      eauto using string_ltb_asym, string_ltb_total, string_ltb_trans.
    rewrite Hperm. apply NoDup_fst_map_to_list.
Qed.

(** X11: a token cycle with a reader set returns nil exactly when the
    observation and the one write succeed; a failed write comes back
    wrapped as "failed to write token prices to db".  It writes exactly
    once after a successful observation, the observed map, and never
    otherwise. *)
Theorem token_cycle_result (p : priceService) (reader : PriceRegistryReader) :
  destPriceRegistryReader p = Some reader ->
  ((runTokenPriceUpdate p).1 = Ok tt <->
   exists prices n,
     (observeTokenPriceUpdates p).1 = Ok prices
     /\ UpsertTokenPricesForDestChain (orm p) (destChainSelector p)
          (tokenPriceRows prices) (tokenUpdateInterval p) = inr n)
  /\ (forall prices e,
        (observeTokenPriceUpdates p).1 = Ok prices ->
        UpsertTokenPricesForDestChain (orm p) (destChainSelector p)
          (tokenPriceRows prices) (tokenUpdateInterval p) = inl e ->
        (runTokenPriceUpdate p).1
        = Err (ErrWrap "failed to write token prices to db" e))
  /\ writes (runTokenPriceUpdate p).2
     = match (observeTokenPriceUpdates p).1 with
       | Ok prices =>
           [EvUpsertTokenPrices (destChainSelector p) (tokenPriceRows prices)
              (tokenUpdateInterval p)]
       | _ => []
       end.
Proof.
  intros Hreader. split; [|split].
  - rewrite runTokenPriceUpdate_outcome, Hreader.
    destruct (observeTokenPriceUpdates p).1 as [prices|e|].
    + destruct (UpsertTokenPricesForDestChain _ _ _ _) as [e|n] eqn:Hup.
      * split; [done|]. intros (prices' & n & [= <-] & Hn). congruence.
      * split; [eauto|done].
    + split; [done|]. by intros (? & ? & [=] & _).
    + split; [done|]. by intros (? & ? & [=] & _).
  - intros prices e Hobs Hup.
    by rewrite runTokenPriceUpdate_outcome, Hreader, Hobs, Hup.
  - rewrite runTokenPriceUpdate_trace, Hreader, !writes_app.
    rewrite (writes_noUpsert _ (observeTokenPriceUpdates_noUpsert p)).
    by destruct (observeTokenPriceUpdates p).1 as [prices|e|].
Qed.

Lemma token_cycle_result_witness :
  (runTokenPriceUpdate failingWrites).1
  = Err (ErrWrap "failed to write token prices to db" (ErrExternal "db down")).
Proof.
  destruct (token_cycle_result failingWrites exampleReader eq_refl)
    as (_ & Hfail & _).
  apply (Hfail examplePrices (ErrExternal "db down")).
  - vm_compute. reflexivity.
  - reflexivity.
Defined.

(** ** The read API with several rows for one key *)

Lemma collectRows_snoc {R K} `{Countable K} (key : R -> K) (price : R -> option Z)
    (rows : list R) (row : R) :
  collectRows key price (rows ++ [row])
  = match price row with
    | Some w => <[key row := Some w]> (collectRows key price rows)
    | None => collectRows key price rows
    end.
Proof. unfold collectRows. by rewrite foldl_app. Qed.

Lemma collectRows_latest {R K} `{Countable K} (key : R -> K) (price : R -> option Z)
    (before : list R) (row : R) (w : Z) (after : list R) :
  price row = Some w ->
  (forall r, r ∈ after -> key r = key row -> price r = None) ->
  collectRows key price (before ++ row :: after) !! key row = Some (Some w).
Proof.
  intros Hrow. induction after as [|r after IH] using rev_ind; intros Hafter.
  - rewrite collectRows_snoc, Hrow. apply lookup_insert_eq.
  - replace (before ++ row :: after ++ [r]) with ((before ++ row :: after) ++ [r])
      by (by rewrite <- app_assoc).
    rewrite collectRows_snoc.
    assert (collectRows key price (before ++ row :: after) !! key row = Some (Some w))
      as Hprev.
    { apply IH. intros r' Hin. apply Hafter, elem_of_app. by left. }
    destruct (price r) as [w'|] eqn:Hr; [|done].
    rewrite lookup_insert_ne; [done|].
    intros Hkey. rewrite (Hafter r) in Hr; [done| |done].
    apply elem_of_app. right. apply elem_of_cons. by left.
Qed.

(** X12: when the database returns several rows for one source chain (or
    one token address), GetGasAndTokenPrices reports the price of the last
    of them that is not nil: a later row replaces an earlier one, a later
    nil row does not. *)
Theorem latest_row_wins (p : priceService) (dest : uint64) (gasFirst : bool)
    (gasRows : list GasPrice) (tokenRows : list TokenPrice) :
  GetGasPricesByDestChain (orm p) dest = inr gasRows ->
  GetTokenPricesByDestChain (orm p) dest = inr tokenRows ->
  exists g t,
    gasPrices (GetGasAndTokenPrices p dest gasFirst).1 = Some g
    /\ tokenPrices (GetGasAndTokenPrices p dest gasFirst).1 = Some t
    /\ (forall before row after w,
          gasRows = before ++ row :: after ->
          GasPrice_ row = Some w ->
          (forall r, r ∈ after -> SourceChainSelector r = SourceChainSelector row ->
                     GasPrice_ r = None) ->
          g !! SourceChainSelector row = Some (Some w))
    /\ (forall before row after w,
          tokenRows = before ++ row :: after ->
          TokenPrice_ row = Some w ->
          (forall r, r ∈ after -> TokenAddr r = TokenAddr row ->
                     TokenPrice_ r = None) ->
          t !! TokenAddr row = Some (Some w)).
Proof.
  intros Hgas Htoken.
  exists (collectGasPrices gasRows), (collectTokenPrices tokenRows).
  unfold GetGasAndTokenPrices. rewrite Hgas, Htoken. simpl.
  split; [done|]. split; [done|]. split.
  - intros before row after w -> Hrow Hafter.
    by apply (collectRows_latest SourceChainSelector GasPrice_).
  - intros before row after w -> Hrow Hafter.
    by apply (collectRows_latest TokenAddr TokenPrice_).
Qed.

Lemma latest_row_wins_witness :
  exists g,
    gasPrices (GetGasAndTokenPrices (exampleService duplicateORM None None) 10 true).1
    = Some g
    /\ g !! 1%N = Some (Some 9).
Proof.
  destruct (latest_row_wins (exampleService duplicateORM None None) 10 true
              _ _ eq_refl eq_refl)
    as (g & t & Hg & _ & Hlatest & _).
  exists g. split; [exact Hg|].
  apply (Hlatest [mkGasPrice 1 (Some 7)] (mkGasPrice 1 (Some 9))
                 [mkGasPrice 1 None] 9); [reflexivity..|].
  intros r Hin _. apply elem_of_cons in Hin as [->|Hin]; [reflexivity|].
  by apply elem_of_nil in Hin.
Defined.

(** ** The background goroutine *)

Lemma logAndDrop_snd (msg : string) (m : M unit) :
  (logAndDrop msg m).2
  = m.2 ++ match m.1 with Err _ => [EvLog Error msg] | _ => [] end.
Proof. destruct m as [[[]|e|] t]; simpl; by rewrite ?app_nil_r. Qed.

Lemma runLoop_ok (p : priceService) (fired : list selected) :
  (runLoop p fired).1 = Ok tt.
Proof.
  induction fired as [|[|e r|e r] fired IH]; simpl; try done.
  - rewrite bind_fst, logAndDrop_fst.
    pose proof (runGasPriceUpdate_no_panic (setDynamicConfig p e r)) as Hnp.
    by destruct (runGasPriceUpdate _).1.
  - rewrite bind_fst, logAndDrop_fst.
    pose proof (runTokenPriceUpdate_no_panic (setDynamicConfig p e r)) as Hnp.
    by destruct (runTokenPriceUpdate _).1.
Qed.

Lemma runLoop_gas_tick (p : priceService) (e : option GasPriceEstimatorCommit)
    (r : option PriceRegistryReader) (rest : list selected) :
  (runLoop p (GasTick e r :: rest)).2
  = (runGasPriceUpdate (setDynamicConfig p e r)).2
    ++ match (runGasPriceUpdate (setDynamicConfig p e r)).1 with
       | Err _ => [EvLog Error "Error when updating gas prices in the background"]
       | _ => []
       end
    ++ (runLoop p rest).2.
Proof.
  simpl. rewrite bind_snd, logAndDrop_fst, logAndDrop_snd.
  pose proof (runGasPriceUpdate_no_panic (setDynamicConfig p e r)) as Hnp.
  destruct (runGasPriceUpdate _).1; try done; by rewrite <- app_assoc.
Qed.

Lemma runLoop_token_tick (p : priceService) (e : option GasPriceEstimatorCommit)
    (r : option PriceRegistryReader) (rest : list selected) :
  (runLoop p (TokenTick e r :: rest)).2
  = (runTokenPriceUpdate (setDynamicConfig p e r)).2
    ++ match (runTokenPriceUpdate (setDynamicConfig p e r)).1 with
       | Err _ => [EvLog Error "Error when updating token prices in the background"]
       | _ => []
       end
    ++ (runLoop p rest).2.
Proof.
  simpl. rewrite bind_snd, logAndDrop_fst, logAndDrop_snd.
  pose proof (runTokenPriceUpdate_no_panic (setDynamicConfig p e r)) as Hnp.
  destruct (runTokenPriceUpdate _).1; try done; by rewrite <- app_assoc.
Qed.




(** ** The Docker image helpers *)

Lemma prefix_colon (s : string) :
  String.prefix ":" s = match s with
                        | String c _ => Ascii.eqb c colon
                        | EmptyString => false
                        end.
Proof.
  destruct s as [|c rest]; [done|]. cbn [String.prefix].
  destruct (Ascii.ascii_dec _ c) as [Heq|Hne].
  - subst c. change (Ascii.Ascii false true false true true true false false)
      with colon. rewrite Ascii.eqb_refl. by destruct rest.
  - symmetry. apply Ascii.eqb_neq. intros ->. by apply Hne.
Qed.

Lemma lastIndexFrom_cons (c : Ascii.ascii) (rest substr : string) (pos found : Z) :
  lastIndexFrom pos (String c rest) substr found
  = lastIndexFrom (pos + 1) rest substr
      (if String.prefix substr (String c rest) then pos else found).
Proof. reflexivity. Qed.

Lemma lastIndexFrom_none (s : string) (pos found : Z) :
  hasByte colon s = false -> lastIndexFrom pos s ":" found = found.
Proof.
  revert pos found. induction s as [|c rest IH]; intros pos found Hno; [done|].
  rewrite lastIndexFrom_cons, prefix_colon.
  cbn [hasByte] in Hno. apply orb_false_iff in Hno as [-> Hno]. by apply IH.
Qed.

Lemma lastIndexFrom_last (a b : string) (pos found : Z) :
  hasByte colon b = false ->
  lastIndexFrom pos (String.append a (String colon b)) ":" found
  = pos + Z.of_nat (String.length a).
Proof.
  intros Hb. revert pos found. induction a as [|c a IH]; intros pos found.
  - change (String.append EmptyString (String colon b)) with (String colon b).
    rewrite lastIndexFrom_cons, prefix_colon, Ascii.eqb_refl.
    rewrite lastIndexFrom_none by done.
    change (String.length EmptyString) with 0%nat. lia.
  - change (String.append (String c a) (String colon b))
      with (String c (String.append a (String colon b))).
    rewrite lastIndexFrom_cons, IH.
    change (String.length (String c a)) with (S (String.length a)). lia.
Qed.

Lemma hasByte_split (s : string) :
  hasByte colon s = true ->
  exists a b, s = String.append a (String colon b) /\ hasByte colon b = false.
Proof.
  induction s as [|c rest IH]; [done|]. simpl.
  destruct (hasByte colon rest) eqn:Hrest.
  - intros _. destruct (IH eq_refl) as (a & b & -> & Hb).
    by exists (String c a), b.
  - rewrite orb_false_r. intros ->%Ascii.eqb_eq. by exists EmptyString, rest.
Qed.

Lemma strings_LastIndex_colon (s : string) :
  (hasByte colon s = false /\ strings_LastIndex s ":" = -1)
  \/ exists a b,
       s = String.append a (String colon b)
       /\ hasByte colon b = false
       /\ strings_LastIndex s ":" = Z.of_nat (String.length a).
Proof.
  unfold strings_LastIndex. destruct (hasByte colon s) eqn:Hs.
  - right. destruct (hasByte_split s Hs) as (a & b & -> & Hb).
    exists a, b. by rewrite lastIndexFrom_last.
  - left. by rewrite lastIndexFrom_none.
Qed.

Lemma append_nil_l (b : string) : String.append EmptyString b = b.
Proof. reflexivity. Qed.

Lemma append_cons (c : Ascii.ascii) (a b : string) :
  String.append (String c a) b = String c (String.append a b).
Proof. reflexivity. Qed.

Lemma substring_all (b : string) : String.substring 0 (String.length b) b = b.
Proof. induction b as [|c b IH]; [done|]. cbn. by rewrite IH. Qed.

Lemma substring_prefix (a x : string) :
  String.substring 0 (String.length a) (String.append a x) = a.
Proof.
  induction a as [|c a IH].
  - rewrite append_nil_l. by destruct x.
  - rewrite append_cons. cbn. by rewrite IH.
Qed.

Lemma substring_suffix (a b : string) :
  String.substring (String.length a) (String.length b) (String.append a b) = b.
Proof.
  induction a as [|c a IH].
  - rewrite append_nil_l. apply substring_all.
  - rewrite append_cons. cbn. exact IH.
Qed.

Lemma length_append (a b : string) :
  String.length (String.append a b) = (String.length a + String.length b)%nat.
Proof.
  induction a as [|c a IH]; [done|].
  rewrite append_cons. cbn. by rewrite IH.
Qed.

Lemma hasByte_append (c : Ascii.ascii) (a b : string) :
  hasByte c (String.append a b) = hasByte c a || hasByte c b.
Proof.
  induction a as [|d a IH]; [done|].
  rewrite append_cons. cbn [hasByte]. by rewrite IH, orb_assoc.
Qed.

Lemma append_assoc_colon (name tag : string) :
  String.append (String.append name (String colon EmptyString)) tag
  = String.append name (String colon tag).
Proof.
  induction name as [|c name IH]; [done|].
  rewrite !append_cons. by rewrite IH.
Qed.

(** Both helpers on an image that splits at its last colon. *)
Lemma dockerImage_split (name tag : string) :
  hasByte colon tag = false ->
  dockerImageName (String.append name (String colon tag)) = inr name
  /\ dockerImageTag (String.append name (String colon tag)) = inr tag.
Proof.
  intros Htag. unfold dockerImageName, dockerImageTag, strings_LastIndex.
  rewrite lastIndexFrom_last by done.
  destruct (Z.eqb_spec (0 + Z.of_nat (String.length name)) (-1)) as [Heq|_]; [lia|].
  unfold slice, len. split; f_equal.
  - replace (Z.to_nat (0 + Z.of_nat (String.length name) - 0))
      with (String.length name) by lia.
    apply substring_prefix.
  - rewrite length_append. cbn [String.length].
    replace (Z.to_nat (0 + Z.of_nat (String.length name) + 1))
      with (String.length (String.append name (String colon EmptyString))).
    2: { rewrite length_append. cbn. lia. }
    replace (Z.to_nat _) with (String.length tag) by lia.
    rewrite <- (append_assoc_colon name tag). apply substring_suffix.
Qed.

(** X15: dockerImageName and dockerImageTag return [name] and [tag]
    exactly for the image [name:tag] whose tag holds no colon: the image
    is cut at its last colon, the two parts joined by a colon give the
    image back, and the tag may be empty. *)
Theorem docker_image_round_trip (image name tag : string) :
  (dockerImageName image = inr name /\ dockerImageTag image = inr tag)
  <-> (image = String.append name (String colon tag) /\ hasByte colon tag = false).
Proof.
  split.
  - intros [Hname Htag].
    destruct (strings_LastIndex_colon image) as [[_ Hidx]|(a & b & -> & Hb & _)].
    + unfold dockerImageName in Hname. by rewrite Hidx in Hname.
    + destruct (dockerImage_split a b Hb) as [Ha Hb'].
      rewrite Ha in Hname. rewrite Hb' in Htag.
      injection Hname as <-. injection Htag as <-. done.
  - intros [-> Htag]. by apply dockerImage_split.
Qed.

Lemma docker_image_round_trip_witness :
  dockerImageName "registry:5000/chainlink:2.23.0" = inr "registry:5000/chainlink"
  /\ dockerImageTag "registry:5000/chainlink:2.23.0" = inr "2.23.0".
Proof.
  apply (docker_image_round_trip "registry:5000/chainlink:2.23.0"
           "registry:5000/chainlink" "2.23.0").
  split; reflexivity.
Defined.

(** X16: the two helpers fail together, with the "explicit tag" error
    naming the image, exactly on the images without any colon; on every
    other image both succeed. *)
Theorem docker_image_untagged (image : string) :
  (dockerImageName image = inl (ErrNoExplicitTag image) <-> hasByte colon image = false)
  /\ (dockerImageTag image = inl (ErrNoExplicitTag image) <-> hasByte colon image = false)
  /\ (hasByte colon image = true ->
      exists name tag, dockerImageName image = inr name /\ dockerImageTag image = inr tag)
  /\ (forall e, dockerImageName image = inl e \/ dockerImageTag image = inl e ->
                e = ErrNoExplicitTag image).
Proof.
  destruct (strings_LastIndex_colon image) as [[Hno Hidx]|(a & b & -> & Hb & Hidx)].
  - unfold dockerImageName, dockerImageTag. rewrite Hidx. simpl.
    repeat split; try done; try congruence.
    intros e [[= <-]|[= <-]]; done.
  - destruct (dockerImage_split a b Hb) as [Ha Hb'].
    assert (hasByte colon (String.append a (String colon b)) = true) as Hhas.
    { rewrite hasByte_append. simpl. by rewrite orb_true_r. }
    rewrite Ha, Hb', Hhas.
    repeat split; try done; try congruence; eauto.
    intros e [[=]|[=]].
Qed.

Lemma docker_image_untagged_witness :
  dockerImageTag "chainlink" = inl (ErrNoExplicitTag "chainlink").
Proof.
  destruct (docker_image_untagged "chainlink") as (_ & Htag & _).
  apply Htag. reflexivity.
Defined.

(** ** The image of a node set *)

Lemma plainNode_checks (spec : NodeSpec) :
  plainNode spec <->
  negb (String.eqb (DockerContext (Node spec)) "") = false
  /\ negb (String.eqb (DockerFilePath (Node spec)) "") = false.
Proof.
  unfold plainNode. rewrite !negb_false_iff, !String.eqb_eq. done.
Qed.

(** The loop on plain nodes: it returns the images met, each once. *)
Lemma collectDockerImages_plain (name : string) (specs : list NodeSpec) :
  forall (idx : nat) (acc : list string),
  Forall plainNode specs ->
  exists images,
    collectDockerImages name idx specs acc = inr images
    /\ (forall x, x ∈ images <->
                  x ∈ acc \/ exists spec, spec ∈ specs /\ Image (Node spec) = x)
    /\ (NoDup acc -> NoDup images).
Proof.
  induction specs as [|spec specs IH]; intros idx acc Hplain.
  { exists acc. split; [done|]. split; [|done].
    intros x. split; [by left|]. intros [?|(spec & Hin & _)]; [done|].
    by apply elem_of_nil in Hin. }
  apply Forall_cons in Hplain as [Hspec Hplain].
  apply plainNode_checks in Hspec as [Hctx Hfile].
  cbn [collectDockerImages]. rewrite Hctx, Hfile.
  destruct (slices_Contains acc (Image (Node spec))) eqn:Hc.
  - apply slices_Contains_true in Hc.
    destruct (IH (S idx) acc Hplain) as (images & -> & Hmem & Hnd).
    exists images. split; [done|]. split; [|done].
    intros x. rewrite Hmem. split.
    + intros [?|(s & Hin & Hs)]; [by left|].
      right. exists s. split; [|done]. apply elem_of_cons. by right.
    + intros [?|(s & Hin & Hs)]; [by left|].
      apply elem_of_cons in Hin as [->|Hin]; [left; congruence|].
      right. eauto.
  - assert (Image (Node spec) ∉ acc) as Hfresh.
    { intros Hin. apply slices_Contains_true in Hin. congruence. }
    destruct (IH (S idx) (acc ++ [Image (Node spec)]) Hplain)
      as (images & -> & Hmem & Hnd).
    exists images. split; [done|]. split.
    + intros x. rewrite Hmem, elem_of_app, elem_of_cons, elem_of_nil. split.
      * intros [[?|[->|[]]]|(s & Hin & Hs)]; [by left| |].
        -- right. exists spec. split; [|done]. apply elem_of_cons. by left.
        -- right. exists s. split; [|done]. apply elem_of_cons. by right.
      * intros [?|(s & Hin & Hs)]; [by left; left|].
        apply elem_of_cons in Hin as [->|Hin]; [left; right; left; congruence|].
        right. eauto.
    + intros Hacc. apply Hnd. apply NoDup_app. split; [done|].
      split; [|apply NoDup_singleton].
      intros x Hx [->|[]%elem_of_nil]%elem_of_cons. done.
Qed.

(** The loop stops at the first node that is not plain. *)
Lemma collectDockerImages_first_offender (name : string) (specs : list NodeSpec) :
  forall (idx : nat) (acc : list string) (i : nat) (spec : NodeSpec),
  specs !! i = Some spec ->
  Forall plainNode (take i specs) ->
  ~ plainNode spec ->
  collectDockerImages name idx specs acc
  = inl (if String.eqb (DockerContext (Node spec)) ""
         then ErrDockerFile (idx + i) name
         else ErrDockerContext (idx + i) name).
Proof.
  induction specs as [|s specs IH]; intros idx acc i spec Hi Hbefore Hbad; [done|].
  destruct i as [|i].
  - injection Hi as ->. cbn [collectDockerImages]. rewrite Nat.add_0_r.
    destruct (String.eqb (DockerContext (Node spec)) "") eqn:Hctx; [|done].
    cbn [negb].
    destruct (String.eqb (DockerFilePath (Node spec)) "") eqn:Hfile; [|done].
    destruct Hbad. split; by apply String.eqb_eq.
  - cbn [take] in Hbefore. apply Forall_cons in Hbefore as [Hs Hbefore].
    apply plainNode_checks in Hs as [Hctx Hfile].
    cbn [collectDockerImages]. rewrite Hctx, Hfile.
    replace (idx + S i)%nat with (S idx + i)%nat by lia.
    destruct (slices_Contains acc (Image (Node s))); by apply IH.
Qed.

Lemma collectDockerImages_inr (name : string) (specs : list NodeSpec) :
  forall (idx : nat) (acc images : list string),
  collectDockerImages name idx specs acc = inr images -> Forall plainNode specs.
Proof.
  induction specs as [|s specs IH]; intros idx acc images Hok; [constructor|].
  cbn [collectDockerImages] in Hok.
  destruct (negb (String.eqb (DockerContext (Node s)) "")) eqn:Hctx; [done|].
  destruct (negb (String.eqb (DockerFilePath (Node s)) "")) eqn:Hfile; [done|].
  constructor; [by apply plainNode_checks|].
  destruct (slices_Contains acc (Image (Node s))); by eapply IH.
Qed.

Lemma NoDup_all_equal {A} (l : list A) (a : A) :
  NoDup l -> l <> [] -> (forall x, x ∈ l -> x = a) -> l = [a].
Proof.
  intros Hnd Hne Hall. destruct l as [|x [|y l]]; [done| |].
  - f_equal. apply Hall. apply elem_of_cons. by left.
  - exfalso. apply NoDup_cons in Hnd as [Hx _]. apply Hx.
    rewrite (Hall x), (Hall y); [apply elem_of_cons; by left|..].
    + apply elem_of_cons. right. apply elem_of_cons. by left.
    + apply elem_of_cons. by left.
Qed.

(** X17: nodesetDockerImage returns an image exactly for a node set that
    is not empty, whose nodes all set neither a Docker context nor a
    Dockerfile, and whose nodes all name that one image. *)
Theorem nodeset_image_iff (nodeSet : CapabilitiesAwareNodeSet) (image : string) :
  nodesetDockerImage nodeSet = inr image
  <-> NodeSpecs nodeSet <> []
      /\ Forall (fun spec => plainNode spec /\ Image (Node spec) = image)
                (NodeSpecs nodeSet).
Proof.
  unfold nodesetDockerImage. split.
  - destruct (collectDockerImages _ _ _ _) as [e|images] eqn:Hc; [done|].
    pose proof (collectDockerImages_inr _ _ _ _ _ Hc) as Hplain.
    destruct (collectDockerImages_plain (Name nodeSet) (NodeSpecs nodeSet) 0 [] Hplain)
      as (images' & Hc' & Hmem & _).
    rewrite Hc in Hc'. injection Hc' as <-.
    destruct images as [|x [|y images]]; try done. intros [= ->].
    split.
    + intros Hnil. rewrite Hnil in Hc. done.
    + apply Forall_forall. intros spec Hin. split.
      * rewrite Forall_forall in Hplain. by apply Hplain.
      * assert (Image (Node spec) ∈ [image]) as Himg.
        { apply Hmem. right. eauto. }
        apply elem_of_cons in Himg as [?|[]%elem_of_nil]. done.
  - intros [Hne Hall].
    assert (Forall plainNode (NodeSpecs nodeSet)) as Hplain.
    { eapply Forall_impl; [exact Hall|]. by intros spec [? _]. }
    destruct (collectDockerImages_plain (Name nodeSet) (NodeSpecs nodeSet) 0 [] Hplain)
      as (images & -> & Hmem & Hnd).
    rewrite Forall_forall in Hall.
    assert (images = [image]) as ->; [|done].
    apply NoDup_all_equal; [apply Hnd, NoDup_nil_2| |].
    + destruct (NodeSpecs nodeSet) as [|spec specs] eqn:Hspecs; [done|].
      intros ->. assert (Image (Node spec) ∈ @nil string) as Hin.
      { apply Hmem. right. exists spec. split; [apply elem_of_cons; by left|done]. }
      by apply elem_of_nil in Hin.
    + intros x [[]%elem_of_nil|(spec & Hin & <-)]%Hmem. by apply Hall.
Qed.

Lemma nodeset_image_iff_witness :
  nodesetDockerImage
    (mkNodeSet "workflow"
       [mkNodeSpec (mkNodeInput "chainlink:2.23.0" "" "");
        mkNodeSpec (mkNodeInput "chainlink:2.23.0" "" "")])
  = inr "chainlink:2.23.0".
Proof.
  apply nodeset_image_iff. split; [done|].
  repeat constructor.
Defined.

(** X18: nodesetDockerImage reports the first node that sets a Docker
    context or a Dockerfile, by its index and with the context checked
    first, before it compares any image; with plain nodes only, its one
    other error lists the distinct images and their number, which is not
    one (zero for the empty node set). *)
Theorem nodeset_image_errors (nodeSet : CapabilitiesAwareNodeSet) :
  (forall i spec,
     NodeSpecs nodeSet !! i = Some spec ->
     Forall plainNode (take i (NodeSpecs nodeSet)) ->
     ~ plainNode spec ->
     nodesetDockerImage nodeSet
     = inl (if String.eqb (DockerContext (Node spec)) ""
            then ErrDockerFile i (Name nodeSet)
            else ErrDockerContext i (Name nodeSet)))
  /\ (Forall plainNode (NodeSpecs nodeSet) ->
      forall e, nodesetDockerImage nodeSet = inl e ->
      exists images,
        e = ErrDifferentImages (Name nodeSet) (length images) images
        /\ length images <> 1%nat
        /\ NoDup images
        /\ forall x, x ∈ images <->
                     exists spec, spec ∈ NodeSpecs nodeSet /\ Image (Node spec) = x)
  /\ (NodeSpecs nodeSet = [] ->
      nodesetDockerImage nodeSet = inl (ErrDifferentImages (Name nodeSet) 0 [])).
Proof.
  split; [|split].
  - intros i spec Hi Hbefore Hbad. unfold nodesetDockerImage.
    by rewrite (collectDockerImages_first_offender _ _ 0 [] i spec Hi Hbefore Hbad).
  - intros Hplain e. unfold nodesetDockerImage.
    destruct (collectDockerImages_plain (Name nodeSet) (NodeSpecs nodeSet) 0 [] Hplain)
      as (images & -> & Hmem & Hnd).
    assert (forall x, x ∈ images <->
              exists spec, spec ∈ NodeSpecs nodeSet /\ Image (Node spec) = x) as Hmem'.
    { intros x. rewrite Hmem. split; [intros [[]%elem_of_nil|?]; done|eauto]. }
    destruct images as [|x [|y images]]; [|done|]; intros [= <-].
    + exists []. split; [done|]. split; [done|].
      split; [apply Hnd, NoDup_nil_2|done].
    + exists (x :: y :: images). split; [done|]. split; [simpl; lia|].
      split; [apply Hnd, NoDup_nil_2|done].
  - intros Hnil. unfold nodesetDockerImage. by rewrite Hnil.
Qed.

Lemma nodeset_image_errors_witness :
  nodesetDockerImage
    (mkNodeSet "workflow"
       [mkNodeSpec (mkNodeInput "chainlink:2.23.0" "" "");
        mkNodeSpec (mkNodeInput "other:1" "" "Dockerfile")])
  = inl (ErrDockerFile 1 "workflow").
Proof.
  destruct (nodeset_image_errors
              (mkNodeSet "workflow"
                 [mkNodeSpec (mkNodeInput "chainlink:2.23.0" "" "");
                  mkNodeSpec (mkNodeInput "other:1" "" "Dockerfile")]))
    as (Hfirst & _).
  apply (Hfirst 1%nat (mkNodeSpec (mkNodeInput "other:1" "" "Dockerfile"))).
  - reflexivity.
  - repeat constructor.
  - intros [_ Hfile]. discriminate Hfile.
Defined.

(** ** StartNixShell and DeployJd *)

Lemma map_fold_insert_lookup (base extra : gmap string string) (k : string) :
  map_fold (fun key value m => <[key := value]> m) base extra !! k
  = match extra !! k with
    | Some v => Some v
    | None => base !! k
    end.
Proof.
  apply (map_fold_weak_ind
           (fun r (m : gmap string string) =>
              r !! k = match m !! k with Some v => Some v | None => base !! k end)).
  - by rewrite lookup_empty.
  - intros i x m r Hi IH. destruct (decide (i = k)) as [->|Hne].
    + by rewrite !lookup_insert_eq.
    + by rewrite !lookup_insert_ne.
Qed.

Section crib_properties.
Context {Shell JdOutput : Type}.
Implicit Types (w : CribWorld Shell JdOutput).

(** X19: StartNixShell creates the shell with an environment in which
    CONFIG_OVERRIDES_DIR is the absolute configuration directory and, for
    the AWS provider, the four CHAINLINK_ variables are those of the team
    input, whatever the extra variables say; every other variable is the
    extra one when given, else PROVIDER and DEVSPACE_NAMESPACE from the
    input, else unset.  No shell is created for a nil or invalid input or
    when the directory cannot be resolved. *)
Theorem nix_shell_environment w (input : StartNixShellInput) :
  let run := StartNixShell w (Some input) in
  (forall folder env,
     EvNewNixShell folder env ∈ run.2 ->
     exists cribConfigDirAbs,
       Validate input = None
       /\ filepath_Abs w (filepath_Join_dot w (CribConfigsDir input))
          = inr cribConfigDirAbs
       /\ folder = FolderLocation (CRIB input)
       /\ env !! "CONFIG_OVERRIDES_DIR" = Some cribConfigDirAbs
       /\ (EqualFold_AWS w (Provider (CRIB input)) = true ->
           env !! "CHAINLINK_TEAM" = Some (Team (CRIB input))
           /\ env !! "CHAINLINK_PRODUCT" = Some (Product (CRIB input))
           /\ env !! "CHAINLINK_COST_CENTER" = Some (CostCenter (CRIB input))
           /\ env !! "CHAINLINK_COMPONENT" = Some (Component (CRIB input)))
       /\ (forall k,
             k <> "CONFIG_OVERRIDES_DIR" ->
             (EqualFold_AWS w (Provider (CRIB input)) = true ->
              k <> "CHAINLINK_TEAM" /\ k <> "CHAINLINK_PRODUCT"
              /\ k <> "CHAINLINK_COST_CENTER" /\ k <> "CHAINLINK_COMPONENT") ->
             env !! k
             = match ExtraEnvVars input !! k with
               | Some v => Some v
               | None =>
                   if decide (k = "DEVSPACE_NAMESPACE") then Some (Namespace (CRIB input))
                   else if decide (k = "PROVIDER") then Some (Provider (CRIB input))
                   else None
               end))
  /\ (Validate input = None ->
      is_Some (match filepath_Abs w (filepath_Join_dot w (CribConfigsDir input)) with
               | inr d => Some d | inl _ => None end) ->
      exists env, run.2 !! 0%nat = Some (EvNewNixShell (FolderLocation (CRIB input)) env))
  /\ (StartNixShell w None).2 = [].
Proof.
  intros run. subst run. split; [|split; [|done]].
  - intros folder env Hin. unfold StartNixShell in Hin. cbv zeta in Hin.
    destruct (Validate input) as [valErr|]; [by apply elem_of_nil in Hin|].
    destruct (filepath_Abs w _) as [absErr|abs] eqn:Habs;
      [by apply elem_of_nil in Hin|].
    assert (EvNewNixShell folder env
            = EvNewNixShell (FolderLocation (CRIB input))
                (<["CONFIG_OVERRIDES_DIR" := abs]> (globalEnvVars w input))) as Heq.
    { destruct (nix_NewNixShell w _ _) as [err|nixShell];
        [cbn [snd] in Hin; in_trace Hin|].
      destruct (PurgeNamespace input); [|cbn [snd] in Hin; in_trace Hin].
      destruct (RunCommand w nixShell _); cbn [snd] in Hin; in_trace Hin. }
    injection Heq as -> ->. exists abs.
    split; [done|]. split; [done|]. split; [done|].
    split; [apply lookup_insert_eq|]. split.
    + intros Haws. unfold globalEnvVars. rewrite Haws.
      repeat split; by simplify_map_eq.
    + intros k Hk Hteam. rewrite lookup_insert_ne by done.
      unfold globalEnvVars.
      assert (forall m : gmap string string,
                m = map_fold (fun key value m => <[key := value]> m)
                      (<["DEVSPACE_NAMESPACE" := Namespace (CRIB input)]>
                         (<["PROVIDER" := Provider (CRIB input)]> ∅))
                      (ExtraEnvVars input) ->
                m !! k
                = match ExtraEnvVars input !! k with
                  | Some v => Some v
                  | None =>
                      if decide (k = "DEVSPACE_NAMESPACE")
                      then Some (Namespace (CRIB input))
                      else if decide (k = "PROVIDER")
                           then Some (Provider (CRIB input))
                           else None
                  end) as Hextra.
      { intros m ->. rewrite map_fold_insert_lookup.
        destruct (ExtraEnvVars input !! k); [done|].
        destruct (decide (k = "DEVSPACE_NAMESPACE")) as [->|?];
          [by rewrite lookup_insert_eq|].
        rewrite lookup_insert_ne by done.
        destruct (decide (k = "PROVIDER")) as [->|?];
          [by rewrite lookup_insert_eq|].
        by rewrite lookup_insert_ne. }
      destruct (EqualFold_AWS w _); [|by apply Hextra].
      destruct Hteam as (? & ? & ? & ?); [done|].
      rewrite !lookup_insert_ne by done. by apply Hextra.
  - intros Hvalid Habs. unfold StartNixShell. rewrite Hvalid.
    destruct (filepath_Abs w _) as [absErr|abs]; [by destruct Habs|].
    eexists.
    destruct (nix_NewNixShell w _ _) as [err|nixShell]; [done|].
    destruct (PurgeNamespace input); [|done].
    by destruct (RunCommand w nixShell _).
Qed.

Lemma dockerImageTag_inr (image tag : string) :
  dockerImageTag image = inr tag ->
  exists name,
    image = String.append name (String colon tag) /\ hasByte colon tag = false.
Proof.
  intros Htag.
  destruct (strings_LastIndex_colon image) as [[_ Hidx]|(a & b & -> & Hb & _)].
  - unfold dockerImageTag in Htag. by rewrite Hidx in Htag.
  - destruct (dockerImage_split a b Hb) as [_ Hb'].
    rewrite Hb' in Htag. injection Htag as <-. eauto.
Qed.


End crib_properties.

Lemma nix_shell_environment_witness :
  exists env,
    (StartNixShell exampleCribWorld (Some exampleNixInput)).2 !! 0%nat
    = Some (EvNewNixShell "crib" env)
    /\ env !! "CONFIG_OVERRIDES_DIR" = Some "/work/configs"
    /\ env !! "CHAINLINK_TEAM" = Some "cre"
    /\ env !! "PROVIDER" = Some "aws"
    /\ env !! "HOME" = None.
Proof.
  destruct (nix_shell_environment exampleCribWorld exampleNixInput)
    as (Hcreated & Hfirst & _).
  destruct Hfirst as [env Henv]; [reflexivity|by eexists|].
  exists env. split; [exact Henv|].
  destruct (Hcreated "crib" env) as (abs & _ & Habs & _ & Hdir & Haws & Hrest).
  { eapply list_elem_of_lookup_2. exact Henv. }
  injection Habs as <-.
  destruct Haws as (Hteam & _); [reflexivity|].
  split; [exact Hdir|]. split; [exact Hteam|].
  split; (rewrite Hrest; [reflexivity|discriminate|intros _; by repeat split]).
Defined.

